(** * wuffs_aux::DecodeJson: the streaming JSON decoder driver

    A shallow embedding of [internal/cgen/auxiliary/json.cc] and of the
    [wuffs_base__io_buffer] part of [internal/cgen/base/io-public.h].

    Conventions.
    - [size_t] and [uint64_t] are 64-bit, [uint32_t] is 32-bit; they are
      carried as [Z] and every operation that can wrap is written with
      [u64] or [u32].
    - [std::string] is [string]; the bytes of a buffer are [list byte].
    - The virtual classes [sync_io::Input] and [DecodeJsonCallbacks] and the
      low-level [wuffs_json__decoder] are type classes over the state of the
      object; a method takes the object and returns the mutated object next
      to its C++ return value.
    - Loops of the source that have no bound ([while (true)], the refill
      loop) take a [fuel]; running out of fuel is the outcome [Diverges].
      Statements about what a loop returns are made with [eventually]: the
      result is the same with every fuel from some amount on.
    - The functions of base and the bits of a token's detail are not part
      of the embedded sources; the driver takes them as the classes [Base]
      and [TokenBits]. *)

From Stdlib Require Import ZArith List String Ascii Strings.Byte Bool Lia.
Import ListNotations.
Open Scope string_scope.
Open Scope list_scope.
Open Scope Z_scope.

(** ** Machine integers *)

Definition u64_max : Z := 18446744073709551615.
Definition u32_max : Z := 4294967295.

Definition u64 (x : Z) : Z := x mod (u64_max + 1).
Definition u32 (x : Z) : Z := x mod (u32_max + 1).

(** Modelled from the spec: [wuffs_base__u64__sat_add] belongs to the
    numeric helpers of base, which are not embedded here; the spec calls it
    the saturating 64-bit addition. *)
Definition wuffs_base__u64__sat_add (x y : Z) : Z :=
  if x + y >? u64_max then u64_max else x + y.

(** [(vbd & BIT)] used as a C condition. *)
Definition has_bit (vbd bit : Z) : bool := negb (Z.land vbd bit =? 0).

Definition empty (s : string) : bool := (s =? "")%string.

(** ** Buffers (io-public.h) *)

Record wuffs_base__io_buffer_meta : Type := mk_io_meta {
  wi : Z;        (* Write index. Invariant: wi <= len. *)
  ri : Z;        (* Read  index. Invariant: ri <= wi. *)
  pos : Z;       (* Position of the buffer start relative to the stream start. *)
  closed : bool  (* No further writes are expected. *)
}.

Record wuffs_base__io_buffer : Type := mk_io_buffer {
  data : list byte;
  meta : wuffs_base__io_buffer_meta
}.

(** [data.len] *)
Definition data_len (buf : wuffs_base__io_buffer) : Z :=
  Z.of_nat (List.length (data buf)).

(** [memmove(ptr, ptr + src, n)] on the cells of a buffer: the [n] cells
    from [src] on land at the start, the rest stays. *)
Definition memmove {A : Type} (cells : list A) (src n : Z) : list A :=
  firstn (Z.to_nat n) (skipn (Z.to_nat src) cells)
    ++ skipn (Z.to_nat n) cells.

(** [wuffs_base__io_buffer__compact] moves any written but unread bytes to
    the start of the buffer.  ([buf] is a value here: json.cc never hands
    it a null pointer.) *)
Definition wuffs_base__io_buffer__compact
    (buf : wuffs_base__io_buffer) : wuffs_base__io_buffer :=
  let m := meta buf in
  if ri m =? 0 then buf
  else
    let pos' := wuffs_base__u64__sat_add (pos m) (ri m) in
    let n := u64 (wi m - ri m) in
    let data' := if negb (n =? 0) then memmove (data buf) (ri m) n
                 else data buf in
    mk_io_buffer data' (mk_io_meta n 0 pos' (closed m)).

Definition wuffs_base__io_buffer__reader_io_position
    (buf : wuffs_base__io_buffer) : Z :=
  wuffs_base__u64__sat_add (pos (meta buf)) (ri (meta buf)).

Definition wuffs_base__io_buffer__writer_io_position
    (buf : wuffs_base__io_buffer) : Z :=
  wuffs_base__u64__sat_add (pos (meta buf)) (wi (meta buf)).

(** The invariants that io-public.h documents on the meta fields, together
    with the ranges of their C types. *)
Definition io_buffer_ok (buf : wuffs_base__io_buffer) : Prop :=
  0 <= ri (meta buf) <= wi (meta buf)
  /\ wi (meta buf) <= data_len buf
  /\ data_len buf <= u64_max
  /\ 0 <= pos (meta buf) <= u64_max.

(** The C functions of io-public.h take a pointer that may be null, here
    [None]; the methods of the C++ struct, which json.cc calls, hand them
    [this]. *)
Definition wuffs_base__io_buffer__compact__ptr
    (buf : option wuffs_base__io_buffer) : option wuffs_base__io_buffer :=
  match buf with
  | None => None
  | Some b => Some (wuffs_base__io_buffer__compact b)
  end.

Definition wuffs_base__io_buffer__reader_io_position__ptr
    (buf : option wuffs_base__io_buffer) : Z :=
  match buf with
  | Some b => wuffs_base__io_buffer__reader_io_position b
  | None => 0
  end.

Definition wuffs_base__io_buffer__writer_io_position__ptr
    (buf : option wuffs_base__io_buffer) : Z :=
  match buf with
  | Some b => wuffs_base__io_buffer__writer_io_position b
  | None => 0
  end.

(** ** Tokens *)

Module Token.
(** A [wuffs_base__token] seen through its four accessors. *)
Record t : Type := mk {
  value_base_category : Z;
  value_base_detail : Z;
  continued : bool;
  length : Z
}.
Definition zero : t := mk 0 0 false 0.
End Token.

(** Modelled from the spec: the category numbers of the token wire
    contract, "Filler=0, Structure, String, UnicodeCodePoint, Literal,
    Number"; token-public.h, which defines them, is not embedded here. *)
Definition VBC__FILLER : Z := 0.
Definition VBC__STRUCTURE : Z := 1.
Definition VBC__STRING : Z := 2.
Definition VBC__UNICODE_CODE_POINT : Z := 3.
Definition VBC__LITERAL : Z := 4.
Definition VBC__NUMBER : Z := 5.

(** The detail bits of token-public.h that json.cc tests.  token-public.h is
    not embedded here, so the driver is parameterised by their values. *)
Class TokenBits : Type := {
  VBD__STRUCTURE__PUSH : Z;
  VBD__STRUCTURE__POP : Z;
  VBD__STRUCTURE__TO_LIST : Z;
  VBD__STRING__CONVERT_0_DST_1_SRC_DROP : Z;
  VBD__STRING__CONVERT_1_DST_1_SRC_COPY : Z;
  VBD__STRING__CONVERT_1_DST_4_SRC_BACKSLASH_X : Z;
  VBD__STRING__CHAIN_MUST_BE_UTF_8 : Z;
  VBD__LITERAL__NULL : Z;
  VBD__LITERAL__TRUE : Z;
  VBD__NUMBER__FORMAT_TEXT : Z;
  VBD__NUMBER__CONTENT_INTEGER_SIGNED : Z;
  VBD__NUMBER__CONTENT_FLOATING_POINT : Z;
  VBD__NUMBER__CONTENT_NEG_INF : Z;
  VBD__NUMBER__CONTENT_POS_INF : Z;
  VBD__NUMBER__CONTENT_NEG_NAN : Z;
  VBD__NUMBER__CONTENT_POS_NAN : Z
}.

Record wuffs_base__token_buffer : Type := mk_token_buffer {
  tok_data : list Token.t;
  tok_meta : wuffs_base__io_buffer_meta
}.

(** Modelled from the spec: [wuffs_base__token_buffer::compact] is declared
    in token-public.h, not embedded here; "Compaction: moves unread tokens to index 0
    without touching bytes", with the shape of the io_buffer's. *)
Definition wuffs_base__token_buffer__compact
    (buf : wuffs_base__token_buffer) : wuffs_base__token_buffer :=
  let m := tok_meta buf in
  if ri m =? 0 then buf
  else
    let pos' := wuffs_base__u64__sat_add (pos m) (ri m) in
    let n := u64 (wi m - ri m) in
    let data' := if negb (n =? 0) then memmove (tok_data buf) (ri m) n
                 else tok_data buf in
    mk_token_buffer data' (mk_io_meta n 0 pos' (closed m)).

(** ** Statuses *)

(** [wuffs_base__status], seen through what json.cc asks of it: [repr] is
    compared with [nullptr] and with the two suspensions, and any other
    [repr] is only asked [is_error()] and [message()]. *)
Inductive wuffs_base__status : Type :=
| status_ok
| suspension__short_read
| suspension__short_write
| status_other (error : bool) (message : string).

Definition is_ok (s : wuffs_base__status) : bool :=
  match s with status_ok => true | _ => false end.

Definition is_error (s : wuffs_base__status) : bool :=
  match s with status_other error _ => error | _ => false end.

Definition status_message (s : wuffs_base__status) : string :=
  match s with
  | status_other _ m => m
  | _ => ""  (* json.cc never asks the other three *)
  end.

(** [wuffs_base__transform__output] *)
Record wuffs_base__transform__output : Type := mk_output {
  status : wuffs_base__status;
  num_dst : Z;
  num_src : Z
}.

(** ** The collaborators *)

(** The functions of base that json.cc calls.  A function that writes
    through a destination slice returns the bytes it wrote. *)
Class Base : Type := {
  (* (dst.len, code_point) to the encoding written at the start of dst *)
  wuffs_base__utf_8__encode : Z -> Z -> list byte;
  (* (dst.len, src, src_closed) to the output and the contents of dst *)
  wuffs_base__base_16__decode4 :
    Z -> list byte -> bool -> wuffs_base__transform__output * list byte;
  wuffs_base__parse_number_u64 : list byte -> wuffs_base__status * Z;
  wuffs_base__parse_number_i64 : list byte -> wuffs_base__status * Z;
  (* the value is the IEEE 754 bit pattern of the double *)
  wuffs_base__parse_number_f64 : list byte -> wuffs_base__status * Z
}.

(** A [double] is carried as its 64-bit IEEE 754 representation, so the
    bit cast is the identity. *)
Definition wuffs_base__ieee_754_bit_representation__from_u64_to_f64
    (u : Z) : Z := u.

(** Modelled from the spec: "emit its UTF-8 byte sequence (max 4 bytes)";
    the constant is defined in base, not embedded here. *)
Definition WUFFS_BASE__UTF_8__BYTE_LENGTH__MAX_INCL : Z := 4.

(** [sync_io::Input] *)
Class Input (I : Type) : Type := {
  BringsItsOwnIOBuffer : I -> option wuffs_base__io_buffer;
  CopyIn : I -> wuffs_base__io_buffer -> string * I * wuffs_base__io_buffer
}.

(** [wuffs_json__decoder] *)
Class JsonDecoder (D : Type) : Type := {
  alloc : option D;
  set_quirk_enabled : D -> Z -> bool -> D;
  decode_tokens :
    D -> wuffs_base__token_buffer -> wuffs_base__io_buffer ->
    wuffs_base__status * D * wuffs_base__token_buffer * wuffs_base__io_buffer
}.

Record DecodeJsonResult : Type := mk_result {
  error_message : string;
  cursor_position : Z
}.

(** [DecodeJsonCallbacks]; [Done] takes its three arguments by reference
    and so returns them. *)
Class DecodeJsonCallbacks (C I : Type) : Type := {
  AppendNull : C -> string * C;
  AppendBool : C -> bool -> string * C;
  AppendI64 : C -> Z -> string * C;
  AppendF64 : C -> Z -> string * C;
  AppendTextString : C -> string -> string * C;
  AppendByteString : C -> string -> string * C;
  Push : C -> Z -> string * C;
  Pop : C -> Z -> string * C;
  Done : C -> DecodeJsonResult -> I -> wuffs_base__io_buffer ->
         C * DecodeJsonResult * I * wuffs_base__io_buffer
}.

(** The two methods that json.cc gives a body. *)
Definition DecodeJsonCallbacks__AppendByteString
    {C : Type} (c : C) (val : string) : string * C :=
  ("wuffs_aux::DecodeJson: unexpected JSON byte string", c).

Definition DecodeJsonCallbacks__Done
    {C I : Type} (c : C) (result : DecodeJsonResult) (input : I)
    (buffer : wuffs_base__io_buffer)
    : C * DecodeJsonResult * I * wuffs_base__io_buffer :=
  (c, result, input, buffer).

Definition DecodeJson_BadJsonPointer : string :=
  "wuffs_aux::DecodeJson: bad JSON Pointer".
Definition DecodeJson_NoMatch : string := "wuffs_aux::DecodeJson: no match".

(** Modelled from the spec: the constant is defined by the generated JSON
    decoder, which is not embedded here; the refill loop hands the decoder
    an "empty work buffer", so its value is 0. *)
Definition WUFFS_JSON__DECODER_WORKBUF_LEN_MAX_INCL_WORST_CASE : Z := 0.

(** ** The refill loop: WUFFS_AUX__DECODE_JSON__GET_THE_NEXT_TOKEN *)

(** The variables of the enclosing function that the macro reads and
    writes. *)
Record Env (I D : Type) : Type := mk_env {
  tok_buf : wuffs_base__token_buffer;
  tok_status : wuffs_base__status;
  dec : D;
  io_buf : wuffs_base__io_buffer;
  io_error_message : string;
  cursor_index : Z;
  input : I
}.
Arguments mk_env {I D}.
Arguments tok_buf {I D}.
Arguments tok_status {I D}.
Arguments dec {I D}.
Arguments io_buf {I D}.
Arguments io_error_message {I D}.
Arguments cursor_index {I D}.
Arguments input {I D}.

(** What one pass through the body of the [while] does. *)
Inductive refilled (I D : Type) : Type :=
| goto_done (ret_error_message : string) (e : Env I D)
| again (e : Env I D).
Arguments goto_done {I D}.
Arguments again {I D}.

(** The outcome of the whole macro: [goto done], or the three variables
    [token], [token_ptr] and [token_len] it declares, or no outcome. *)
Inductive next_token (I D : Type) : Type :=
| Stop (ret_error_message : string) (e : Env I D)
| Tok (token : Token.t) (token_ptr token_len : Z) (e : Env I D)
| Diverges.
Arguments Stop {I D}.
Arguments Tok {I D}.
Arguments Diverges {I D}.

(** What the walker returns, next to the variables it was handed by
    reference. *)
Inductive walked (I D : Type) : Type :=
| Return (message : string) (e : Env I D)
| WalkDiverges.
Arguments Return {I D}.
Arguments WalkDiverges {I D}.

(** How the main loop of [DecodeJson] leaves for the label [done]. *)
Inductive decoded (I D C : Type) : Type :=
| Finished (ret_error_message : string) (e : Env I D) (c : C)
| DecodeDiverges.
Arguments Finished {I D C}.
Arguments DecodeDiverges {I D C}.

(** How the processing of one token in the main loop ends: [continue],
    [goto done] (from [parsed_a_value], from [fail] or directly), or not at
    all. *)
Inductive processed (C : Type) : Type :=
| next_iteration (depth : Z) (str : string) (c : C)
| goto_done_with (ret_error_message : string) (c : C)
| process_diverges.
Arguments next_iteration {C}.
Arguments goto_done_with {C}.
Arguments process_diverges {C}.

(** The variables that the label [done] of [DecodeJson] reads. *)
Record stopped (I C : Type) : Type := mk_stopped {
  stop_message : string;
  stop_io_buf : wuffs_base__io_buffer;
  stop_cursor_index : Z;
  stop_callbacks : C;
  stop_input : I
}.
Arguments mk_stopped {I C}.
Arguments stop_message {I C}.
Arguments stop_io_buf {I C}.
Arguments stop_cursor_index {I C}.
Arguments stop_callbacks {I C}.
Arguments stop_input {I C}.

Definition set_tok_buf {I D} (e : Env I D) tb : Env I D :=
  mk_env tb (tok_status e) (dec e) (io_buf e) (io_error_message e)
    (cursor_index e) (input e).
Definition set_io_buf {I D} (e : Env I D) b : Env I D :=
  mk_env (tok_buf e) (tok_status e) (dec e) b (io_error_message e)
    (cursor_index e) (input e).
Definition set_cursor_index {I D} (e : Env I D) ci : Env I D :=
  mk_env (tok_buf e) (tok_status e) (dec e) (io_buf e) (io_error_message e)
    ci (input e).
Definition set_io_error_message {I D} (e : Env I D) msg : Env I D :=
  mk_env (tok_buf e) (tok_status e) (dec e) (io_buf e) msg (cursor_index e)
    (input e).
Definition set_tok_ri (tb : wuffs_base__token_buffer) (r : Z)
    : wuffs_base__token_buffer :=
  mk_token_buffer (tok_data tb)
    (mk_io_meta (wi (tok_meta tb)) r (pos (tok_meta tb))
       (closed (tok_meta tb))).

Section Driver.
Context {I D C : Type}.
Context {bits : TokenBits} {base : Base}.
Context {inp : Input I} {jd : JsonDecoder D} {cbs : DecodeJsonCallbacks C I}.

(** The tail of the body of the [while]: the work buffer check and the call
    of the decoder. *)
Definition redecode (e : Env I D) : refilled I D :=
  if negb (WUFFS_JSON__DECODER_WORKBUF_LEN_MAX_INCL_WORST_CASE =? 0) then
    goto_done "wuffs_aux::DecodeJson: internal error: bad WORKBUF_LEN" e
  else
    let '(st, d, tb, ib) := decode_tokens (dec e) (tok_buf e) (io_buf e) in
    again (mk_env tb st d ib (io_error_message e) (cursor_index e) (input e)).

(** The body of [while (tok_buf.meta.ri >= tok_buf.meta.wi)].  The latched
    message is moved into ret_error_message, which leaves io_error_message
    empty. *)
Definition refill_body (e : Env I D) : refilled I D :=
  match tok_status e with
  | status_ok => redecode e
  | suspension__short_write =>
      redecode (set_tok_buf e (wuffs_base__token_buffer__compact (tok_buf e)))
  | suspension__short_read =>
      if negb (empty (io_error_message e)) then
        goto_done (io_error_message e) (set_io_error_message e EmptyString)
      else if negb (cursor_index e =? ri (meta (io_buf e))) then
        goto_done "wuffs_aux::DecodeJson: internal error: bad cursor_index" e
      else if closed (meta (io_buf e)) then
        goto_done "wuffs_aux::DecodeJson: internal error: io_buf is closed" e
      else
        let b := wuffs_base__io_buffer__compact (io_buf e) in
        if wi (meta b) >=? data_len b then
          goto_done "wuffs_aux::DecodeJson: internal error: io_buf is full"
            (set_io_buf e b)
        else
          let '(msg, i', b') := CopyIn (input e) b in
          redecode (mk_env (tok_buf e) (tok_status e) (dec e) b' msg
                      (ri (meta b)) i')
  | status_other _ _ =>
      goto_done (status_message (tok_status e)) e
  end.

(** The [while] loop itself. [None]: the fuel ran out. *)
Fixpoint refill (fuel : nat) (e : Env I D) : option (refilled I D) :=
  if ri (tok_meta (tok_buf e)) >=? wi (tok_meta (tok_buf e)) then
    match fuel with
    | O => None
    | S fuel' =>
        match refill_body e with
        | goto_done msg e' => Some (goto_done msg e')
        | again e' => refill fuel' e'
        end
    end
  else Some (again e).

(** The part of the macro after the [while]: take the token at
    [tok_buf.meta.ri++] and move the cursor over its bytes. *)
Definition take_token (e : Env I D) : next_token I D :=
  let tb := tok_buf e in
  let token := nth (Z.to_nat (ri (tok_meta tb))) (tok_data tb) Token.zero in
  let e1 := set_tok_buf e (set_tok_ri tb (u64 (ri (tok_meta tb) + 1))) in
  let token_len := Token.length token in
  if (ri (meta (io_buf e1)) <? cursor_index e1)
     || (u64 (ri (meta (io_buf e1)) - cursor_index e1) <? token_len) then
    Stop "wuffs_aux::DecodeJson: internal error: bad token indexes" e1
  else
    let token_ptr := cursor_index e1 in
    Tok token token_ptr token_len
      (set_cursor_index e1 (u64 (cursor_index e1 + token_len))).

Definition GET_THE_NEXT_TOKEN (fuel : nat) (e : Env I D) : next_token I D :=
  match refill fuel e with
  | None => Diverges
  | Some (goto_done msg e') => Stop msg e'
  | Some (again e') => take_token e'
  end.

(** ** JSON Pointer fragments *)

(** [s[i]] *)
Definition char_at (s : string) (i : nat) : ascii :=
  match String.get i s with
  | Some c => c
  | None => zero
  end.

Definition push_back (s : string) (c : ascii) : string :=
  (s ++ String c EmptyString)%string.

(** The [while (i < s.size())] loop of [DecodeJson_SplitJsonPointer].  Every
    pass moves [i] forward, so [s.size()] passes are enough. *)
Fixpoint SplitJsonPointer_loop (passes : nat) (s fragment : string) (i : nat)
    : string * nat :=
  match passes with
  | O => (fragment, i)
  | S passes' =>
      if (i <? String.length s)%nat then
        let c := char_at s i in
        if (c =? "/")%char then (fragment, i)
        else if negb (c =? "~")%char then
          SplitJsonPointer_loop passes' s (push_back fragment c) (i + 1)%nat
        else
          let i := (i + 1)%nat in
          if (String.length s <=? i)%nat then (EmptyString, O)
          else
            let c := char_at s i in
            if (c =? "0")%char then
              SplitJsonPointer_loop passes' s (push_back fragment "~")
                (i + 1)%nat
            else if (c =? "1")%char then
              SplitJsonPointer_loop passes' s (push_back fragment "/")
                (i + 1)%nat
            else (EmptyString, O)
      else (fragment, i)
  end.

(** [DecodeJson_SplitJsonPointer] returns ("bar", 8) for
    ("/foo/bar/baz/qux", 5).  It returns a 0 index when [s] has invalid JSON
    Pointer syntax. *)
Definition DecodeJson_SplitJsonPointer (s : string) (i : nat) : string * nat :=
  SplitJsonPointer_loop (String.length s) s EmptyString i.

(** ** String assembly *)

(** [wuffs_base__make_slice_u8(io_buf->data.ptr + token_ptr, token_len)] *)
Definition token_bytes (b : wuffs_base__io_buffer) (token_ptr token_len : Z)
    : list byte :=
  firstn (Z.to_nat token_len) (skipn (Z.to_nat token_ptr) (data b)).

(** [str.append(ptr, n)] *)
Definition append (str : string) (bytes : list byte) : string :=
  (str ++ string_of_list_byte bytes)%string.

(** [DecodeJson_DecodeBackslashX]: the returned message and [str]; [None]
    when the fuel ran out. *)
Fixpoint DecodeJson_DecodeBackslashX (fuel : nat) (str : string)
    (encoded : list byte) : option (string * string) :=
  if Z.of_nat (List.length encoded) >? 0 then
    match fuel with
    | O => None
    | S fuel' =>
        let '(o, decoded) := wuffs_base__base_16__decode4 64 encoded true in
        if is_error (status o) then Some (status_message (status o), str)
        else if (num_dst o >? 64)
                || (num_src o >? Z.of_nat (List.length encoded)) then
          Some ("wuffs_aux::DecodeJson: internal error: inconsistent base16 decoding",
                str)
        else
          DecodeJson_DecodeBackslashX fuel'
            (append str (firstn (Z.to_nat (num_dst o)) decoded))
            (skipn (Z.to_nat (num_src o)) encoded)
    end
  else Some (EmptyString, str).

(** What a pass over a [VBC__STRING] or [VBC__UNICODE_CODE_POINT] token does
    to the string being assembled; both the walker and the main loop have
    this code. *)
Inductive assembled : Type :=
| asm_ok (str : string)
| asm_done (ret_error_message : string) (str : string)
| asm_fail
| asm_diverges.

Definition assemble_string_token (fuel : nat) (b : wuffs_base__io_buffer)
    (vbd token_ptr token_len : Z) (str : string) : assembled :=
  if has_bit vbd VBD__STRING__CONVERT_0_DST_1_SRC_DROP then
    asm_ok str
  else if has_bit vbd VBD__STRING__CONVERT_1_DST_1_SRC_COPY then
    asm_ok (append str (token_bytes b token_ptr token_len))
  else if has_bit vbd VBD__STRING__CONVERT_1_DST_4_SRC_BACKSLASH_X then
    match DecodeJson_DecodeBackslashX fuel str
            (token_bytes b token_ptr token_len) with
    | None => asm_diverges
    | Some (msg, str') =>
        if negb (empty msg) then asm_done msg str' else asm_ok str'
    end
  else asm_fail.

Definition assemble_code_point (vbd : Z) (str : string) : string :=
  append str
    (wuffs_base__utf_8__encode WUFFS_BASE__UTF_8__BYTE_LENGTH__MAX_INCL
       (u32 vbd)).

(** ** The walker: DecodeJson_WalkJsonPointerFragment *)

Definition fail_message : string :=
  "wuffs_aux::DecodeJson: internal error: unexpected token".

(** Undo the last part of the macro, so that the token is only peeked at:
    [tok_buf.meta.ri--; cursor_index -= token_len]. *)
Definition unget (e : Env I D) (token_len : Z) : Env I D :=
  set_cursor_index
    (set_tok_buf e (set_tok_ri (tok_buf e) (u64 (ri (tok_meta (tok_buf e)) - 1))))
    (u64 (cursor_index e - token_len)).

(** The label [check_that_a_value_follows]. *)
Fixpoint check_that_a_value_follows (fuel : nat) (e : Env I D) : walked I D :=
  match fuel with
  | O => WalkDiverges
  | S fuel' =>
      match GET_THE_NEXT_TOKEN fuel' e with
      | Diverges => WalkDiverges
      | Stop msg e' => Return msg e'
      | Tok token token_ptr token_len e' =>
          let vbc := Token.value_base_category token in
          let vbd := Token.value_base_detail token in
          if vbc =? VBC__FILLER then check_that_a_value_follows fuel' e'
          else
            let e'' := unget e' token_len in
            if (vbc =? VBC__STRUCTURE) && has_bit vbd VBD__STRUCTURE__POP
            then Return DecodeJson_NoMatch e''
            else Return EmptyString e''
      end
  end.

(** The [for (uint32_t skip_depth = 0; true;)] loop of [do_list]. *)
Fixpoint do_list_skip (fuel : nat) (e : Env I D) (skip_depth remaining : Z)
    : walked I D :=
  match fuel with
  | O => WalkDiverges
  | S fuel' =>
      match GET_THE_NEXT_TOKEN fuel' e with
      | Diverges => WalkDiverges
      | Stop msg e' => Return msg e'
      | Tok token token_ptr token_len e' =>
          let vbc := Token.value_base_category token in
          let vbd := Token.value_base_detail token in
          let counted (skip_depth : Z) : walked I D :=
            if skip_depth >? 0 then do_list_skip fuel' e' skip_depth remaining
            else
              let remaining := u64 (remaining - 1) in
              if remaining =? 0 then check_that_a_value_follows fuel' e'
              else do_list_skip fuel' e' skip_depth remaining
          in
          if Token.continued token || (vbc =? VBC__FILLER) then
            do_list_skip fuel' e' skip_depth remaining
          else if vbc =? VBC__STRUCTURE then
            if has_bit vbd VBD__STRUCTURE__PUSH then
              do_list_skip fuel' e' (u32 (skip_depth + 1)) remaining
            else if skip_depth =? 0 then Return DecodeJson_NoMatch e'
            else counted (u32 (skip_depth - 1))
          else counted skip_depth
      end
  end.

(** The label [do_list]. *)
Definition do_list (fuel : nat) (e : Env I D) (json_pointer_fragment : string)
    : walked I D :=
  let '(st, value) :=
    wuffs_base__parse_number_u64 (list_byte_of_string json_pointer_fragment) in
  if negb (is_ok st) then Return DecodeJson_NoMatch e
  else
    let remaining := value in
    if remaining =? 0 then check_that_a_value_follows fuel e
    else do_list_skip fuel e 0 remaining.

(** Where the loop of [do_list] stands after a token that may have
    completed a value. *)
Definition counted (fuel : nat) (e : Env I D) (skip_depth remaining : Z)
    : walked I D :=
  if skip_depth >? 0 then do_list_skip fuel e skip_depth remaining
  else if u64 (remaining - 1) =? 0 then check_that_a_value_follows fuel e
       else do_list_skip fuel e skip_depth (u64 (remaining - 1)).

(** The label [do_dict]: [do_dict_key] is the [for (std::string str; true;)]
    loop that decodes the next dict key, [skip_the_next_dict_value] the loop
    under the label of that name; the outer [while (true)] alternates
    between them. *)
Fixpoint do_dict_key (fuel : nat) (e : Env I D) (str : string)
    (json_pointer_fragment : string) {struct fuel} : walked I D :=
  match fuel with
  | O => WalkDiverges
  | S fuel' =>
      match GET_THE_NEXT_TOKEN fuel' e with
      | Diverges => WalkDiverges
      | Stop msg e' => Return msg e'
      | Tok token token_ptr token_len e' =>
          let vbc := Token.value_base_category token in
          let vbd := Token.value_base_detail token in
          let after_switch (str : string) : walked I D :=
            if Token.continued token then
              do_dict_key fuel' e' str json_pointer_fragment
            else if (str =? json_pointer_fragment)%string then
              Return EmptyString e'
            else skip_the_next_dict_value fuel' e' 0 json_pointer_fragment
          in
          if vbc =? VBC__FILLER then
            do_dict_key fuel' e' str json_pointer_fragment
          else if vbc =? VBC__STRUCTURE then
            if has_bit vbd VBD__STRUCTURE__PUSH then Return fail_message e'
            else Return DecodeJson_NoMatch e'
          else if vbc =? VBC__STRING then
            match assemble_string_token fuel' (io_buf e') vbd token_ptr
                    token_len str with
            | asm_ok str' => after_switch str'
            | asm_done msg _ => Return msg e'
            | asm_fail => Return fail_message e'
            | asm_diverges => WalkDiverges
            end
          else if vbc =? VBC__UNICODE_CODE_POINT then
            after_switch (assemble_code_point vbd str)
          else Return fail_message e'
      end
  end
with skip_the_next_dict_value (fuel : nat) (e : Env I D) (skip_depth : Z)
    (json_pointer_fragment : string) {struct fuel} : walked I D :=
  match fuel with
  | O => WalkDiverges
  | S fuel' =>
      match GET_THE_NEXT_TOKEN fuel' e with
      | Diverges => WalkDiverges
      | Stop msg e' => Return msg e'
      | Tok token token_ptr token_len e' =>
          let vbc := Token.value_base_category token in
          let vbd := Token.value_base_detail token in
          let skipped (skip_depth : Z) : walked I D :=
            if skip_depth =? 0 then
              do_dict_key fuel' e' EmptyString json_pointer_fragment
            else skip_the_next_dict_value fuel' e' skip_depth
                   json_pointer_fragment
          in
          if Token.continued token || (vbc =? VBC__FILLER) then
            skip_the_next_dict_value fuel' e' skip_depth json_pointer_fragment
          else if vbc =? VBC__STRUCTURE then
            if has_bit vbd VBD__STRUCTURE__PUSH then
              skip_the_next_dict_value fuel' e' (u32 (skip_depth + 1))
                json_pointer_fragment
            else skipped (u32 (skip_depth - 1))
          else skipped skip_depth
      end
  end.

Definition do_dict (fuel : nat) (e : Env I D) (json_pointer_fragment : string)
    : walked I D :=
  do_dict_key fuel e EmptyString json_pointer_fragment.

(** The first [while (true)] of the walker, up to the two [goto]s. *)
Fixpoint DecodeJson_WalkJsonPointerFragment (fuel : nat) (e : Env I D)
    (json_pointer_fragment : string) : walked I D :=
  match fuel with
  | O => WalkDiverges
  | S fuel' =>
      match GET_THE_NEXT_TOKEN fuel' e with
      | Diverges => WalkDiverges
      | Stop msg e' => Return msg e'
      | Tok token token_ptr token_len e' =>
          let vbc := Token.value_base_category token in
          let vbd := Token.value_base_detail token in
          if vbc =? VBC__FILLER then
            DecodeJson_WalkJsonPointerFragment fuel' e' json_pointer_fragment
          else if negb (vbc =? VBC__STRUCTURE)
                  || negb (has_bit vbd VBD__STRUCTURE__PUSH) then
            Return DecodeJson_NoMatch e'
          else if has_bit vbd VBD__STRUCTURE__TO_LIST then
            do_list fuel' e' json_pointer_fragment
          else do_dict fuel' e' json_pointer_fragment
      end
  end.

(** ** DecodeJson *)

(** The [VBC__NUMBER] case of the main loop: the callback result it takes
    to [parsed_a_value], or [None] for [goto fail]. *)
Definition number_token (c : C) (b : wuffs_base__io_buffer)
    (vbd token_ptr token_len : Z) : option (string * C) :=
  let after_i64 : option (string * C) :=
    if has_bit vbd VBD__NUMBER__CONTENT_FLOATING_POINT then
      let '(st, value) :=
        wuffs_base__parse_number_f64 (token_bytes b token_ptr token_len) in
      if is_ok st then Some (AppendF64 c value) else None
    else None
  in
  if has_bit vbd VBD__NUMBER__FORMAT_TEXT then
    if has_bit vbd VBD__NUMBER__CONTENT_INTEGER_SIGNED then
      let '(st, value) :=
        wuffs_base__parse_number_i64 (token_bytes b token_ptr token_len) in
      if is_ok st then Some (AppendI64 c value) else after_i64
    else after_i64
  else if has_bit vbd VBD__NUMBER__CONTENT_NEG_INF then
    Some (AppendF64 c
            (wuffs_base__ieee_754_bit_representation__from_u64_to_f64
               0xFFF0000000000000))
  else if has_bit vbd VBD__NUMBER__CONTENT_POS_INF then
    Some (AppendF64 c
            (wuffs_base__ieee_754_bit_representation__from_u64_to_f64
               0x7FF0000000000000))
  else if has_bit vbd VBD__NUMBER__CONTENT_NEG_NAN then
    Some (AppendF64 c
            (wuffs_base__ieee_754_bit_representation__from_u64_to_f64
               0xFFFFFFFFFFFFFFFF))
  else if has_bit vbd VBD__NUMBER__CONTENT_POS_NAN then
    Some (AppendF64 c
            (wuffs_base__ieee_754_bit_representation__from_u64_to_f64
               0x7FFFFFFFFFFFFFFF))
  else None.

(** The label [parsed_a_value]. *)
Definition parsed_a_value (r : string * C) (depth : Z) (str : string)
    : processed C :=
  let '(ret_error_message, c') := r in
  if negb (empty ret_error_message) || (depth =? 0) then
    goto_done_with ret_error_message c'
  else next_iteration depth str c'.

(** "2. Process that token": the body of the main loop below the macro,
    with the locals [depth] and [str] and the callbacks object. *)
Definition process_token (fuel : nat) (b : wuffs_base__io_buffer)
    (token : Token.t) (token_ptr token_len : Z)
    (depth : Z) (str : string) (c : C) : processed C :=
  let vbc := Token.value_base_category token in
  let vbd := Token.value_base_detail token in
  if vbc =? VBC__FILLER then next_iteration depth str c
  else if vbc =? VBC__STRUCTURE then
    if has_bit vbd VBD__STRUCTURE__PUSH then
      let '(ret_error_message, c') := Push c (u32 vbd) in
      if negb (empty ret_error_message) then
        goto_done_with ret_error_message c'
      else next_iteration (u32 (depth + 1)) str c'
    else parsed_a_value (Pop c (u32 vbd)) (u32 (depth - 1)) str
  else if vbc =? VBC__STRING then
    match assemble_string_token fuel b vbd token_ptr token_len str with
    | asm_ok str' =>
        if Token.continued token then next_iteration depth str' c
        else
          parsed_a_value
            (if has_bit vbd VBD__STRING__CHAIN_MUST_BE_UTF_8
             then AppendTextString c str'
             else AppendByteString c str')
            depth EmptyString
    | asm_done msg _ => goto_done_with msg c
    | asm_fail => goto_done_with fail_message c
    | asm_diverges => process_diverges
    end
  else if vbc =? VBC__UNICODE_CODE_POINT then
    if Token.continued token then
      next_iteration depth (assemble_code_point vbd str) c
    else goto_done_with fail_message c
  else if vbc =? VBC__LITERAL then
    parsed_a_value
      (if has_bit vbd VBD__LITERAL__NULL then AppendNull c
       else AppendBool c (has_bit vbd VBD__LITERAL__TRUE))
      depth str
  else if vbc =? VBC__NUMBER then
    match number_token c b vbd token_ptr token_len with
    | Some r => parsed_a_value r depth str
    | None => goto_done_with fail_message c
    end
  else goto_done_with fail_message c.

(** The loop "1. Get the next token. 2. Process that token." *)
Fixpoint main_loop (fuel : nat) (e : Env I D) (depth : Z) (str : string)
    (c : C) : decoded I D C :=
  match fuel with
  | O => DecodeDiverges
  | S fuel' =>
      match GET_THE_NEXT_TOKEN fuel' e with
      | Diverges => DecodeDiverges
      | Stop msg e' => Finished msg e' c
      | Tok token token_ptr token_len e' =>
          match process_token fuel' (io_buf e') token token_ptr token_len
                  depth str c with
          | next_iteration depth' str' c' => main_loop fuel' e' depth' str' c'
          | goto_done_with msg c' => Finished msg e' c'
          | process_diverges => DecodeDiverges
          end
      end
  end.

(** "Walk the (optional) JSON Pointer": the [for (size_t i = 0; ...;)]
    loop, from index [i]. *)
Fixpoint walk_json_pointer (fuel : nat) (e : Env I D) (json_pointer : string)
    (i : nat) : walked I D :=
  match fuel with
  | O => WalkDiverges
  | S fuel' =>
      if (i <? String.length json_pointer)%nat then
        if negb (char_at json_pointer i =? "/")%char then
          Return DecodeJson_BadJsonPointer e
        else
          let split := DecodeJson_SplitJsonPointer json_pointer (i + 1) in
          let i := snd split in
          if (i =? 0)%nat then Return DecodeJson_BadJsonPointer e
          else
            match DecodeJson_WalkJsonPointerFragment fuel' e (fst split) with
            | WalkDiverges => WalkDiverges
            | Return msg e' =>
                if negb (empty msg) then Return msg e'
                else walk_json_pointer fuel' e' json_pointer i
            end
      else Return EmptyString e
  end.

(** Modelled from the spec: "else allocate a 4096-byte fallback";
    [wuffs_base__ptr_u8__writer], which wraps the array into an empty
    buffer, is defined in base, not embedded here. *)
Definition fallback_io_buf : wuffs_base__io_buffer :=
  mk_io_buffer (repeat x00 4096) (mk_io_meta 0 0 0 false).

(** Modelled from the spec: "Allocate a 256-token TokenWindow";
    [wuffs_base__slice_token__writer] is defined in base, not embedded
    here. *)
Definition initial_tok_buf : wuffs_base__token_buffer :=
  mk_token_buffer (repeat Token.zero 256) (mk_io_meta 0 0 0 false).

(** The body of [DecodeJson] down to the label [done]: the error message
    and the state it arrives there with; [None] when the fuel ran out. *)
Definition decode (fuel : nat) (callbacks : C) (input0 : I)
    (quirks : list Z) (json_pointer : string) : option (stopped I C) :=
  let b :=
    match BringsItsOwnIOBuffer input0 with
    | Some b => b
    | None => fallback_io_buf
    end in
  match alloc with
  | None =>
      Some (mk_stopped "wuffs_aux::DecodeJson: out of memory" b 0 callbacks
              input0)
  | Some d =>
      let d := fold_left (fun d q => set_quirk_enabled d q true) quirks d in
      let e := mk_env initial_tok_buf status_ok d b EmptyString 0 input0 in
      match walk_json_pointer fuel e json_pointer 0 with
      | WalkDiverges => None
      | Return msg e' =>
          if negb (empty msg) then
            Some (mk_stopped msg (io_buf e') (cursor_index e') callbacks
                    (input e'))
          else
            match main_loop fuel e' 0 EmptyString callbacks with
            | DecodeDiverges => None
            | Finished msg e'' c' =>
                Some (mk_stopped msg (io_buf e'') (cursor_index e'') c'
                        (input e''))
            end
      end
  end.

(** The result assembled at the label [done]. *)
Definition assembled_result (s : stopped I C) : DecodeJsonResult :=
  mk_result (stop_message s)
    (wuffs_base__u64__sat_add (pos (meta (stop_io_buf s)))
       (stop_cursor_index s)).

(** The label [done]: assemble the result, hand it to [Done] by reference
    and return it.  The model returns what [Done] left of its arguments and
    of the callbacks object; the C++ return value is the [DecodeJsonResult]
    among them. *)
Definition done (s : stopped I C)
    : C * DecodeJsonResult * I * wuffs_base__io_buffer :=
  Done (stop_callbacks s) (assembled_result s) (stop_input s) (stop_io_buf s).

Definition DecodeJson (fuel : nat) (callbacks : C) (input0 : I)
    (quirks : list Z) (json_pointer : string)
    : option (C * DecodeJsonResult * I * wuffs_base__io_buffer) :=
  match decode fuel callbacks input0 quirks json_pointer with
  | Some s => Some (done s)
  | None => None
  end.

(** The value [DecodeJson] returns to its caller. *)
Definition returned
    (r : option (C * DecodeJsonResult * I * wuffs_base__io_buffer))
    : option DecodeJsonResult :=
  match r with
  | Some (_, result, _, _) => Some result
  | None => None
  end.

(** What [Done] leaves in the result it was handed. *)
Definition result_of
    (r : C * DecodeJsonResult * I * wuffs_base__io_buffer)
    : DecodeJsonResult :=
  let '(_, result, _, _) := r in result.

End Driver.

(** ** JSON Pointer syntax, as the specification words it *)

Module PointerSpec.

(** "Each fragment is the substring between [/] characters": the text up to
    the next [/] or the end. *)
Fixpoint segment (s : string) : string :=
  match s with
  | EmptyString => EmptyString
  | String c rest =>
      if (c =? "/")%char then EmptyString else String c (segment rest)
  end.

(** The text cut at every [/]. *)
Fixpoint split_on_slash (s : string) : list string :=
  match s with
  | EmptyString => [EmptyString]
  | String c rest =>
      if (c =? "/")%char then EmptyString :: split_on_slash rest
      else
        match split_on_slash rest with
        | first :: others => String c first :: others
        | [] => [String c EmptyString]
        end
  end.

(** "A JSON Pointer is a possibly-empty sequence of [/]-prefixed
    fragments": its fragments, still escaped, or [None] when it does not
    begin with [/]. *)
Definition raw_fragments (json_pointer : string) : option (list string) :=
  match json_pointer with
  | EmptyString => Some []
  | String c rest =>
      if (c =? "/")%char then Some (split_on_slash rest) else None
  end.

Definition zero_or_one_first (s : string) : bool :=
  match s with
  | String c _ => (c =? "0")%char || (c =? "1")%char
  | EmptyString => false
  end.

(** "A lone [~] at end of input, or [~] followed by any other byte". *)
Fixpoint bad_tilde (fragment : string) : bool :=
  match fragment with
  | EmptyString => false
  | String c rest =>
      ((c =? "~")%char && negb (zero_or_one_first rest)) || bad_tilde rest
  end.

(** "[~0] to [~], [~1] to [/]". *)
Fixpoint unescape (fragment : string) : string :=
  match fragment with
  | EmptyString => EmptyString
  | String c rest =>
      if (c =? "~")%char then
        match rest with
        | String c' rest' =>
            if (c' =? "0")%char then String "~" (unescape rest')
            else if (c' =? "1")%char then String "/" (unescape rest')
            else String c (unescape rest)
        | EmptyString => String c EmptyString
        end
      else String c (unescape rest)
  end.

(** The text of [s] from index [i] on. *)
Fixpoint drop (i : nat) (s : string) : string :=
  match i, s with
  | O, _ => s
  | S i', String _ rest => drop i' rest
  | S _, EmptyString => EmptyString
  end.

End PointerSpec.

Section PointerWalkSpec.
Context {I D : Type}.
Context {bits : TokenBits} {base : Base}.
Context {inp : Input I} {jd : JsonDecoder D}.

(** The walk along a pointer as the specification words it: fragment after
    fragment, each checked for its escapes when its turn comes, unescaped
    and handed to the walker; the first message ends the walk. *)
Fixpoint walk_raw_fragments (fuel : nat) (e : Env I D) (raw : list string)
    : walked I D :=
  match fuel with
  | O => WalkDiverges
  | S fuel' =>
      match raw with
      | [] => Return EmptyString e
      | fragment :: others =>
          if PointerSpec.bad_tilde fragment then
            Return DecodeJson_BadJsonPointer e
          else
            match DecodeJson_WalkJsonPointerFragment fuel' e
                    (PointerSpec.unescape fragment) with
            | WalkDiverges => WalkDiverges
            | Return msg e' =>
                if negb (empty msg) then Return msg e'
                else walk_raw_fragments fuel' e' others
            end
      end
  end.

End PointerWalkSpec.

(** The escaping that [DecodeJson_SplitJsonPointer] undoes: [~] is written
    [~0] and [/] is written [~1].  json.cc has no encoder; this one states
    the round trip. *)
Fixpoint escape (fragment : string) : string :=
  match fragment with
  | EmptyString => EmptyString
  | String c rest =>
      if (c =? "~")%char then String "~" (String "0" (escape rest))
      else if (c =? "/")%char then String "~" (String "1" (escape rest))
      else String c (escape rest)
  end.

(** The JSON Pointer that names the fragments in turn: each escaped and
    put after a [/]. *)
Fixpoint pointer_to (fragments : list string) : string :=
  match fragments with
  | [] => EmptyString
  | fragment :: others =>
      String "/" (escape fragment ++ pointer_to others)
  end.

Section FragmentWalk.
Context {I D : Type}.
Context {bits : TokenBits} {base : Base}.
Context {inp : Input I} {jd : JsonDecoder D}.

(** Fragment after fragment handed to the walker, as they are; the first
    message ends the walk. *)
Fixpoint walk_fragments (fuel : nat) (e : Env I D) (fragments : list string)
    : walked I D :=
  match fuel with
  | O => WalkDiverges
  | S fuel' =>
      match fragments with
      | [] => Return EmptyString e
      | fragment :: others =>
          match DecodeJson_WalkJsonPointerFragment fuel' e fragment with
          | WalkDiverges => WalkDiverges
          | Return msg e' =>
              if negb (empty msg) then Return msg e'
              else walk_fragments fuel' e' others
          end
      end
  end.

End FragmentWalk.

(** ** Token streams *)

(** [run] gives [r] with every fuel from some amount on. *)
Definition eventually {A : Type} (run : nat -> A) (r : A) : Prop :=
  exists F : nat, forall fuel : nat, (F <= fuel)%nat -> run fuel = r.

Section Streams.
Context {I D : Type}.
Context {bits : TokenBits} {base : Base}.
Context {inp : Input I} {jd : JsonDecoder D}.

(** The macro, given fuel enough, takes [token] out of [e] and leaves
    [e']. *)
Definition takes (e : Env I D) (token : Token.t) (token_ptr token_len : Z)
    (e' : Env I D) : Prop :=
  eventually (fun fuel => GET_THE_NEXT_TOKEN fuel e)
    (Tok token token_ptr token_len e').

(** String assembly as the specification words it: what a token of a
    string run makes of the accumulator [str].  DROP discards the source
    bytes, COPY appends them, BACKSLASH_X appends their base-16 decoding,
    and a UnicodeCodePoint appends the UTF-8 of its detail.  The flags are
    looked at in this order. *)
Inductive contributes (b : wuffs_base__io_buffer) (token : Token.t)
    (token_ptr token_len : Z) (str : string) : string -> Prop :=
| contributes_drop :
    Token.value_base_category token = VBC__STRING ->
    has_bit (Token.value_base_detail token)
      VBD__STRING__CONVERT_0_DST_1_SRC_DROP = true ->
    contributes b token token_ptr token_len str str
| contributes_copy :
    Token.value_base_category token = VBC__STRING ->
    has_bit (Token.value_base_detail token)
      VBD__STRING__CONVERT_0_DST_1_SRC_DROP = false ->
    has_bit (Token.value_base_detail token)
      VBD__STRING__CONVERT_1_DST_1_SRC_COPY = true ->
    contributes b token token_ptr token_len str
      (str ++ string_of_list_byte (token_bytes b token_ptr token_len))%string
| contributes_backslash_x (decoded : string) :
    Token.value_base_category token = VBC__STRING ->
    has_bit (Token.value_base_detail token)
      VBD__STRING__CONVERT_0_DST_1_SRC_DROP = false ->
    has_bit (Token.value_base_detail token)
      VBD__STRING__CONVERT_1_DST_1_SRC_COPY = false ->
    has_bit (Token.value_base_detail token)
      VBD__STRING__CONVERT_1_DST_4_SRC_BACKSLASH_X = true ->
    eventually
      (fun fuel =>
         DecodeJson_DecodeBackslashX fuel EmptyString
           (token_bytes b token_ptr token_len))
      (Some (EmptyString, decoded)) ->
    contributes b token token_ptr token_len str (str ++ decoded)%string
| contributes_code_point :
    Token.value_base_category token = VBC__UNICODE_CODE_POINT ->
    contributes b token token_ptr token_len str
      (str ++ string_of_list_byte
                (wuffs_base__utf_8__encode 4
                   (u32 (Token.value_base_detail token))))%string.

(** A run of [continued] tokens of a string, from [e] with the accumulator
    [str] to [e'] with [str']. *)
Inductive string_run : Env I D -> string -> Env I D -> string -> Prop :=
| string_run_nil (e : Env I D) (str : string) : string_run e str e str
| string_run_cons (e : Env I D) (str : string) (token : Token.t)
    (token_ptr token_len : Z) (e1 : Env I D) (str1 : string)
    (e' : Env I D) (str' : string) :
    takes e token token_ptr token_len e1 ->
    Token.continued token = true ->
    contributes (io_buf e1) token token_ptr token_len str str1 ->
    string_run e1 str1 e' str' ->
    string_run e str e' str'
| string_run_filler (e : Env I D) (str : string) (token : Token.t)
    (token_ptr token_len : Z) (e1 : Env I D) (e' : Env I D) (str' : string) :
    takes e token token_ptr token_len e1 ->
    Token.value_base_category token = VBC__FILLER ->
    string_run e1 str e' str' ->
    string_run e str e' str'.

(** A run of Filler tokens. *)
Inductive filler_run : Env I D -> Env I D -> Prop :=
| filler_run_nil (e : Env I D) : filler_run e e
| filler_run_cons (e : Env I D) (token : Token.t) (token_ptr token_len : Z)
    (e1 e' : Env I D) :
    takes e token token_ptr token_len e1 ->
    Token.value_base_category token = VBC__FILLER ->
    filler_run e1 e' ->
    filler_run e e'.

(** The tokens that the skipping loops pass over without counting. *)
Definition skippable (token : Token.t) : Prop :=
  Token.continued token = true
  \/ Token.value_base_category token = VBC__FILLER.

Definition opens (token : Token.t) : Prop :=
  Token.continued token = false
  /\ Token.value_base_category token = VBC__STRUCTURE
  /\ has_bit (Token.value_base_detail token) VBD__STRUCTURE__PUSH = true.

Definition closes (token : Token.t) : Prop :=
  Token.continued token = false
  /\ Token.value_base_category token = VBC__STRUCTURE
  /\ has_bit (Token.value_base_detail token) VBD__STRUCTURE__PUSH = false.

(** One complete value, nested no deeper than [height]: a last token of a
    string, literal or number, or whatever stands between a Structure token
    with PUSH and the Structure token without PUSH that closes it. *)
Inductive value : nat -> Env I D -> Env I D -> Prop :=
| value_atom (height : nat) (e : Env I D) (token : Token.t)
    (token_ptr token_len : Z) (e' : Env I D) :
    takes e token token_ptr token_len e' ->
    Token.continued token = false ->
    Token.value_base_category token <> VBC__FILLER ->
    Token.value_base_category token <> VBC__STRUCTURE ->
    value height e e'
| value_container (height : nat) (e : Env I D) (token : Token.t)
    (token_ptr token_len : Z) (e1 e2 : Env I D) (token' : Token.t)
    (token_ptr' token_len' : Z) (e' : Env I D) :
    takes e token token_ptr token_len e1 ->
    opens token ->
    items height e1 e2 ->
    takes e2 token' token_ptr' token_len' e' ->
    closes token' ->
    value (S height) e e'
with items : nat -> Env I D -> Env I D -> Prop :=
| items_nil (height : nat) (e : Env I D) : items height e e
| items_skip (height : nat) (e : Env I D) (token : Token.t)
    (token_ptr token_len : Z) (e1 e' : Env I D) :
    takes e token token_ptr token_len e1 ->
    skippable token ->
    items height e1 e' ->
    items height e e'
| items_value (height : nat) (e e1 e' : Env I D) :
    value height e e1 ->
    items height e1 e' ->
    items height e e'.

(** [n] complete values in a row, each with the tokens passed over before
    it. *)
Inductive values (height : nat) : nat -> Env I D -> Env I D -> Prop :=
| values_nil (e : Env I D) : values height O e e
| values_skip (n : nat) (e : Env I D) (token : Token.t)
    (token_ptr token_len : Z) (e1 e' : Env I D) :
    takes e token token_ptr token_len e1 ->
    skippable token ->
    values height (S n) e1 e' ->
    values height (S n) e e'
| values_cons (n : nat) (e e1 e' : Env I D) :
    value height e e1 ->
    values height n e1 e' ->
    values height (S n) e e'.

(** Tokens passed over. *)
Inductive skipped : Env I D -> Env I D -> Prop :=
| skipped_nil (e : Env I D) : skipped e e
| skipped_cons (e : Env I D) (token : Token.t) (token_ptr token_len : Z)
    (e1 e' : Env I D) :
    takes e token token_ptr token_len e1 ->
    skippable token ->
    skipped e1 e' ->
    skipped e e'.

End Streams.

Scheme value_items_ind := Minimality for value Sort Prop
  with items_value_ind := Minimality for items Sort Prop.

Combined Scheme value_items_mutind from value_items_ind, items_value_ind.

(** ** Dicts as token streams *)

Section DictStreams.
Context {I D : Type}.
Context {bits : TokenBits} {base : Base}.
Context {inp : Input I} {jd : JsonDecoder D}.

(** A complete dict key: a run of continued tokens and the token that
    closes it, read from [e] into the string [str], to [e']. *)
Inductive dict_key : Env I D -> string -> Env I D -> Prop :=
| dict_key_intro (e e1 : Env I D) (str1 : string) (token : Token.t)
    (token_ptr token_len : Z) (e' : Env I D) (str : string) :
    string_run e EmptyString e1 str1 ->
    takes e1 token token_ptr token_len e' ->
    Token.continued token = false ->
    contributes (io_buf e') token token_ptr token_len str1 str ->
    dict_key e str e'.

(** Entries of a dict whose keys all differ from [fragment]: each a key
    and, after the tokens passed over, one complete value nested no deeper
    than [height]. *)
Inductive other_entries (height : nat) (fragment : string)
    : Env I D -> Env I D -> Prop :=
| other_entries_nil (e : Env I D) : other_entries height fragment e e
| other_entries_cons (e : Env I D) (str : string) (e1 e2 e' : Env I D) :
    dict_key e str e1 ->
    str <> fragment ->
    values height 1 e1 e2 ->
    other_entries height fragment e2 e' ->
    other_entries height fragment e e'.

(** Where the walker stands after a token that may have completed the
    value it skips: at the next key when skip_depth is 0, else still in
    the loop under [skip_the_next_dict_value]. *)
Definition skipped_a_value (fuel : nat) (e : Env I D) (skip_depth : Z)
    (json_pointer_fragment : string) : walked I D :=
  if skip_depth =? 0 then do_dict_key fuel e EmptyString json_pointer_fragment
  else skip_the_next_dict_value fuel e skip_depth json_pointer_fragment.

End DictStreams.

(** ** Valid states and well-behaved collaborators *)

(** The invariants of a token buffer are those of an io_buffer; the length
    of a token is an unsigned field. *)
Definition token_buffer_ok (tb : wuffs_base__token_buffer) : Prop :=
  0 <= ri (tok_meta tb) <= wi (tok_meta tb)
  /\ wi (tok_meta tb) <= Z.of_nat (List.length (tok_data tb))
  /\ Z.of_nat (List.length (tok_data tb)) <= u64_max
  /\ Forall (fun t => 0 <= Token.length t) (tok_data tb).

Definition env_ok {I D : Type} (e : Env I D) : Prop :=
  io_buffer_ok (io_buf e) /\ token_buffer_ok (tok_buf e)
  /\ 0 <= cursor_index e.

(** The stream position of the cursor, as [DecodeJson] reports it. *)
Definition position_of {I D : Type} (e : Env I D) : Z :=
  wuffs_base__u64__sat_add (pos (meta (io_buf e))) (cursor_index e).

(** What the driver expects of its collaborators: they hand back valid
    buffers and do not move the start of the byte buffer in the stream. *)
Class WellBehaved {I D : Type} (inp : Input I) (jd : JsonDecoder D) : Prop := {
  decode_tokens_ok :
    forall d tb ib st d' tb' ib',
      decode_tokens d tb ib = (st, d', tb', ib') ->
      io_buffer_ok ib -> token_buffer_ok tb ->
      io_buffer_ok ib' /\ token_buffer_ok tb'
      /\ pos (meta ib') = pos (meta ib);
  CopyIn_ok :
    forall i b msg i' b',
      CopyIn i b = (msg, i', b') ->
      io_buffer_ok b ->
      io_buffer_ok b' /\ pos (meta b') = pos (meta b)
}.

(** ** A recorder for the callbacks *)

(** One entry per call of a callback: its argument and what it returned. *)
Inductive Event : Type :=
| EvAppendNull (ret : string)
| EvAppendBool (val : bool) (ret : string)
| EvAppendI64 (val : Z) (ret : string)
| EvAppendF64 (val : Z) (ret : string)
| EvAppendTextString (val : string) (ret : string)
| EvAppendByteString (val : string) (ret : string)
| EvPush (flags : Z) (ret : string)
| EvPop (flags : Z) (ret : string)
| EvDone (result : DecodeJsonResult).

Definition record {C : Type} (log : list Event) (mk : string -> Event)
    (r : string * C) : string * (C * list Event) :=
  (fst r, (snd r, log ++ [mk (fst r)])).

(** Any callbacks object, wrapped so that it also keeps the list of the
    calls it received.  [Done] is recorded with the result it was handed. *)
#[export] Instance Recorded {C I : Type} (cbs : DecodeJsonCallbacks C I)
    : DecodeJsonCallbacks (C * list Event) I := {
  AppendNull c := record (snd c) EvAppendNull (AppendNull (fst c));
  AppendBool c val :=
    record (snd c) (EvAppendBool val) (AppendBool (fst c) val);
  AppendI64 c val := record (snd c) (EvAppendI64 val) (AppendI64 (fst c) val);
  AppendF64 c val := record (snd c) (EvAppendF64 val) (AppendF64 (fst c) val);
  AppendTextString c val :=
    record (snd c) (EvAppendTextString val) (AppendTextString (fst c) val);
  AppendByteString c val :=
    record (snd c) (EvAppendByteString val) (AppendByteString (fst c) val);
  Push c flags := record (snd c) (EvPush flags) (Push (fst c) flags);
  Pop c flags := record (snd c) (EvPop flags) (Pop (fst c) flags);
  Done c result i b :=
    let '(c', result', i', b') := Done (fst c) result i b in
    ((c', snd c ++ [EvDone result]), result', i', b')
}.

Definition is_Done (ev : Event) : bool :=
  match ev with EvDone _ => true | _ => false end.



(** The calls that the main loop takes to [parsed_a_value]. *)
Definition completes (ev : Event) : bool :=
  match ev with
  | EvPush _ _ | EvDone _ => false
  | _ => true
  end.

Definition is_Push (ev : Event) : bool :=
  match ev with EvPush _ _ => true | _ => false end.

(** What the call returned. *)
Definition ret_of (ev : Event) : string :=
  match ev with
  | EvAppendNull ret | EvAppendBool _ ret | EvAppendI64 _ ret
  | EvAppendF64 _ ret | EvAppendTextString _ ret | EvAppendByteString _ ret
  | EvPush _ ret | EvPop _ ret => ret
  | EvDone _ => EmptyString
  end.

(** [depth] after a call, as its definition in the main loop has it: up
    after a [Push] that returned no message, down after a [Pop]. *)
Definition depth_step (depth : Z) (ev : Event) : Z :=
  match ev with
  | EvPush _ ret => if empty ret then u32 (depth + 1) else depth
  | EvPop _ _ => u32 (depth - 1)
  | _ => depth
  end.

Definition depth_after (depth : Z) (log : list Event) : Z :=
  fold_left depth_step log depth.

(** Calls after which the main loop went on: each returned no message, and
    those that completed a value left [depth] other than 0. *)
Fixpoint goes_on (depth : Z) (log : list Event) : Prop :=
  match log with
  | [] => True
  | ev :: log' =>
      is_Done ev = false /\ ret_of ev = EmptyString
      /\ (completes ev = true -> depth_step depth ev <> 0)
      /\ goes_on (depth_step depth ev) log'
  end.

(** A call whose result made the main loop leave for [done] with [msg]:
    a [Push] that returned a message, or a completed value with a message
    or with [depth] back at 0. *)
Definition ends_loop (depth : Z) (ev : Event) (msg : string) : Prop :=
  is_Done ev = false /\ ret_of ev = msg
  /\ if completes ev then msg <> EmptyString \/ depth_step depth ev = 0
     else msg <> EmptyString.

(** What a run with a recorder around the callbacks says of the run
    without it. *)
Definition forget_processed {C : Type} (r : processed (C * list Event))
    : processed C :=
  match r with
  | next_iteration d s c => next_iteration d s (fst c)
  | goto_done_with msg c => goto_done_with msg (fst c)
  | process_diverges => process_diverges
  end.

Definition forget_decoded {I D C : Type} (r : decoded I D (C * list Event))
    : decoded I D C :=
  match r with
  | Finished msg e c => Finished msg e (fst c)
  | DecodeDiverges => DecodeDiverges
  end.

(** ** A watcher for the input *)

(** Any input, wrapped so that it also keeps the buffers that [CopyIn] was
    handed, as they were at the call. *)
Definition Watched {I : Type} (inp : Input I)
    : Input (I * list wuffs_base__io_buffer) := {|
  BringsItsOwnIOBuffer i := BringsItsOwnIOBuffer (fst i);
  CopyIn i b :=
    let '(msg, i', b') := CopyIn (fst i) b in (msg, (i', snd i ++ [b]), b')
|}.

(** What [CopyIn] can count on: the buffer is compacted, has room and is
    not closed. *)
Definition ready_for_CopyIn (b : wuffs_base__io_buffer) : Prop :=
  ri (meta b) = 0 /\ wi (meta b) < data_len b /\ closed (meta b) = false.

(** The variables of the macro without the watcher's list. *)
Definition unwatched {I D : Type}
    (e : Env (I * list wuffs_base__io_buffer) D) : Env I D :=
  mk_env (tok_buf e) (tok_status e) (dec e) (io_buf e) (io_error_message e)
    (cursor_index e) (fst (input e)).

Definition unwatched_refilled {I D : Type}
    (r : refilled (I * list wuffs_base__io_buffer) D) : refilled I D :=
  match r with
  | goto_done msg e => goto_done msg (unwatched e)
  | again e => again (unwatched e)
  end.

(** Any callbacks object, for an input with a watcher: the same
    callbacks, with [Done] handed the input itself. *)
Definition Watching {C I : Type} (cbs : DecodeJsonCallbacks C I)
    : DecodeJsonCallbacks C (I * list wuffs_base__io_buffer) := {|
  AppendNull := AppendNull;
  AppendBool := AppendBool;
  AppendI64 := AppendI64;
  AppendF64 := AppendF64;
  AppendTextString := AppendTextString;
  AppendByteString := AppendByteString;
  Push := Push;
  Pop := Pop;
  Done c result i b :=
    let '(c', result', i', b') := Done c result (fst i) b in
    (c', result', (i', snd i), b')
|}.

Definition unwatched_next {I D : Type}
    (r : next_token (I * list wuffs_base__io_buffer) D) : next_token I D :=
  match r with
  | Stop msg e => Stop msg (unwatched e)
  | Tok t p l e => Tok t p l (unwatched e)
  | Diverges => Diverges
  end.

Definition unwatched_walked {I D : Type}
    (r : walked (I * list wuffs_base__io_buffer) D) : walked I D :=
  match r with
  | Return msg e => Return msg (unwatched e)
  | WalkDiverges => WalkDiverges
  end.

Definition unwatched_decoded {I D C : Type}
    (r : decoded (I * list wuffs_base__io_buffer) D C) : decoded I D C :=
  match r with
  | Finished msg e c => Finished msg (unwatched e) c
  | DecodeDiverges => DecodeDiverges
  end.

Definition unwatched_stopped {I C : Type}
    (s : stopped (I * list wuffs_base__io_buffer) C) : stopped I C :=
  mk_stopped (stop_message s) (stop_io_buf s) (stop_cursor_index s)
    (stop_callbacks s) (fst (stop_input s)).

(** ** Collaborators to run the driver on *)

Module Double.

(** The detail bits with the values of Wuffs' token-public.h. *)
#[export] Instance bits : TokenBits := {
  VBD__STRUCTURE__PUSH := 0x00001;
  VBD__STRUCTURE__POP := 0x00002;
  VBD__STRUCTURE__TO_LIST := 0x02000;
  VBD__STRING__CONVERT_0_DST_1_SRC_DROP := 0x00100;
  VBD__STRING__CONVERT_1_DST_1_SRC_COPY := 0x00200;
  VBD__STRING__CONVERT_1_DST_4_SRC_BACKSLASH_X := 0x00800;
  VBD__STRING__CHAIN_MUST_BE_UTF_8 := 0x00002;
  VBD__LITERAL__NULL := 0x00002;
  VBD__LITERAL__TRUE := 0x00008;
  VBD__NUMBER__FORMAT_TEXT := 0x00400;
  VBD__NUMBER__CONTENT_INTEGER_SIGNED := 0x00002;
  VBD__NUMBER__CONTENT_FLOATING_POINT := 0x00001;
  VBD__NUMBER__CONTENT_NEG_INF := 0x00010;
  VBD__NUMBER__CONTENT_POS_INF := 0x00020;
  VBD__NUMBER__CONTENT_NEG_NAN := 0x00040;
  VBD__NUMBER__CONTENT_POS_NAN := 0x00080
}.

Definition byte_of_Z (z : Z) : byte :=
  match Byte.of_N (Z.to_N (z mod 256)) with
  | Some b => b
  | None => x00
  end.

Definition Z_of_byte (b : byte) : Z := Z.of_N (Byte.to_N b).

(** UTF-8, with U+FFFD for what is not a scalar value. *)
Definition utf_8__encode (dst_len code_point : Z) : list byte :=
  let out :=
    if code_point <=? 0x7F then [byte_of_Z code_point]
    else if code_point <=? 0x7FF then
      [byte_of_Z (0xC0 + code_point / 64); byte_of_Z (0x80 + code_point mod 64)]
    else if (code_point <=? 0xFFFF)
            && negb ((0xD800 <=? code_point) && (code_point <=? 0xDFFF)) then
      [byte_of_Z (0xE0 + code_point / 4096);
       byte_of_Z (0x80 + (code_point / 64) mod 64);
       byte_of_Z (0x80 + code_point mod 64)]
    else if (0x10000 <=? code_point) && (code_point <=? 0x10FFFF) then
      [byte_of_Z (0xF0 + code_point / 262144);
       byte_of_Z (0x80 + (code_point / 4096) mod 64);
       byte_of_Z (0x80 + (code_point / 64) mod 64);
       byte_of_Z (0x80 + code_point mod 64)]
    else [xef; xbf; xbd]
  in
  if Z.of_nat (List.length out) <=? dst_len then out else [].

Definition hex_digit (b : byte) : Z :=
  let z := Z_of_byte b in
  if (48 <=? z) && (z <=? 57) then z - 48
  else if (65 <=? z) && (z <=? 70) then z - 55
  else if (97 <=? z) && (z <=? 102) then z - 87
  else 0.

Fixpoint decode4_groups (n : nat) (src : list byte) : list byte :=
  match n, src with
  | S n', _ :: _ :: h :: l :: src' =>
      byte_of_Z (16 * hex_digit h + hex_digit l) :: decode4_groups n' src'
  | _, _ => []
  end.

(** One byte for every four of the source, read from the hexadecimal digits
    in the third and fourth place. *)
Definition base_16__decode4 (dst_len : Z) (src : list byte) (src_closed : bool)
    : wuffs_base__transform__output * list byte :=
  let src_len4 := Z.of_nat (List.length src) / 4 in
  let n := Z.min dst_len src_len4 in
  let st :=
    if dst_len <? src_len4 then suspension__short_write
    else if negb src_closed then suspension__short_read
    else if negb (Z.of_nat (List.length src) mod 4 =? 0) then
      status_other true "base: bad data"
    else status_ok in
  (mk_output st n (4 * n), decode4_groups (Z.to_nat n) src).

Fixpoint decimal (acc : Z) (digits : list byte) : option Z :=
  match digits with
  | [] => Some acc
  | d :: digits' =>
      let z := Z_of_byte d in
      if (48 <=? z) && (z <=? 57) then decimal (10 * acc + (z - 48)) digits'
      else None
  end.

Definition bad_argument : wuffs_base__status :=
  status_other true "base: bad argument".
Definition out_of_bounds : wuffs_base__status :=
  status_other true "base: out of bounds".

Definition parse_number_u64 (s : list byte) : wuffs_base__status * Z :=
  match s with
  | [] => (bad_argument, 0)
  | _ =>
      match decimal 0 s with
      | None => (bad_argument, 0)
      | Some v => if v <=? u64_max then (status_ok, v) else (out_of_bounds, 0)
      end
  end.

Definition parse_number_i64 (s : list byte) : wuffs_base__status * Z :=
  let '(neg, digits) :=
    match s with
    | "-"%byte :: s' => (true, s')
    | _ => (false, s)
    end in
  match digits with
  | [] => (bad_argument, 0)
  | _ =>
      match decimal 0 digits with
      | None => (bad_argument, 0)
      | Some v =>
          let v := if neg then - v else v in
          if (- 9223372036854775808 <=? v) && (v <=? 9223372036854775807)
          then (status_ok, v) else (out_of_bounds, 0)
      end
  end.

(** The double of a natural number below 2^53, as its bit pattern. *)
Definition f64_bits_of_small (v : Z) : Z :=
  if v =? 0 then 0
  else
    let e := Z.log2 v in
    (e + 1023) * 2 ^ 52 + (v * 2 ^ (52 - e) - 2 ^ 52).

(** A parser of doubles that only knows the natural numbers below 2^53. *)
Definition parse_number_f64 (s : list byte) : wuffs_base__status * Z :=
  match s with
  | [] => (bad_argument, 0)
  | _ =>
      match decimal 0 s with
      | None => (bad_argument, 0)
      | Some v =>
          if v <? 2 ^ 53 then (status_ok, f64_bits_of_small v)
          else (bad_argument, 0)
      end
  end.

#[export] Instance base : Base := {
  wuffs_base__utf_8__encode := utf_8__encode;
  wuffs_base__base_16__decode4 := base_16__decode4;
  wuffs_base__parse_number_u64 := parse_number_u64;
  wuffs_base__parse_number_i64 := parse_number_i64;
  wuffs_base__parse_number_f64 := parse_number_f64
}.

(** A decoder that plays back a script: each call writes the tokens of the
    next reply, moves the read index of the bytes on and returns the
    status of the reply. *)
Record Reply : Type := mk_reply {
  emits : list Token.t;
  consumes : Z;
  replies : wuffs_base__status
}.

(** The length of a token is an unsigned field. *)
Definition natural (t : Token.t) : Token.t :=
  Token.mk (Token.value_base_category t) (Token.value_base_detail t)
    (Token.continued t) (Z.max 0 (Token.length t)).

Definition write_at {A : Type} (cells : list A) (at_ : Z) (new : list A)
    : list A :=
  firstn (Z.to_nat at_) cells ++ new
    ++ skipn (Z.to_nat at_ + List.length new) cells.

Definition play (script : list Reply) (tb : wuffs_base__token_buffer)
    (ib : wuffs_base__io_buffer)
    : wuffs_base__status * list Reply * wuffs_base__token_buffer
      * wuffs_base__io_buffer :=
  match script with
  | [] => (status_other true "json: bad input", [], tb, ib)
  | r :: script' =>
      let room := Z.of_nat (List.length (tok_data tb)) - wi (tok_meta tb) in
      let toks := map natural (firstn (Z.to_nat room) (emits r)) in
      let tb' :=
        mk_token_buffer
          (write_at (tok_data tb) (wi (tok_meta tb)) toks)
          (mk_io_meta (wi (tok_meta tb) + Z.of_nat (List.length toks))
             (ri (tok_meta tb)) (pos (tok_meta tb)) (closed (tok_meta tb))) in
      let ri' := Z.min (wi (meta ib)) (ri (meta ib) + Z.max 0 (consumes r)) in
      let ib' :=
        mk_io_buffer (data ib)
          (mk_io_meta (wi (meta ib)) ri' (pos (meta ib)) (closed (meta ib))) in
      (replies r, script', tb', ib')
  end.

Definition scripted (script : list Reply) : JsonDecoder (list Reply) := {|
  alloc := Some script;
  set_quirk_enabled d _ _ := d;
  decode_tokens := play
|}.

Definition out_of_memory : JsonDecoder (list Reply) := {|
  alloc := None;
  set_quirk_enabled d _ _ := d;
  decode_tokens := play
|}.

(** An input that hands out the chunks of a list, one per [CopyIn], each
    with the [closed] flag and the message to go with it. *)
Record Source : Type := mk_source {
  own_buffer : option wuffs_base__io_buffer;
  chunks : list (list byte * bool * string)
}.

Definition copy_in (i : Source) (b : wuffs_base__io_buffer)
    : string * Source * wuffs_base__io_buffer :=
  match chunks i with
  | [] =>
      ("Double.Source: end of file", i,
       mk_io_buffer (data b)
         (mk_io_meta (wi (meta b)) (ri (meta b)) (pos (meta b)) true))
  | (bytes, cl, msg) :: rest =>
      let room := data_len b - wi (meta b) in
      let bytes := firstn (Z.to_nat room) bytes in
      (msg, mk_source (own_buffer i) rest,
       mk_io_buffer (write_at (data b) (wi (meta b)) bytes)
         (mk_io_meta (wi (meta b) + Z.of_nat (List.length bytes))
            (ri (meta b)) (pos (meta b)) cl))
  end.

#[export] Instance source : Input Source := {
  BringsItsOwnIOBuffer := own_buffer;
  CopyIn := copy_in
}.

(** An input that is one buffer, already filled and closed. *)
Definition memory (bytes : string) : Source :=
  let l := list_byte_of_string bytes in
  mk_source
    (Some (mk_io_buffer l
             (mk_io_meta (Z.of_nat (List.length l)) 0 0 true)))
    [].

(** Callbacks that accept everything, with the two bodies of json.cc
    overridden only for byte strings. *)
Definition accepting : DecodeJsonCallbacks unit Source := {|
  AppendNull c := (EmptyString, c);
  AppendBool c _ := (EmptyString, c);
  AppendI64 c _ := (EmptyString, c);
  AppendF64 c _ := (EmptyString, c);
  AppendTextString c _ := (EmptyString, c);
  AppendByteString c _ := (EmptyString, c);
  Push c _ := (EmptyString, c);
  Pop c _ := (EmptyString, c);
  Done := DecodeJsonCallbacks__Done
|}.

(** Callbacks that keep the defaults of json.cc. *)
Definition defaults : DecodeJsonCallbacks unit Source := {|
  AppendNull c := (EmptyString, c);
  AppendBool c _ := (EmptyString, c);
  AppendI64 c _ := (EmptyString, c);
  AppendF64 c _ := (EmptyString, c);
  AppendTextString c _ := (EmptyString, c);
  AppendByteString := DecodeJsonCallbacks__AppendByteString;
  Push c _ := (EmptyString, c);
  Pop c _ := (EmptyString, c);
  Done := DecodeJsonCallbacks__Done
|}.

(** Callbacks whose [Done] writes into the result it is handed. *)
Definition overwriting : DecodeJsonCallbacks unit Source := {|
  AppendNull c := (EmptyString, c);
  AppendBool c _ := (EmptyString, c);
  AppendI64 c _ := (EmptyString, c);
  AppendF64 c _ := (EmptyString, c);
  AppendTextString c _ := (EmptyString, c);
  AppendByteString c _ := (EmptyString, c);
  Push c _ := (EmptyString, c);
  Pop c _ := (EmptyString, c);
  Done c result i b := (c, mk_result "Done was here" 999, i, b)
|}.

(** Shorthand for the tokens of a script. *)
Definition tok (vbc vbd : Z) (continued : bool) (len : Z) : Token.t :=
  Token.mk vbc vbd continued len.

(** Callbacks that accept everything, whatever the input is. *)
Definition accepts (I : Type) : DecodeJsonCallbacks unit I := {|
  AppendNull c := (EmptyString, c);
  AppendBool c _ := (EmptyString, c);
  AppendI64 c _ := (EmptyString, c);
  AppendF64 c _ := (EmptyString, c);
  AppendTextString c _ := (EmptyString, c);
  AppendByteString c _ := (EmptyString, c);
  Push c _ := (EmptyString, c);
  Pop c _ := (EmptyString, c);
  Done := DecodeJsonCallbacks__Done
|}.

(** A base-16 decoder that reports success without taking a byte. *)
Definition stalling : Base := {|
  wuffs_base__utf_8__encode := utf_8__encode;
  wuffs_base__base_16__decode4 _ _ _ := (mk_output status_ok 0 0, []);
  wuffs_base__parse_number_u64 := parse_number_u64;
  wuffs_base__parse_number_i64 := parse_number_i64;
  wuffs_base__parse_number_f64 := parse_number_f64
|}.

End Double.

(** ** Documents to run the driver on *)

Module Run.
Import Double.

(** The byte of a double quote, and a text between two of them. *)
Definition quote : ascii := ascii_of_nat 34.
Definition quoted (s : string) : string :=
  String quote (s ++ String quote EmptyString)%string.

(** A buffer of two bytes. *)
Definition two_bytes : wuffs_base__io_buffer :=
  mk_io_buffer [x00; x00] (mk_io_meta 0 0 0 false).

(** No tokens, a decoder that said short_read, and a message that an
    earlier [CopyIn] left behind. *)
Definition after_disk_error : Env Source (list Reply) :=
  mk_env (mk_token_buffer [Token.zero] (mk_io_meta 0 0 0 false))
    suspension__short_read [] two_bytes "disk error" 0 (mk_source None []).

(** The bytes of [null], already decoded into the one token that waits in
    the token buffer. *)
Definition null_token : Token.t := tok VBC__LITERAL 0x2 false 4.

Definition null_buffered : Env Source (list Reply) :=
  mk_env (mk_token_buffer [null_token] (mk_io_meta 1 0 0 false))
    status_ok []
    (mk_io_buffer (list_byte_of_string "null") (mk_io_meta 4 4 0 true))
    EmptyString 0 (mk_source None []).

Definition null_taken : Env Source (list Reply) :=
  mk_env (mk_token_buffer [null_token] (mk_io_meta 1 1 0 false))
    status_ok []
    (mk_io_buffer (list_byte_of_string "null") (mk_io_meta 4 4 0 true))
    EmptyString 4 (mk_source None []).

(** The decoder's one call on the input [null]. *)
Definition null_script : list Reply := [mk_reply [null_token] 4 status_ok].

(** A buffer at the end of the 64-bit positions with one byte read. *)
Definition at_the_end : wuffs_base__io_buffer :=
  mk_io_buffer [x00] (mk_io_meta 1 1 u64_max false).

(** The decoder's one call on the input [1]. *)
Definition one_script : list Reply :=
  [mk_reply [tok VBC__NUMBER 0x402 false 1] 1 status_ok].

(** Where [DecodeJson] stops on the input [null]. *)
Definition null_stopped : stopped Source unit :=
  mk_stopped EmptyString
    (mk_io_buffer (list_byte_of_string "null") (mk_io_meta 4 4 0 true))
    4 tt (memory "null").

(** The three bytes of the JSON string ["a"], decoded into the three
    tokens of its string run, with [ri] of them taken and the cursor at
    [ci]. *)
Definition quote_open : Token.t := tok VBC__STRING 0x113 true 1.
Definition letter_a : Token.t := tok VBC__STRING 0x213 true 1.
Definition quote_close : Token.t := tok VBC__STRING 0x113 false 1.



(** The bytes of [bytes], decoded into the tokens [toks], with [ri] of them
    taken and the cursor at [ci]. *)
Definition buffered (toks : list Token.t) (bytes : string) (ri ci : Z)
    : Env Source (list Reply) :=
  let l := list_byte_of_string bytes in
  mk_env
    (mk_token_buffer toks (mk_io_meta (Z.of_nat (List.length toks)) ri 0 false))
    status_ok []
    (mk_io_buffer l
       (mk_io_meta (Z.of_nat (List.length l)) (Z.of_nat (List.length l)) 0
          true))
    EmptyString ci (mk_source None []).


(** The document [[true,false]]. *)
Definition list_tf : Z -> Z -> Env Source (list Reply) :=
  buffered
    [tok VBC__STRUCTURE 0x2011 false 1; tok VBC__LITERAL 0x8 false 4;
     tok VBC__FILLER 0x1 false 1; tok VBC__LITERAL 0x4 false 5;
     tok VBC__STRUCTURE 0x1022 false 1]
    "[true,false]".


(** A buffer with three bytes to read, two bytes into it. *)
Definition unread : wuffs_base__io_buffer :=
  mk_io_buffer (list_byte_of_string "abcdef") (mk_io_meta 5 2 7 false).

(** No tokens, and a decoder that reported an error. *)
Definition after_decoder_error : Env Source (list Reply) :=
  mk_env (mk_token_buffer [Token.zero] (mk_io_meta 0 0 0 false))
    (status_other true "json: bad input") [] two_bytes EmptyString 0
    (mk_source None []).

(** A decoder whose first call reports an error. *)
Definition bad_input_script : list Reply :=
  [mk_reply [] 0 (status_other true "json: bad input")].

(** The three bytes of the JSON string ["a"] again, with a closing token
    that does not ask for UTF-8. *)
Definition bytes_close : Token.t := tok VBC__STRING 0x111 false 1.

Definition byte_string_a : Z -> Z -> Env Source (list Reply) :=
  buffered [quote_open; letter_a; bytes_close] (quoted "a").

(** The document [{"a":1,"b":2}]: thirteen tokens of one byte each. *)
Definition dict_ab : Z -> Z -> Env Source (list Reply) :=
  buffered
    [tok VBC__STRUCTURE 0x4011 false 1; quote_open; letter_a; quote_close;
     tok VBC__FILLER 0x1 false 1; tok VBC__NUMBER 0x402 false 1;
     tok VBC__FILLER 0x1 false 1; quote_open; letter_a; quote_close;
     tok VBC__FILLER 0x1 false 1; tok VBC__NUMBER 0x402 false 1;
     tok VBC__STRUCTURE 0x1042 false 1]
    ("{" ++ quoted "a" ++ ":1," ++ quoted "b" ++ ":2}")%string.

(** An input that has [null] to give at its first [CopyIn], and a decoder
    that asks for more input before it decodes it. *)
Definition null_to_come : Source :=
  mk_source None [(list_byte_of_string "null", true, EmptyString)].

Definition null_after_refill : list Reply :=
  [mk_reply [] 0 suspension__short_read; mk_reply [null_token] 4 status_ok].

(** A buffer of two bytes, both written and none read, and a decoder
    that wants more. *)
Definition full_buffer : Env Source (list Reply) :=
  mk_env (mk_token_buffer [Token.zero] (mk_io_meta 0 0 0 false))
    suspension__short_read []
    (mk_io_buffer [x00; x00] (mk_io_meta 2 0 0 false)) EmptyString 0
    (mk_source None []).

(** An input whose own buffer was read by one byte already, and a decoder
    whose first call wants more. *)
Definition read_in_part : Source :=
  mk_source
    (Some (mk_io_buffer (list_byte_of_string " null")
             (mk_io_meta 5 1 0 false)))
    [].

Definition wants_more : list Reply :=
  [mk_reply [] 0 suspension__short_read].

End Run.

(** * Properties *)

(** Split the conjunctions that are written in the goal, and no more. *)
Ltac splits := repeat match goal with |- _ /\ _ => split end.

(** ** Arithmetic of the machine integers *)

Lemma u64_id (x : Z) : 0 <= x <= u64_max -> u64 x = x.
Proof. intros Hx. unfold u64. apply Z.mod_small. unfold u64_max in *. lia. Qed.

Lemma u32_id (x : Z) : 0 <= x <= u32_max -> u32 x = x.
Proof. intros Hx. unfold u32. apply Z.mod_small. unfold u32_max in *. lia. Qed.

Lemma u64_range (x : Z) : 0 <= u64 x <= u64_max.
Proof.
  unfold u64. assert (0 <= x mod (u64_max + 1) < u64_max + 1).
  { apply Z.mod_pos_bound. unfold u64_max. lia. }
  lia.
Qed.


Lemma sat_add_range (x y : Z) :
  0 <= x -> 0 <= y -> 0 <= wuffs_base__u64__sat_add x y <= u64_max.
Proof.
  intros Hx Hy. unfold wuffs_base__u64__sat_add.
  destruct (x + y >? u64_max) eqn:E; [unfold u64_max; lia | lia].
Qed.

Lemma sat_add_0_r (x : Z) :
  0 <= x <= u64_max -> wuffs_base__u64__sat_add x 0 = x.
Proof.
  intros Hx. unfold wuffs_base__u64__sat_add.
  rewrite Z.add_0_r. destruct (x >? u64_max) eqn:E; lia.
Qed.

Lemma sat_add_exact (x y : Z) :
  x + y <= u64_max -> wuffs_base__u64__sat_add x y = x + y.
Proof.
  intros Hxy. unfold wuffs_base__u64__sat_add.
  destruct (x + y >? u64_max) eqn:E; lia.
Qed.

(** Saturating addition of naturals is associative. *)
Lemma sat_add_assoc (x y z : Z) :
  0 <= x -> 0 <= y -> 0 <= z ->
  wuffs_base__u64__sat_add (wuffs_base__u64__sat_add x y) z
  = wuffs_base__u64__sat_add x (y + z).
Proof.
  intros Hx Hy Hz. unfold wuffs_base__u64__sat_add.
  destruct (x + y >? u64_max) eqn:E1;
    destruct (x + (y + z) >? u64_max) eqn:E2;
    repeat match goal with
           | |- context [?a >? ?b] => destruct (a >? b) eqn:?
           end; lia.
Qed.

Lemma empty_true (s : string) : empty s = true <-> s = EmptyString.
Proof. unfold empty. apply String.eqb_eq. Qed.

Lemma empty_false (s : string) : empty s = false <-> s <> EmptyString.
Proof. unfold empty. apply String.eqb_neq. Qed.

(** ** Running with more fuel *)

Lemma eventually_unique {A : Type} (run : nat -> A) (r1 r2 : A) :
  eventually run r1 -> eventually run r2 -> r1 = r2.
Proof.
  intros [F1 H1] [F2 H2].
  rewrite <- (H1 (Nat.max F1 F2)) by lia. apply H2. lia.
Qed.

(** ** Compaction *)

Lemma memmove_length {A : Type} (cells : list A) (src n : Z) :
  0 <= src -> 0 <= n -> src + n <= Z.of_nat (List.length cells) ->
  List.length (memmove cells src n) = List.length cells.
Proof.
  intros Hs Hn Hle. unfold memmove.
  rewrite length_app, length_firstn, !length_skipn. lia.
Qed.

Lemma Forall_take {A : Type} (P : A -> Prop) (n : nat) (l : list A) :
  Forall P l -> Forall P (firstn n l).
Proof.
  revert l. induction n as [|n IH]; intros [|x l] HP; simpl; auto.
  inversion HP; subst. constructor; auto.
Qed.

Lemma Forall_drop {A : Type} (P : A -> Prop) (n : nat) (l : list A) :
  Forall P l -> Forall P (skipn n l).
Proof.
  revert l. induction n as [|n IH]; intros [|x l] HP; simpl; auto.
  inversion HP; subst. auto.
Qed.

Lemma memmove_Forall {A : Type} (P : A -> Prop) (cells : list A) (src n : Z) :
  Forall P cells -> Forall P (memmove cells src n).
Proof.
  intros HP. unfold memmove. apply Forall_app. split.
  - apply Forall_take, Forall_drop, HP.
  - apply Forall_drop, HP.
Qed.

Lemma io_buffer__compact_ok (b : wuffs_base__io_buffer) :
  io_buffer_ok b ->
  let b' := wuffs_base__io_buffer__compact b in
  io_buffer_ok b'
  /\ ri (meta b') = 0
  /\ wi (meta b') = wi (meta b) - ri (meta b)
  /\ pos (meta b') = wuffs_base__u64__sat_add (pos (meta b)) (ri (meta b))
  /\ closed (meta b') = closed (meta b)
  /\ data_len b' = data_len b.
Proof.
  intros (Hri & Hwi & Hlen & Hpos). unfold wuffs_base__io_buffer__compact.
  destruct (ri (meta b) =? 0) eqn:E; simpl.
  - apply Z.eqb_eq in E. rewrite E, Z.sub_0_r, sat_add_0_r by exact Hpos.
    unfold io_buffer_ok. repeat split; lia.
  - apply Z.eqb_neq in E.
    assert (Hn : u64 (wi (meta b) - ri (meta b)) = wi (meta b) - ri (meta b))
      by (apply u64_id; lia).
    rewrite Hn.
    assert (Hdl : data_len
              (mk_io_buffer
                 (if negb (wi (meta b) - ri (meta b) =? 0)
                  then memmove (data b) (ri (meta b))
                         (wi (meta b) - ri (meta b))
                  else data b)
                 (mk_io_meta (wi (meta b) - ri (meta b)) 0
                    (wuffs_base__u64__sat_add (pos (meta b)) (ri (meta b)))
                    (closed (meta b)))) = data_len b).
    { unfold data_len in *. simpl.
      destruct (negb (wi (meta b) - ri (meta b) =? 0)); [|reflexivity].
      rewrite memmove_length; lia. }
    unfold io_buffer_ok. rewrite Hdl. simpl.
    pose proof (sat_add_range (pos (meta b)) (ri (meta b))).
    repeat split; lia.
Qed.

Lemma token_buffer__compact_ok (tb : wuffs_base__token_buffer) :
  token_buffer_ok tb -> token_buffer_ok (wuffs_base__token_buffer__compact tb).
Proof.
  intros (Hri & Hwi & Hlen & Hall). unfold wuffs_base__token_buffer__compact.
  destruct (ri (tok_meta tb) =? 0) eqn:E.
  - unfold token_buffer_ok. auto.
  - simpl.
    assert (Hn : u64 (wi (tok_meta tb) - ri (tok_meta tb))
                 = wi (tok_meta tb) - ri (tok_meta tb))
      by (apply u64_id; lia).
    rewrite Hn. unfold token_buffer_ok. simpl.
    destruct (negb (wi (tok_meta tb) - ri (tok_meta tb) =? 0)).
    + rewrite memmove_length by lia.
      repeat split; try lia. apply memmove_Forall. exact Hall.
    + repeat split; try lia. exact Hall.
Qed.

Section Properties.
Context {I D C : Type}.
Context {bits : TokenBits} {base : Base}.
Context {inp : Input I} {jd : JsonDecoder D} {cbs : DecodeJsonCallbacks C I}.

Lemma refill_more_fuel (fuel fuel' : nat) (e : Env I D) (r : refilled I D) :
  refill fuel e = Some r -> (fuel <= fuel')%nat -> refill fuel' e = Some r.
Proof.
  revert fuel' e. induction fuel as [|fuel IH]; intros fuel' e Hr Hle.
  - destruct fuel'; simpl in *;
      destruct (ri (tok_meta (tok_buf e)) >=? wi (tok_meta (tok_buf e)));
      congruence.
  - destruct fuel' as [|fuel']; [lia|]. simpl in *.
    destruct (ri (tok_meta (tok_buf e)) >=? wi (tok_meta (tok_buf e)));
      [|exact Hr].
    destruct (refill_body e); [exact Hr|]. apply IH; [exact Hr | lia].
Qed.

Lemma GET_more_fuel (fuel fuel' : nat) (e : Env I D) (r : next_token I D) :
  GET_THE_NEXT_TOKEN fuel e = r -> r <> Diverges -> (fuel <= fuel')%nat ->
  GET_THE_NEXT_TOKEN fuel' e = r.
Proof.
  unfold GET_THE_NEXT_TOKEN. intros Hr Hd Hle.
  destruct (refill fuel e) as [r0|] eqn:E; [|congruence].
  rewrite (refill_more_fuel _ _ _ _ E Hle). exact Hr.
Qed.

Lemma GET_eventually (fuel : nat) (e : Env I D) (r : next_token I D) :
  GET_THE_NEXT_TOKEN fuel e = r -> r <> Diverges ->
  eventually (fun f => GET_THE_NEXT_TOKEN f e) r.
Proof.
  intros Hr Hd. exists fuel. intros f Hf. eapply GET_more_fuel; eauto.
Qed.

(** With tokens in the token buffer the macro does not enter its loop. *)
Lemma GET_buffered (fuel : nat) (e : Env I D) :
  ri (tok_meta (tok_buf e)) < wi (tok_meta (tok_buf e)) ->
  GET_THE_NEXT_TOKEN fuel e = take_token e.
Proof.
  intros Hlt. unfold GET_THE_NEXT_TOKEN.
  assert (E : (ri (tok_meta (tok_buf e)) >=? wi (tok_meta (tok_buf e))) = false)
    by lia.
  destruct fuel; simpl; rewrite E; reflexivity.
Qed.

(** With an empty token buffer the macro runs the body of its loop. *)
Lemma GET_unbuffered (fuel : nat) (e : Env I D) :
  ri (tok_meta (tok_buf e)) >= wi (tok_meta (tok_buf e)) ->
  GET_THE_NEXT_TOKEN (S fuel) e
  = match refill_body e with
    | goto_done msg e' => Stop msg e'
    | again e' => GET_THE_NEXT_TOKEN fuel e'
    end.
Proof.
  intros Hge. unfold GET_THE_NEXT_TOKEN. simpl.
  assert (E : (ri (tok_meta (tok_buf e)) >=? wi (tok_meta (tok_buf e))) = true)
    by lia.
  rewrite E. destruct (refill_body e); reflexivity.
Qed.

(** ** The refill loop on [short_read] *)

Lemma redecode_keeps_message (e e' : Env I D) :
  redecode e = again e' -> io_error_message e' = io_error_message e.
Proof.
  unfold redecode. simpl.
  destruct (decode_tokens (dec e) (tok_buf e) (io_buf e)) as [[[st d] tb] ib].
  intros Hr. inversion Hr. reflexivity.
Qed.

Lemma redecode_never_stops (e e' : Env I D) (msg : string) :
  redecode e <> goto_done msg e'.
Proof.
  unfold redecode. simpl.
  destruct (decode_tokens (dec e) (tok_buf e) (io_buf e)) as [[[st d] tb] ib].
  discriminate.
Qed.

(** C3: when the token buffer is empty and the decoder's status is
    short_read, the macro leaves for [done] with the latched
    io_error_message if there is one (moved out of io_error_message, which
    is empty afterwards); else with "bad cursor_index" if cursor_index
    differs from io_buf's ri; else with "io_buf is closed" if io_buf is
    closed; else it compacts io_buf and leaves with "io_buf is full" if
    wi >= data.len; else it calls CopyIn, keeps the returned message in
    io_error_message and calls the decoder again without failing.  A
    non-empty message of CopyIn is reported at the next short_read with an
    empty token buffer, and no pass of the loop on another status, nor
    taking a token, touches or reports it. *)
Theorem short_read_handling (e : Env I D) (fuel : nat) :
  tok_status e = suspension__short_read ->
  ri (tok_meta (tok_buf e)) >= wi (tok_meta (tok_buf e)) ->
  let b := wuffs_base__io_buffer__compact (io_buf e) in
  (io_error_message e <> EmptyString ->
   GET_THE_NEXT_TOKEN (S fuel) e
   = Stop (io_error_message e) (set_io_error_message e EmptyString))
  /\ (io_error_message e = EmptyString ->
      cursor_index e <> ri (meta (io_buf e)) ->
      GET_THE_NEXT_TOKEN (S fuel) e
      = Stop "wuffs_aux::DecodeJson: internal error: bad cursor_index" e)
  /\ (io_error_message e = EmptyString ->
      cursor_index e = ri (meta (io_buf e)) ->
      closed (meta (io_buf e)) = true ->
      GET_THE_NEXT_TOKEN (S fuel) e
      = Stop "wuffs_aux::DecodeJson: internal error: io_buf is closed" e)
  /\ (io_error_message e = EmptyString ->
      cursor_index e = ri (meta (io_buf e)) ->
      closed (meta (io_buf e)) = false ->
      wi (meta b) >= data_len b ->
      GET_THE_NEXT_TOKEN (S fuel) e
      = Stop "wuffs_aux::DecodeJson: internal error: io_buf is full"
          (set_io_buf e b))
  /\ (io_error_message e = EmptyString ->
      cursor_index e = ri (meta (io_buf e)) ->
      closed (meta (io_buf e)) = false ->
      wi (meta b) < data_len b ->
      forall msg i' b' st d tb ib,
        CopyIn (input e) b = (msg, i', b') ->
        decode_tokens (dec e) (tok_buf e) b' = (st, d, tb, ib) ->
        let e' := mk_env tb st d ib msg (ri (meta b)) i' in
        refill_body e = again e'
        /\ GET_THE_NEXT_TOKEN (S fuel) e = GET_THE_NEXT_TOKEN fuel e'
        /\ (msg <> EmptyString ->
            st = suspension__short_read ->
            ri (tok_meta tb) >= wi (tok_meta tb) ->
            GET_THE_NEXT_TOKEN (S (S fuel)) e
            = Stop msg (set_io_error_message e' EmptyString)))
  /\ (forall e1 e2 : Env I D,
        tok_status e1 <> suspension__short_read ->
        (refill_body e1 = again e2 ->
         io_error_message e2 = io_error_message e1)
        /\ (forall m, refill_body e1 = goto_done m e2 ->
            m = status_message (tok_status e1)))
  /\ (forall (e1 e2 : Env I D) t p l,
        take_token e1 = Tok t p l e2 ->
        io_error_message e2 = io_error_message e1).
Proof.
  intros Hst Hemp b.
  assert (Hbody : forall f, GET_THE_NEXT_TOKEN (S f) e
            = match refill_body e with
              | goto_done msg e' => Stop msg e'
              | again e' => GET_THE_NEXT_TOKEN f e'
              end) by (intros f; apply GET_unbuffered; exact Hemp).
  repeat split.
  - intros Hmsg. rewrite Hbody. unfold refill_body. rewrite Hst.
    apply empty_false in Hmsg. rewrite Hmsg. reflexivity.
  - intros Hmsg Hci. rewrite Hbody. unfold refill_body. rewrite Hst.
    apply empty_true in Hmsg. rewrite Hmsg. simpl.
    apply Z.eqb_neq in Hci. rewrite Hci. reflexivity.
  - intros Hmsg Hci Hcl. rewrite Hbody. unfold refill_body. rewrite Hst.
    apply empty_true in Hmsg. rewrite Hmsg. simpl.
    apply Z.eqb_eq in Hci. rewrite Hci. simpl. rewrite Hcl. reflexivity.
  - intros Hmsg Hci Hcl Hfull. rewrite Hbody. unfold refill_body. rewrite Hst.
    apply empty_true in Hmsg. rewrite Hmsg. simpl.
    apply Z.eqb_eq in Hci. rewrite Hci. simpl. rewrite Hcl.
    fold b. assert (E : (wi (meta b) >=? data_len b) = true) by lia.
    rewrite E. reflexivity.
  - unfold refill_body. rewrite Hst.
    apply empty_true in H. rewrite H. simpl.
    apply Z.eqb_eq in H0. rewrite H0. simpl. rewrite H1.
    fold b. assert (E : (wi (meta b) >=? data_len b) = false) by lia.
    rewrite E, H3. unfold redecode. simpl. rewrite H4. reflexivity.
  - rewrite Hbody. unfold refill_body. rewrite Hst.
    apply empty_true in H. rewrite H. simpl.
    apply Z.eqb_eq in H0. rewrite H0. simpl. rewrite H1.
    fold b. assert (E : (wi (meta b) >=? data_len b) = false) by lia.
    rewrite E, H3. unfold redecode. simpl. rewrite H4. reflexivity.
  - intros Hmsg Hst' Hemp'.
    rewrite Hbody. unfold refill_body at 1. rewrite Hst.
    apply empty_true in H. rewrite H. simpl.
    apply Z.eqb_eq in H0. rewrite H0. simpl. rewrite H1.
    fold b. assert (E : (wi (meta b) >=? data_len b) = false) by lia.
    rewrite E, H3. unfold redecode. simpl. rewrite H4.
    rewrite GET_unbuffered by exact Hemp'.
    unfold refill_body. simpl. rewrite Hst'.
    apply empty_false in Hmsg. rewrite Hmsg. reflexivity.
  - intros Hr. unfold refill_body in Hr.
    destruct (tok_status e1) eqn:E1; try congruence;
      apply redecode_keeps_message in Hr; exact Hr.
  - intros m Hr. unfold refill_body in Hr.
    destruct (tok_status e1) eqn:E1; try congruence;
      exfalso; eapply redecode_never_stops; eauto.
  - intros e1 e2 t p l. unfold take_token.
    match goal with |- context [if ?c then _ else _] => destruct c end;
      [discriminate|].
    intros Ht. inversion Ht. reflexivity.
Qed.

(** ** The cursor *)

Section Cursor.
Context {wb : WellBehaved inp jd}.

Lemma redecode_ok (e : Env I D) (r : refilled I D) :
  env_ok e -> redecode e = r ->
  exists e', r = again e' /\ env_ok e' /\ position_of e' = position_of e
             /\ cursor_index e' = cursor_index e.
Proof.
  intros (Hio & Htb & Hci) Hr. unfold redecode in Hr. simpl in Hr.
  destruct (decode_tokens (dec e) (tok_buf e) (io_buf e))
    as [[[st d] tb] ib] eqn:E.
  destruct (decode_tokens_ok _ _ _ _ _ _ _ E Hio Htb) as (Hio' & Htb' & Hpos).
  eexists. split; [symmetry; exact Hr|].
  unfold env_ok, position_of. simpl. rewrite Hpos. auto.
Qed.

(** One pass through the body of the [while] keeps the state valid and the
    stream position of the cursor. *)
Lemma refill_body_ok (e : Env I D) :
  env_ok e ->
  match refill_body e with
  | goto_done _ e' | again e' => env_ok e' /\ position_of e' = position_of e
  end.
Proof.
  intros He. pose proof He as (Hio & Htb & Hci).
  unfold refill_body. destruct (tok_status e).
  - destruct (redecode_ok e _ He eq_refl) as (e' & -> & H1 & H2 & _). auto.
  - destruct (negb (empty (io_error_message e))); [auto|].
    destruct (negb (cursor_index e =? ri (meta (io_buf e)))) eqn:Eci; [auto|].
    destruct (closed (meta (io_buf e))); [auto|].
    apply negb_false_iff, Z.eqb_eq in Eci.
    destruct (io_buffer__compact_ok _ Hio)
      as (Hio' & Hri' & Hwi' & Hpos' & Hcl' & Hlen').
    set (b := wuffs_base__io_buffer__compact (io_buf e)) in *.
    destruct (wi (meta b) >=? data_len b) eqn:Efull.
    + (* full: the buffer had nothing to give up, so nothing moved *)
      assert (Hri0 : ri (meta (io_buf e)) = 0).
      { destruct Hio as (? & ? & ? & ?). lia. }
      split.
      * unfold env_ok. simpl. auto.
      * unfold position_of. simpl. rewrite Hpos', Hri0, Eci, Hri0.
        rewrite !sat_add_0_r; [reflexivity | |];
          destruct Hio as (? & ? & ? & ?);
          try apply sat_add_range; lia.
    + destruct (CopyIn (input e) b) as [[msg i'] b'] eqn:Ecopy.
      destruct (CopyIn_ok _ _ _ _ _ Ecopy Hio') as (Hio'' & Hpos'').
      match goal with
      | |- match redecode ?e1 with _ => _ end =>
          assert (He1 : env_ok e1)
            by (unfold env_ok; simpl; repeat split;
                try apply Hio''; try apply Htb; lia);
          destruct (redecode_ok e1 _ He1 eq_refl) as (e' & -> & H1 & H2 & _)
      end.
      split; [exact H1|]. rewrite H2. unfold position_of. simpl.
      rewrite Hpos'', Hpos', Hri', Eci.
      apply sat_add_0_r. apply sat_add_range; destruct Hio as (? & ? & ? & ?); lia.
  - match goal with
    | |- match redecode ?e1 with _ => _ end =>
        assert (He1 : env_ok e1)
          by (unfold env_ok; simpl; repeat split;
              try apply Hio; try apply token_buffer__compact_ok;
              try exact Htb; lia);
        destruct (redecode_ok e1 _ He1 eq_refl) as (e' & -> & H1 & H2 & _)
    end.
    auto.
  - auto.
Qed.

Lemma refill_ok (fuel : nat) (e : Env I D) :
  env_ok e ->
  match refill fuel e with
  | Some (goto_done _ e') => env_ok e' /\ position_of e' = position_of e
  | Some (again e') =>
      env_ok e' /\ position_of e' = position_of e
      /\ ri (tok_meta (tok_buf e')) < wi (tok_meta (tok_buf e'))
  | None => True
  end.
Proof.
  revert e. induction fuel as [|fuel IH]; intros e He; simpl.
  - destruct (ri (tok_meta (tok_buf e)) >=? wi (tok_meta (tok_buf e))) eqn:E;
      [exact Logic.I|]. repeat split; try apply He; lia.
  - destruct (ri (tok_meta (tok_buf e)) >=? wi (tok_meta (tok_buf e))) eqn:E;
      [|repeat split; try apply He; lia].
    pose proof (refill_body_ok e He) as Hb.
    destruct (refill_body e) as [msg e1|e1]; [exact Hb|].
    destruct Hb as [He1 Hp1]. specialize (IH e1 He1).
    destruct (refill fuel e1) as [[msg e2|e2]|]; [| |exact Logic.I].
    + destruct IH. split; [assumption|congruence].
    + destruct IH as (? & ? & ?).
      split; [assumption | split; [congruence | assumption]].
Qed.

(** Taking a token out of a valid state with tokens to take. *)
Lemma take_token_ok (e : Env I D) :
  env_ok e -> ri (tok_meta (tok_buf e)) < wi (tok_meta (tok_buf e)) ->
  match take_token e with
  | Stop _ e' => env_ok e' /\ position_of e' = position_of e
  | Tok t p l e' =>
      env_ok e'
      /\ t = nth (Z.to_nat (ri (tok_meta (tok_buf e)))) (tok_data (tok_buf e))
               Token.zero
      /\ p = cursor_index e /\ l = Token.length t /\ 0 <= l
      /\ cursor_index e' = cursor_index e + Token.length t
      /\ cursor_index e' <= ri (meta (io_buf e'))
      /\ io_buf e' = io_buf e
      /\ position_of e' = wuffs_base__u64__sat_add (position_of e) l
      /\ unget e' l = e
      /\ ri (tok_meta (tok_buf e')) = ri (tok_meta (tok_buf e)) + 1
  | Diverges => False
  end.
Proof.
  intros (Hio & Htb & Hci) Hlt.
  destruct Hio as (Hri & Hwi & Hlen & Hpos).
  destruct Htb as (Htri & Htwi & Htlen & Hall).
  assert (Hri1 : u64 (ri (tok_meta (tok_buf e)) + 1)
                 = ri (tok_meta (tok_buf e)) + 1) by (apply u64_id; lia).
  set (t := nth (Z.to_nat (ri (tok_meta (tok_buf e)))) (tok_data (tok_buf e))
              Token.zero).
  assert (Ht : 0 <= Token.length t).
  { unfold t. destruct (nth_in_or_default (Z.to_nat (ri (tok_meta (tok_buf e))))
                          (tok_data (tok_buf e)) Token.zero) as [Hin | ->].
    - revert Hin. generalize (nth (Z.to_nat (ri (tok_meta (tok_buf e))))
                                (tok_data (tok_buf e)) Token.zero).
      apply Forall_forall. exact Hall.
    - simpl. lia. }
  unfold take_token. fold t. simpl.
  destruct ((ri (meta (io_buf e)) <? cursor_index e)
            || (u64 (ri (meta (io_buf e)) - cursor_index e) <? Token.length t))
    eqn:Echeck.
  - split; [|reflexivity].
    unfold env_ok, io_buffer_ok, token_buffer_ok. simpl.
    rewrite Hri1. repeat split; try assumption; lia.
  - apply orb_false_iff in Echeck. destruct Echeck as [E1 E2].
    assert (E3 : u64 (ri (meta (io_buf e)) - cursor_index e)
                 = ri (meta (io_buf e)) - cursor_index e)
      by (apply u64_id; lia).
    rewrite E3 in E2.
    assert (Hci' : u64 (cursor_index e + Token.length t)
                   = cursor_index e + Token.length t) by (apply u64_id; lia).
    rewrite Hci'.
    repeat split; simpl; try assumption; try lia.
    + unfold position_of. simpl. symmetry. apply sat_add_assoc; lia.
    + unfold unget, set_cursor_index, set_tok_buf, set_tok_ri. simpl.
      rewrite Hri1.
      replace (ri (tok_meta (tok_buf e)) + 1 - 1)
        with (ri (tok_meta (tok_buf e))) by lia.
      replace (cursor_index e + Token.length t - Token.length t)
        with (cursor_index e) by lia.
      rewrite !u64_id by lia.
      destruct e as [tb st d ib msg ci i]. simpl.
      destruct tb as [td tm]. destruct tm. reflexivity.
Qed.

(** The macro as a whole: it keeps the state valid, and a token moves the
    stream position of the cursor on by its length, whatever was compacted
    or read on the way to it. *)
Lemma GET_ok (fuel : nat) (e : Env I D) :
  env_ok e ->
  match GET_THE_NEXT_TOKEN fuel e with
  | Stop _ e' => env_ok e' /\ position_of e' = position_of e
  | Tok t p l e' =>
      env_ok e' /\ l = Token.length t /\ 0 <= l
      /\ position_of e' = wuffs_base__u64__sat_add (position_of e) l
      /\ env_ok (unget e' l)
      /\ position_of (unget e' l) = position_of e
      /\ exists e0, refill fuel e = Some (again e0)
                    /\ take_token e0 = Tok t p l e'
                    /\ unget e' l = e0
                    /\ p = cursor_index e0
                    /\ cursor_index e' = cursor_index e0 + Token.length t
                    /\ ri (tok_meta (tok_buf e'))
                       = ri (tok_meta (tok_buf e0)) + 1
                    /\ ri (tok_meta (tok_buf e0))
                       < wi (tok_meta (tok_buf e0))
  | Diverges => True
  end.
Proof.
  intros He. unfold GET_THE_NEXT_TOKEN.
  pose proof (refill_ok fuel e He) as Hr.
  destruct (refill fuel e) as [[msg e0|e0]|]; [exact Hr| |exact Logic.I].
  destruct Hr as (He0 & Hp0 & Hlt).
  pose proof (take_token_ok e0 He0 Hlt) as Ht.
  destruct (take_token e0) as [msg e'|t p l e'|] eqn:Etake.
  - destruct Ht. split; [assumption|congruence].
  - destruct Ht as (H1 & H2 & H3 & H4 & H5 & H6 & H7 & H8 & H9 & H10 & H11).
    rewrite H10. splits; try assumption; try congruence.
    exists e0. splits; try assumption; congruence.
  - contradiction.
Qed.

(** C1 (amended): a token taken by the macro moves cursor_index on by exactly
    its length, and the stream position of the cursor (the saturating sum of
    io_buf's pos and cursor_index) by as much, whatever was compacted on the
    way; when the refill loop compacts io_buf, pos becomes the saturating
    sum of the old pos and the old ri (their plain sum when that fits 64
    bits), cursor_index is the new ri, and the saturating sum of pos and
    cursor_index is unchanged (the plain sum too when it fits); the
    cursor_position of the result that DecodeJson assembles at [done] and
    hands to Done is the saturating sum of io_buf's pos and cursor_index
    where processing stopped, and it is what DecodeJson returns when Done
    leaves the result alone. *)
Theorem cursor_bookkeeping (e : Env I D) (fuel : nat) :
  env_ok e ->
  (forall t p l e',
     GET_THE_NEXT_TOKEN fuel e = Tok t p l e' ->
     exists e0,
       refill fuel e = Some (again e0)
       /\ p = cursor_index e0 /\ l = Token.length t
       /\ cursor_index e' = cursor_index e0 + Token.length t
       /\ position_of e'
          = wuffs_base__u64__sat_add (position_of e) (Token.length t))
  /\ (tok_status e = suspension__short_read ->
      io_error_message e = EmptyString ->
      cursor_index e = ri (meta (io_buf e)) ->
      closed (meta (io_buf e)) = false ->
      let b := wuffs_base__io_buffer__compact (io_buf e) in
      pos (meta b)
      = wuffs_base__u64__sat_add (pos (meta (io_buf e))) (ri (meta (io_buf e)))
      /\ (pos (meta (io_buf e)) + ri (meta (io_buf e)) <= u64_max ->
          pos (meta b) = pos (meta (io_buf e)) + ri (meta (io_buf e))
          /\ pos (meta b) + ri (meta b)
             = pos (meta (io_buf e)) + cursor_index e)
      /\ match refill_body e with
         | goto_done _ e' => io_buf e' = b /\ cursor_index e' = ri (meta b)
         | again e' =>
             cursor_index e' = ri (meta b)
             /\ pos (meta (io_buf e')) = pos (meta b)
         end
      /\ match refill_body e with
         | goto_done _ e' | again e' => position_of e' = position_of e
         end)
  /\ (forall c i quirks json_pointer r,
        DecodeJson fuel c i quirks json_pointer = Some r ->
        exists s,
          decode fuel c i quirks json_pointer = Some s
          /\ cursor_position (assembled_result s)
             = wuffs_base__u64__sat_add (pos (meta (stop_io_buf s)))
                 (stop_cursor_index s)
          /\ r = Done (stop_callbacks s) (assembled_result s) (stop_input s)
                   (stop_io_buf s)
          /\ ((forall c' r' i' b', result_of (Done c' r' i' b') = r') ->
              cursor_position (result_of r)
              = wuffs_base__u64__sat_add (pos (meta (stop_io_buf s)))
                  (stop_cursor_index s))).
Proof.
  intros He. splits.
  - intros t p l e' Hget. pose proof (GET_ok fuel e He) as Hok.
    rewrite Hget in Hok.
    destruct Hok
      as (_ & Hl & _ & Hpos & _ & _ & e0 & Hr & _ & _ & Hp & Hci & _).
    exists e0. splits; try assumption. congruence.
  - intros Hst Hmsg Hci Hcl b.
    pose proof He as (Hio & Htb & Hci0).
    destruct (io_buffer__compact_ok _ Hio)
      as (Hio' & Hri' & Hwi' & Hpos' & Hcl' & Hlen').
    fold b in Hio', Hri', Hwi', Hpos', Hcl', Hlen'.
    splits.
    + exact Hpos'.
    + intros Hfit. rewrite Hpos', Hri', Hci.
      rewrite sat_add_exact by assumption. lia.
    + unfold refill_body. rewrite Hst.
      apply empty_true in Hmsg. rewrite Hmsg. simpl.
      assert (Eci : (cursor_index e =? ri (meta (io_buf e))) = true) by lia.
      rewrite Eci, Hcl. simpl. fold b.
      destruct (wi (meta b) >=? data_len b) eqn:Efull.
      * simpl. split; [reflexivity|].
        destruct Hio as (? & ? & ? & ?). lia.
      * destruct (CopyIn (input e) b) as [[msg i'] b'] eqn:Ecopy.
        destruct (CopyIn_ok _ _ _ _ _ Ecopy Hio') as (Hio'' & Hpos'').
        unfold redecode. simpl.
        destruct (decode_tokens (dec e) (tok_buf e) b')
          as [[[st d] tb] ib] eqn:Edec.
        destruct (decode_tokens_ok _ _ _ _ _ _ _ Edec Hio'' Htb)
          as (_ & _ & Hpos3).
        simpl. split; [reflexivity | congruence].
    + pose proof (refill_body_ok e He) as Hb.
      destruct (refill_body e); apply Hb.
  - intros c i quirks json_pointer r Hrun. unfold DecodeJson in Hrun.
    destruct (decode fuel c i quirks json_pointer) as [s|]; [|discriminate].
    exists s. inversion Hrun; subst. splits; try reflexivity.
    intros Hleaves. unfold done. rewrite Hleaves. reflexivity.
Qed.

End Cursor.

(** ** Numbers *)

(** C6: for a Number token with FORMAT_TEXT, AppendI64 gets the value of
    parse_i64 when CONTENT_INTEGER_SIGNED is set and parse_i64 succeeds;
    only when that did not happen, AppendF64 gets the value of parse_f64
    when CONTENT_FLOATING_POINT is set and parse_f64 succeeds, so a source
    that both parsers accept goes to AppendI64.  Without FORMAT_TEXT, the
    first set bit of NEG_INF, POS_INF, NEG_NAN, POS_NAN selects AppendF64 of
    the bit pattern 0xFFF0000000000000, 0x7FF0000000000000,
    0xFFFFFFFFFFFFFFFF, 0x7FFFFFFFFFFFFFFF.  In every other case no callback
    is called and the main loop leaves for [done] with "internal error:
    unexpected token"; in the cases above the callback's result goes to
    [parsed_a_value]. *)
Theorem number_dispatch (c : C) (b : wuffs_base__io_buffer)
    (vbd token_ptr token_len : Z) :
  let src := token_bytes b token_ptr token_len in
  let i64 := wuffs_base__parse_number_i64 src in
  let f64 := wuffs_base__parse_number_f64 src in
  let text := has_bit vbd VBD__NUMBER__FORMAT_TEXT in
  let try_i64 := has_bit vbd VBD__NUMBER__CONTENT_INTEGER_SIGNED in
  let try_f64 := has_bit vbd VBD__NUMBER__CONTENT_FLOATING_POINT in
  let number := number_token c b vbd token_ptr token_len in
  (text = true -> try_i64 = true -> is_ok (fst i64) = true ->
   number = Some (AppendI64 c (snd i64)))
  /\ (text = true -> try_i64 && is_ok (fst i64) = false ->
      try_f64 = true -> is_ok (fst f64) = true ->
      number = Some (AppendF64 c (snd f64)))
  /\ (text = true -> try_i64 && is_ok (fst i64) = false ->
      try_f64 && is_ok (fst f64) = false ->
      number = None)
  /\ (text = false -> has_bit vbd VBD__NUMBER__CONTENT_NEG_INF = true ->
      number = Some (AppendF64 c 0xFFF0000000000000))
  /\ (text = false -> has_bit vbd VBD__NUMBER__CONTENT_NEG_INF = false ->
      has_bit vbd VBD__NUMBER__CONTENT_POS_INF = true ->
      number = Some (AppendF64 c 0x7FF0000000000000))
  /\ (text = false -> has_bit vbd VBD__NUMBER__CONTENT_NEG_INF = false ->
      has_bit vbd VBD__NUMBER__CONTENT_POS_INF = false ->
      has_bit vbd VBD__NUMBER__CONTENT_NEG_NAN = true ->
      number = Some (AppendF64 c 0xFFFFFFFFFFFFFFFF))
  /\ (text = false -> has_bit vbd VBD__NUMBER__CONTENT_NEG_INF = false ->
      has_bit vbd VBD__NUMBER__CONTENT_POS_INF = false ->
      has_bit vbd VBD__NUMBER__CONTENT_NEG_NAN = false ->
      has_bit vbd VBD__NUMBER__CONTENT_POS_NAN = true ->
      number = Some (AppendF64 c 0x7FFFFFFFFFFFFFFF))
  /\ (text = false -> has_bit vbd VBD__NUMBER__CONTENT_NEG_INF = false ->
      has_bit vbd VBD__NUMBER__CONTENT_POS_INF = false ->
      has_bit vbd VBD__NUMBER__CONTENT_NEG_NAN = false ->
      has_bit vbd VBD__NUMBER__CONTENT_POS_NAN = false ->
      number = None)
  /\ (forall fuel e token e' depth str continued,
        GET_THE_NEXT_TOKEN fuel e
        = Tok token token_ptr token_len e' ->
        token = Token.mk VBC__NUMBER vbd continued token_len ->
        io_buf e' = b ->
        main_loop (S fuel) e depth str c
        = match number with
          | None => Finished fail_message e' c
          | Some (ret, c') =>
              if negb (empty ret) || (depth =? 0) then Finished ret e' c'
              else main_loop fuel e' depth str c'
          end).
Proof.
  intros src i64 f64 text try_i64 try_f64 number.
  assert (Hloop : forall fuel e token e' depth str continued,
            GET_THE_NEXT_TOKEN fuel e = Tok token token_ptr token_len e' ->
            token = Token.mk VBC__NUMBER vbd continued token_len ->
            io_buf e' = b ->
            main_loop (S fuel) e depth str c
            = match number with
              | None => Finished fail_message e' c
              | Some (ret, c') =>
                  if negb (empty ret) || (depth =? 0) then Finished ret e' c'
                  else main_loop fuel e' depth str c'
              end).
  { intros fuel e token e' depth str continued Hget -> Hb. simpl.
    rewrite Hget, Hb. unfold process_token. simpl. fold number.
    destruct number as [[ret c']|]; [|reflexivity].
    unfold parsed_a_value.
    destruct (negb (empty ret) || (depth =? 0)); reflexivity. }
  splits; try exact Hloop; clear Hloop;
    subst number text try_i64 try_f64 i64 f64;
    unfold number_token,
      wuffs_base__ieee_754_bit_representation__from_u64_to_f64;
    fold src;
    destruct (wuffs_base__parse_number_i64 src) as [st v];
    destruct (wuffs_base__parse_number_f64 src) as [st' v']; simpl.
  - intros -> -> ->. reflexivity.
  - intros -> Hi -> ->.
    destruct (has_bit vbd VBD__NUMBER__CONTENT_INTEGER_SIGNED);
      simpl in Hi; [rewrite Hi|]; reflexivity.
  - intros -> Hi Hf.
    destruct (has_bit vbd VBD__NUMBER__CONTENT_INTEGER_SIGNED);
      simpl in Hi; [rewrite Hi|];
      (destruct (has_bit vbd VBD__NUMBER__CONTENT_FLOATING_POINT);
       simpl in Hf; [rewrite Hf|]; reflexivity).
  - intros -> ->. reflexivity.
  - intros -> -> ->. reflexivity.
  - intros -> -> -> ->. reflexivity.
  - intros -> -> -> -> ->. reflexivity.
  - intros -> -> -> -> ->. reflexivity.
Qed.

(** ** JSON Pointers *)

Section Pointers.
Import PointerSpec.

Lemma append_nil_r (s : string) : (s ++ EmptyString)%string = s.
Proof. induction s as [|c s IH]; simpl; [reflexivity | now rewrite IH]. Qed.

Lemma append_assoc (s1 s2 s3 : string) :
  ((s1 ++ s2) ++ s3)%string = (s1 ++ (s2 ++ s3))%string.
Proof. induction s1 as [|c s1 IH]; simpl; [reflexivity | now rewrite IH]. Qed.

Lemma push_back_append (s : string) (c : ascii) (t : string) :
  (push_back s c ++ t)%string = (s ++ String c t)%string.
Proof. unfold push_back. rewrite append_assoc. reflexivity. Qed.

Lemma drop_lt (s : string) (i : nat) :
  (i < String.length s)%nat ->
  drop i s = String (char_at s i) (drop (S i) s).
Proof.
  revert s. induction i as [|i IH]; intros [|c s] Hlt; simpl in *; try lia.
  - reflexivity.
  - rewrite IH by lia. unfold char_at. simpl. reflexivity.
Qed.

Lemma drop_ge (s : string) (i : nat) :
  (String.length s <= i)%nat -> drop i s = EmptyString.
Proof.
  revert s. induction i as [|i IH]; intros [|c s] Hle; simpl in *;
    try reflexivity; try lia.
  apply IH. lia.
Qed.

Lemma drop_drop (s : string) (i j : nat) : drop j (drop i s) = drop (i + j) s.
Proof.
  revert s. induction i as [|i IH]; intros s; simpl; [reflexivity|].
  destruct s as [|c s]; [|apply IH]. destruct j; reflexivity.
Qed.

#[local] Arguments drop : simpl never.

(** The loop of [DecodeJson_SplitJsonPointer], given passes enough to reach
    the end of [s], against the words of the specification. *)
Lemma SplitJsonPointer_loop_spec (passes : nat) (s fragment : string)
    (i : nat) :
  (String.length s <= passes + i)%nat ->
  SplitJsonPointer_loop passes s fragment i
  = let seg := segment (drop i s) in
    if bad_tilde seg then (EmptyString, O)
    else ((fragment ++ unescape seg)%string, (i + String.length seg)%nat).
Proof.
  revert s fragment i. induction passes as [|p IH]; intros s fr i Hlen.
  - simpl. rewrite drop_ge by lia. simpl.
    rewrite append_nil_r, Nat.add_0_r. reflexivity.
  - cbn [SplitJsonPointer_loop].
    destruct (i <? String.length s)%nat eqn:Ei.
    + apply Nat.ltb_lt in Ei. rewrite (drop_lt s i Ei).
      set (c := char_at s i). cbn [segment].
      destruct (c =? "/")%char eqn:Esl.
      { simpl. rewrite append_nil_r, Nat.add_0_r. reflexivity. }
      destruct (c =? "~")%char eqn:Eti; cbn [negb].
      * apply Ascii.eqb_eq in Eti. rewrite Nat.add_1_r.
        destruct (String.length s <=? S i)%nat eqn:Ee.
        { apply Nat.leb_le in Ee. rewrite (drop_ge s (S i)) by lia.
          rewrite Eti. reflexivity. }
        apply Nat.leb_gt in Ee. rewrite (drop_lt s (S i)) by lia.
        set (c2 := char_at s (S i)). rewrite Nat.add_1_r.
        destruct (c2 =? "0")%char eqn:E0.
        { apply Ascii.eqb_eq in E0. rewrite IH by lia.
          rewrite Eti, E0. cbn. rewrite push_back_append.
          destruct (bad_tilde (segment (drop (S (S i)) s)));
            [reflexivity|]. f_equal. lia. }
        destruct (c2 =? "1")%char eqn:E1.
        { apply Ascii.eqb_eq in E1. rewrite IH by lia.
          rewrite Eti, E1. cbn. rewrite push_back_append.
          destruct (bad_tilde (segment (drop (S (S i)) s)));
            [reflexivity|]. f_equal. lia. }
        rewrite Eti. cbn [segment].
        destruct (c2 =? "/")%char; cbn; [reflexivity|].
        rewrite E0, E1. reflexivity.
      * rewrite IH by lia. rewrite Nat.add_1_r. cbn [bad_tilde unescape].
        rewrite Eti. cbn [andb orb]. rewrite push_back_append.
        destruct (bad_tilde (segment (drop (S i) s))); [reflexivity|].
        cbn [String.length]. f_equal. lia.
    + apply Nat.ltb_ge in Ei. rewrite drop_ge by lia. simpl.
      rewrite append_nil_r, Nat.add_0_r. reflexivity.
Qed.

Lemma SplitJsonPointer_spec (s : string) (i : nat) :
  DecodeJson_SplitJsonPointer s i
  = let seg := segment (drop i s) in
    if bad_tilde seg then (EmptyString, O)
    else (unescape seg, (i + String.length seg)%nat).
Proof.
  unfold DecodeJson_SplitJsonPointer.
  rewrite SplitJsonPointer_loop_spec by lia. reflexivity.
Qed.

End Pointers.

Section PointerWalk.
Import PointerSpec.
#[local] Arguments drop : simpl never.

Lemma split_on_slash_segment (s : string) :
  split_on_slash s
  = segment s
      :: match drop (String.length (segment s)) s with
         | EmptyString => []
         | String _ rest => split_on_slash rest
         end.
Proof.
  induction s as [|c s IH]; [reflexivity|]. cbn [split_on_slash segment].
  destruct (c =? "/")%char; [reflexivity|].
  rewrite IH. reflexivity.
Qed.

Lemma drop_segment (s : string) :
  drop (String.length (segment s)) s = EmptyString
  \/ exists rest, drop (String.length (segment s)) s = String "/" rest.
Proof.
  induction s as [|c s IH]; [left; reflexivity|]. cbn [segment].
  destruct (c =? "/")%char eqn:E.
  - apply Ascii.eqb_eq in E. subst c. right. exists s. reflexivity.
  - exact IH.
Qed.

Lemma walk_json_pointer_from (fuel : nat) (e : Env I D) (s : string)
    (i : nat) :
  (drop i s = EmptyString ->
   walk_json_pointer fuel e s i = walk_raw_fragments fuel e [])
  /\ (forall rest, drop i s = String "/" rest ->
      walk_json_pointer fuel e s i
      = walk_raw_fragments fuel e (split_on_slash rest)).
Proof.
  revert e i. induction fuel as [|f IH]; intros e i; [split; reflexivity|].
  split.
  - intros Hend. cbn [walk_json_pointer walk_raw_fragments].
    destruct (i <? String.length s)%nat eqn:Ei; [|reflexivity].
    apply Nat.ltb_lt in Ei. rewrite (drop_lt s i Ei) in Hend. discriminate.
  - intros rest Hrest. cbn [walk_json_pointer walk_raw_fragments].
    destruct (i <? String.length s)%nat eqn:Ei.
    2:{ apply Nat.ltb_ge in Ei. rewrite drop_ge in Hrest by lia.
        discriminate. }
    apply Nat.ltb_lt in Ei. rewrite (drop_lt s i Ei) in Hrest.
    inversion Hrest as [[Hc Hr]]. rewrite Hc. cbn [Ascii.eqb negb].
    change (("/" =? "/")%char) with true. cbn [negb].
    rewrite SplitJsonPointer_spec. rewrite Nat.add_1_r, Hr. cbn zeta.
    rewrite (split_on_slash_segment rest).
    destruct (bad_tilde (segment rest)) eqn:Ebad; [reflexivity|].
    cbn [fst snd].
    destruct (S i + String.length (segment rest) =? 0)%nat eqn:E0;
      [apply Nat.eqb_eq in E0; lia|].
    destruct (DecodeJson_WalkJsonPointerFragment f e (unescape (segment rest)))
      as [msg e'|]; [|reflexivity].
    destruct (negb (empty msg)); [reflexivity|].
    assert (Hd : drop (S i + String.length (segment rest)) s
                 = drop (String.length (segment rest)) rest).
    { rewrite <- Hr. rewrite drop_drop. reflexivity. }
    destruct (drop_segment rest) as [Hnil | [rest' Hsl]].
    + rewrite Hnil. apply IH. rewrite Hd. exact Hnil.
    + rewrite Hsl. apply IH. rewrite Hd. exact Hsl.
Qed.

(** C7 (amended): [DecodeJson_SplitJsonPointer], on the fragment that starts
    at [i] and runs to the next [/] or the end of [s], returns ("", 0) when
    the fragment has a [~] that is not followed by [0] or [1], and else the
    fragment with [~0] replaced by [~] and [~1] by [/] together with the
    index of the next unread byte, which is the end of [s] or a [/]; for
    [i >= 1], as [DecodeJson] calls it, the index is 0 only in the first
    case.  [DecodeJson] takes the fragments in turn, checking each only when
    the ones before it have been walked without a message: it leaves with
    "bad JSON Pointer" at once when the pointer is not empty and does not
    begin with [/], and else when the walk reaches a fragment with such a
    [~]; a message from walking an earlier fragment comes first. *)
Theorem json_pointer_syntax (s : string) (i : nat) :
  let seg := segment (drop i s) in
  (bad_tilde seg = true ->
   DecodeJson_SplitJsonPointer s i = (EmptyString, O))
  /\ (bad_tilde seg = false ->
      DecodeJson_SplitJsonPointer s i
      = (unescape seg, (i + String.length seg)%nat)
      /\ (drop (i + String.length seg) s = EmptyString
          \/ exists rest,
               drop (i + String.length seg) s = String "/" rest))
  /\ ((1 <= i)%nat ->
      (snd (DecodeJson_SplitJsonPointer s i) = O <-> bad_tilde seg = true))
  /\ (forall fuel (e : Env I D),
        walk_json_pointer fuel e s 0
        = match raw_fragments s with
          | Some raw => walk_raw_fragments fuel e raw
          | None =>
              match fuel with
              | O => WalkDiverges
              | S _ => Return DecodeJson_BadJsonPointer e
              end
          end)
  /\ (forall fuel (c : C) (input0 : I) quirks d,
        alloc = Some d ->
        raw_fragments s = None ->
        decode (S fuel) c input0 quirks s
        = Some (mk_stopped DecodeJson_BadJsonPointer
                  match BringsItsOwnIOBuffer input0 with
                  | Some b => b
                  | None => fallback_io_buf
                  end 0 c input0)).
Proof.
  intros seg.
  assert (Hwalk : forall fuel (e : Env I D),
            walk_json_pointer fuel e s 0
            = match raw_fragments s with
              | Some raw => walk_raw_fragments fuel e raw
              | None =>
                  match fuel with
                  | O => WalkDiverges
                  | S _ => Return DecodeJson_BadJsonPointer e
                  end
              end).
  { intros fuel e. destruct s as [|c s']; cbn [raw_fragments].
    - apply (walk_json_pointer_from fuel e EmptyString 0). reflexivity.
    - destruct (c =? "/")%char eqn:Ec.
      + apply Ascii.eqb_eq in Ec. subst c.
        apply (walk_json_pointer_from fuel e (String "/" s') 0).
        reflexivity.
      + destruct fuel; [reflexivity|]. cbn. rewrite Ec. reflexivity. }
  splits.
  - intros Hbad. rewrite SplitJsonPointer_spec. fold seg. cbn zeta.
    rewrite Hbad. reflexivity.
  - intros Hok. rewrite SplitJsonPointer_spec. fold seg. cbn zeta.
    rewrite Hok. split; [reflexivity|].
    rewrite <- drop_drop. apply drop_segment.
  - intros Hi. rewrite SplitJsonPointer_spec. fold seg. cbn zeta.
    destruct (bad_tilde seg); cbn [snd]; split; intros; try reflexivity;
      try discriminate; lia.
  - exact Hwalk.
  - intros fuel c input0 quirks d Hd Hraw. unfold decode.
    rewrite Hd, Hwalk, Hraw. reflexivity.
Qed.

End PointerWalk.

(** ** The calls of the main loop *)

Section Calls.

Lemma assemble_string_token_done (fuel : nat) (b : wuffs_base__io_buffer)
    (vbd p l : Z) (str msg str' : string) :
  assemble_string_token fuel b vbd p l str = asm_done msg str' ->
  msg <> EmptyString.
Proof.
  unfold assemble_string_token.
  destruct (has_bit vbd VBD__STRING__CONVERT_0_DST_1_SRC_DROP);
    [discriminate|].
  destruct (has_bit vbd VBD__STRING__CONVERT_1_DST_1_SRC_COPY);
    [discriminate|].
  destruct (has_bit vbd VBD__STRING__CONVERT_1_DST_4_SRC_BACKSLASH_X);
    [|discriminate].
  destruct (DecodeJson_DecodeBackslashX fuel str (token_bytes b p l))
    as [[m s]|]; [|discriminate].
  destruct (negb (empty m)) eqn:E; [|discriminate].
  intros H. inversion H; subst. apply empty_false.
  apply negb_true_iff. exact E.
Qed.

(** A completed value whose call was recorded, at [parsed_a_value]. *)
Lemma parsed_a_value_events (log : list Event) (mk : string -> Event)
    (r : string * C) (depth d' : Z) (str : string) :
  (forall ret, is_Done (mk ret) = false /\ completes (mk ret) = true
               /\ ret_of (mk ret) = ret /\ depth_step depth (mk ret) = d') ->
  match parsed_a_value (record log mk r) d' str with
  | next_iteration d s (c', log') =>
      exists ev, log' = log ++ [ev] /\ goes_on depth [ev]
                 /\ d = depth_step depth ev
  | goto_done_with msg (c', log') =>
      exists ev, log' = log ++ [ev] /\ ends_loop depth ev msg
  | process_diverges => True
  end.
Proof.
  intros Hmk. destruct r as [ret c']. unfold parsed_a_value, record.
  cbn [fst snd]. destruct (Hmk ret) as (H1 & H2 & H3 & H4).
  destruct (empty ret) eqn:Eret; cbn [negb orb].
  - apply empty_true in Eret. destruct (d' =? 0) eqn:E0.
    + exists (mk ret). unfold ends_loop. rewrite H2, H4. splits; auto.
      right. lia.
    + exists (mk ret). cbn [goes_on]. rewrite H4. splits; auto.
      * congruence.
      * intros _. lia.
  - apply empty_false in Eret. exists (mk ret). unfold ends_loop.
    rewrite H2. splits; auto.
Qed.

(** The calls that [number_token] makes. *)
Lemma number_token_events (c : C) (log : list Event)
    (b : wuffs_base__io_buffer) (vbd p l : Z) (r : string * (C * list Event)) :
  number_token (cbs := Recorded cbs) (c, log) b vbd p l = Some r ->
  exists (mk : string -> Event) (r0 : string * C),
    r = record log mk r0
    /\ forall depth ret,
         is_Done (mk ret) = false /\ completes (mk ret) = true
         /\ ret_of (mk ret) = ret /\ depth_step depth (mk ret) = depth.
Proof.
  unfold number_token.
  destruct (wuffs_base__parse_number_i64 (token_bytes b p l)) as [st v].
  destruct (wuffs_base__parse_number_f64 (token_bytes b p l)) as [st' v'].
  repeat match goal with
         | |- context [if ?x then _ else _] => destruct x
         end;
    intros Hr; inversion Hr; subst; cbn;
    first [ exists (EvAppendI64 v); eexists; split; [reflexivity|]; auto
          | eexists (EvAppendF64 _); eexists; split; [reflexivity|]; auto ].
Qed.

(** What processing one token adds to the log of a recorder, and how it
    moves [depth]. *)
Lemma process_token_events (fuel : nat) (b : wuffs_base__io_buffer)
    (t : Token.t) (p l depth : Z) (str : string) (c : C) (log : list Event) :
  match process_token (cbs := Recorded cbs) fuel b t p l depth str (c, log) with
  | next_iteration d s (c', log') =>
      (log' = log /\ d = depth)
      \/ (exists ev, log' = log ++ [ev] /\ goes_on depth [ev]
                     /\ d = depth_step depth ev)
  | goto_done_with msg (c', log') =>
      (log' = log /\ msg <> EmptyString)
      \/ (exists ev, log' = log ++ [ev] /\ ends_loop depth ev msg)
  | process_diverges => True
  end.
Proof.
  pose proof (fun mk r d s => parsed_a_value_events log mk r depth d s) as Hpv.
  assert (Hvalue : forall mk (r : string * C) d s,
            (forall ret, is_Done (mk ret) = false /\ completes (mk ret) = true
                         /\ ret_of (mk ret) = ret
                         /\ depth_step depth (mk ret) = d) ->
            match parsed_a_value (record log mk r) d s with
            | next_iteration d s (c', log') =>
                (log' = log /\ d = depth)
                \/ (exists ev, log' = log ++ [ev] /\ goes_on depth [ev]
                               /\ d = depth_step depth ev)
            | goto_done_with msg (c', log') =>
                (log' = log /\ msg <> EmptyString)
                \/ (exists ev, log' = log ++ [ev] /\ ends_loop depth ev msg)
            | process_diverges => True
            end).
  { intros mk r d s Hmk. specialize (Hpv mk r d s Hmk).
    destruct (parsed_a_value (record log mk r) d s)
      as [d0 s0 [c' log']|m [c' log']|]; auto. }
  clear Hpv. unfold process_token.
  destruct (Token.value_base_category t =? VBC__FILLER); [left; auto|].
  destruct (Token.value_base_category t =? VBC__STRUCTURE).
  { destruct (has_bit (Token.value_base_detail t) VBD__STRUCTURE__PUSH).
    - cbn [Push Recorded fst snd]. unfold record.
      destruct (Push c (u32 (Token.value_base_detail t))) as [ret c'].
      cbn [fst snd]. destruct (empty ret) eqn:Eret; cbn [negb].
      + right. eexists. split; [reflexivity|]. cbn. rewrite Eret.
        apply empty_true in Eret. splits; auto. discriminate.
      + right. eexists. split; [reflexivity|]. unfold ends_loop. cbn.
        apply empty_false in Eret. auto.
    - cbn [Pop Recorded fst snd]. apply Hvalue. intros ret. cbn. auto. }
  destruct (Token.value_base_category t =? VBC__STRING).
  { destruct (assemble_string_token fuel b (Token.value_base_detail t) p l str)
      as [str'|msg str'| |] eqn:Easm.
    - destruct (Token.continued t); [left; auto|].
      destruct (has_bit (Token.value_base_detail t)
                  VBD__STRING__CHAIN_MUST_BE_UTF_8);
        cbn [AppendTextString AppendByteString Recorded fst snd];
        apply Hvalue; intros ret; cbn; auto.
    - left. split; [reflexivity|].
      eapply assemble_string_token_done; eauto.
    - left. split; [reflexivity | discriminate].
    - exact Logic.I. }
  destruct (Token.value_base_category t =? VBC__UNICODE_CODE_POINT).
  { destruct (Token.continued t); left; split; try reflexivity.
    discriminate. }
  destruct (Token.value_base_category t =? VBC__LITERAL).
  { destruct (has_bit (Token.value_base_detail t) VBD__LITERAL__NULL);
      cbn [AppendNull AppendBool Recorded fst snd];
      apply Hvalue; intros ret; cbn; auto. }
  destruct (Token.value_base_category t =? VBC__NUMBER).
  { destruct (number_token (c, log) b (Token.value_base_detail t) p l)
      as [r|] eqn:En.
    - destruct (number_token_events _ _ _ _ _ _ _ En) as (mk & r0 & -> & Hmk).
      apply Hvalue. intros ret. apply Hmk.
    - left. split; [reflexivity | discriminate]. }
  left. split; [reflexivity | discriminate].
Qed.

End Calls.

(** ** The recorder only records *)

Section Transparent.

Lemma parsed_a_value_forget (log : list Event) (mk : string -> Event)
    (r : string * C) (d : Z) (s : string) :
  forget_processed (parsed_a_value (record log mk r) d s)
  = parsed_a_value r d s.
Proof.
  destruct r as [ret c']. unfold parsed_a_value, record. cbn [fst snd].
  destruct (negb (empty ret) || (d =? 0)); reflexivity.
Qed.

Lemma number_token_forget (c : C) (log : list Event)
    (b : wuffs_base__io_buffer) (vbd p l : Z) :
  match number_token (cbs := Recorded cbs) (c, log) b vbd p l with
  | Some r => exists mk r0, r = record log mk r0
                            /\ number_token c b vbd p l = Some r0
  | None => number_token c b vbd p l = None
  end.
Proof.
  unfold number_token.
  destruct (wuffs_base__parse_number_i64 (token_bytes b p l)) as [st v].
  destruct (wuffs_base__parse_number_f64 (token_bytes b p l)) as [st' v'].
  repeat match goal with
         | |- context [if ?x then _ else _] => destruct x
         end;
    try reflexivity; cbn [AppendI64 AppendF64 Recorded fst snd];
    eexists; eexists; split; reflexivity.
Qed.

Lemma process_token_forget (fuel : nat) (b : wuffs_base__io_buffer)
    (t : Token.t) (p l depth : Z) (str : string) (c : C) (log : list Event) :
  forget_processed
    (process_token (cbs := Recorded cbs) fuel b t p l depth str (c, log))
  = process_token fuel b t p l depth str c.
Proof.
  unfold process_token.
  destruct (Token.value_base_category t =? VBC__FILLER); [reflexivity|].
  destruct (Token.value_base_category t =? VBC__STRUCTURE).
  { destruct (has_bit (Token.value_base_detail t) VBD__STRUCTURE__PUSH).
    - cbn [Push Recorded fst snd]. unfold record.
      destruct (Push c (u32 (Token.value_base_detail t))) as [ret c'].
      cbn [fst snd]. destruct (negb (empty ret)); reflexivity.
    - cbn [Pop Recorded fst snd]. apply parsed_a_value_forget. }
  destruct (Token.value_base_category t =? VBC__STRING).
  { destruct (assemble_string_token fuel b (Token.value_base_detail t) p l str);
      try reflexivity.
    destruct (Token.continued t); [reflexivity|].
    destruct (has_bit (Token.value_base_detail t)
                VBD__STRING__CHAIN_MUST_BE_UTF_8);
      cbn [AppendTextString AppendByteString Recorded fst snd];
      apply parsed_a_value_forget. }
  destruct (Token.value_base_category t =? VBC__UNICODE_CODE_POINT).
  { destruct (Token.continued t); reflexivity. }
  destruct (Token.value_base_category t =? VBC__LITERAL).
  { destruct (has_bit (Token.value_base_detail t) VBD__LITERAL__NULL);
      cbn [AppendNull AppendBool Recorded fst snd];
      apply parsed_a_value_forget. }
  destruct (Token.value_base_category t =? VBC__NUMBER); [|reflexivity].
  pose proof (number_token_forget c log b (Token.value_base_detail t) p l)
    as Hn.
  destruct (number_token (c, log) b (Token.value_base_detail t) p l) as [r|].
  - destruct Hn as (mk & r0 & -> & ->). apply parsed_a_value_forget.
  - rewrite Hn. reflexivity.
Qed.

Lemma main_loop_forget (fuel : nat) (e : Env I D) (depth : Z) (str : string)
    (c : C) (log : list Event) :
  forget_decoded
    (main_loop (cbs := Recorded cbs) fuel e depth str (c, log))
  = main_loop fuel e depth str c.
Proof.
  revert e depth str c log.
  induction fuel as [|f IH]; intros e depth str c log; [reflexivity|].
  cbn [main_loop].
  destruct (GET_THE_NEXT_TOKEN f e) as [m e1|t p l e1|]; try reflexivity.
  rewrite <- (process_token_forget f (io_buf e1) t p l depth str c log).
  destruct (process_token f (io_buf e1) t p l depth str (c, log))
    as [d s [c1 log1]|m [c1 log1]|]; cbn [forget_processed fst];
    [apply IH | reflexivity | reflexivity].
Qed.

(** Wrapping the callbacks into a recorder changes nothing of what
    [DecodeJson] returns. *)
Lemma DecodeJson_recorded (fuel : nat) (c : C) (log : list Event)
    (input0 : I) (quirks : list Z) (json_pointer : string) :
  returned
    (DecodeJson (cbs := Recorded cbs) fuel (c, log) input0 quirks json_pointer)
  = returned (DecodeJson fuel c input0 quirks json_pointer).
Proof.
  unfold DecodeJson, decode. destruct alloc as [d|].
  - match goal with
    | |- context [walk_json_pointer fuel ?e0 json_pointer 0] =>
        destruct (walk_json_pointer fuel e0 json_pointer 0) as [msg e1|];
          [|reflexivity]
    end.
    destruct (negb (empty msg)).
    + unfold returned, done, assembled_result. cbn.
      match goal with
      | |- context [Done c ?r ?i ?b] =>
          destruct (Done c r i b) as [[[c1 r1] i1] b1]
      end. reflexivity.
    + rewrite <- (main_loop_forget fuel e1 0 EmptyString c log).
      destruct (main_loop fuel e1 0 EmptyString (c, log))
        as [m e2 [c2 log2]|]; [|reflexivity].
      unfold returned, done, assembled_result. cbn.
      match goal with
      | |- context [Done c2 ?r ?i ?b] =>
          destruct (Done c2 r i b) as [[[c1 r1] i1] b1]
      end. reflexivity.
  - unfold returned, done, assembled_result. cbn.
    match goal with
    | |- context [Done c ?r ?i ?b] =>
        destruct (Done c r i b) as [[[c1 r1] i1] b1]
    end. reflexivity.
Qed.

End Transparent.

Section OneValue.

Lemma depth_after_cons (depth : Z) (ev : Event) (log : list Event) :
  depth_after depth (ev :: log) = depth_after (depth_step depth ev) log.
Proof. reflexivity. Qed.


Lemma goes_on_app (depth : Z) (log1 log2 : list Event) :
  goes_on depth (log1 ++ log2)
  <-> goes_on depth log1 /\ goes_on (depth_after depth log1) log2.
Proof.
  revert depth. induction log1 as [|ev log1 IH]; intros depth; cbn.
  - tauto.
  - rewrite IH. change (fold_left depth_step log1 (depth_step depth ev))
      with (depth_after (depth_step depth ev) log1). tauto.
Qed.




(** The log of a run of the main loop: calls after which the loop went on,
    and then either no further call decided (the loop left for [done] on
    its own), or one more call whose result ended the loop. *)
Lemma main_loop_events (fuel : nat) (e : Env I D) (depth : Z) (str : string)
    (c : C) (log : list Event) (msg : string) (e' : Env I D) (c' : C)
    (log' : list Event) :
  main_loop (cbs := Recorded cbs) fuel e depth str (c, log)
  = Finished msg e' (c', log') ->
  exists evs,
    log' = log ++ evs
    /\ (goes_on depth evs
        \/ exists evs0 ev,
             evs = evs0 ++ [ev] /\ goes_on depth evs0
             /\ ends_loop (depth_after depth evs0) ev msg).
Proof.
  revert e depth str c log.
  induction fuel as [|f IH]; intros e depth str c log Hrun; [discriminate|].
  cbn [main_loop] in Hrun.
  destruct (GET_THE_NEXT_TOKEN f e) as [m e1|t p l e1|]; [| |discriminate].
  { inversion Hrun; subst. exists []. rewrite app_nil_r. split; [reflexivity|].
    left. exact Logic.I. }
  pose proof (process_token_events f (io_buf e1) t p l depth str c log) as Hev.
  destruct (process_token f (io_buf e1) t p l depth str (c, log))
    as [d s [c1 log1]|m [c1 log1]|]; [| |discriminate].
  - apply IH in Hrun. destruct Hrun as (evs' & -> & Hshape).
    destruct Hev as [[-> ->] | (ev & -> & Hgo & ->)].
    + exists evs'. split; [reflexivity | exact Hshape].
    + exists (ev :: evs'). rewrite <- app_assoc. split; [reflexivity|].
      cbn [goes_on] in Hgo. destruct Hgo as (H1 & H2 & H3 & _).
      destruct Hshape as [Hgo' | (evs0 & ev' & -> & Hgo' & Hend)].
      * left. cbn [goes_on]. auto.
      * right. exists (ev :: evs0), ev'. splits.
        -- reflexivity.
        -- cbn [goes_on]. auto.
        -- rewrite depth_after_cons. exact Hend.
  - inversion Hrun; subst.
    destruct Hev as [[-> Hm] | (ev & -> & Hend)].
    + exists []. rewrite app_nil_r. split; [reflexivity|]. left.
      exact Logic.I.
    + exists [ev]. split; [reflexivity|]. right. exists [], ev. splits; auto.
      exact Logic.I.
Qed.


End OneValue.

(** ** More fuel changes no result *)

Section MoreFuel.

Lemma DecodeBackslashX_more_fuel (fuel fuel' : nat) (str : string)
    (encoded : list byte) (r : string * string) :
  DecodeJson_DecodeBackslashX fuel str encoded = Some r ->
  (fuel <= fuel')%nat ->
  DecodeJson_DecodeBackslashX fuel' str encoded = Some r.
Proof.
  revert fuel' str encoded.
  induction fuel as [|f IH]; intros fuel' str encoded Hr Hle.
  - destruct fuel'; cbn [DecodeJson_DecodeBackslashX] in *;
      destruct (Z.of_nat (List.length encoded) >? 0); congruence.
  - destruct fuel' as [|f']; [lia|]. cbn [DecodeJson_DecodeBackslashX] in *.
    destruct (Z.of_nat (List.length encoded) >? 0); [|exact Hr].
    destruct (wuffs_base__base_16__decode4 64 encoded true) as [o decoded].
    destruct (is_error (status o)); [exact Hr|].
    destruct ((num_dst o >? 64)
              || (num_src o >? Z.of_nat (List.length encoded))); [exact Hr|].
    apply IH; [exact Hr | lia].
Qed.

Lemma assemble_string_token_more_fuel (fuel fuel' : nat)
    (b : wuffs_base__io_buffer) (vbd p l : Z) (str : string) (r : assembled) :
  assemble_string_token fuel b vbd p l str = r ->
  r <> asm_diverges -> (fuel <= fuel')%nat ->
  assemble_string_token fuel' b vbd p l str = r.
Proof.
  unfold assemble_string_token. intros Hr Hd Hle.
  destruct (has_bit vbd VBD__STRING__CONVERT_0_DST_1_SRC_DROP); [exact Hr|].
  destruct (has_bit vbd VBD__STRING__CONVERT_1_DST_1_SRC_COPY); [exact Hr|].
  destruct (has_bit vbd VBD__STRING__CONVERT_1_DST_4_SRC_BACKSLASH_X);
    [|exact Hr].
  destruct (DecodeJson_DecodeBackslashX fuel str (token_bytes b p l))
    as [x|] eqn:Ex; [|congruence].
  rewrite (DecodeBackslashX_more_fuel _ _ _ _ _ Ex Hle). exact Hr.
Qed.

(** One step of a loop of the walker, with more fuel: the macro gives the
    same token. *)
Ltac same_token f f' Hr :=
  match type of Hr with
  | context [GET_THE_NEXT_TOKEN f ?e] =>
      let EG := fresh "EG" in
      destruct (GET_THE_NEXT_TOKEN f e) as [?m ?e1|?t ?p ?l ?e1|] eqn:EG;
      [ rewrite (GET_more_fuel f f' e _ EG) by (try discriminate; lia)
      | rewrite (GET_more_fuel f f' e _ EG) by (try discriminate; lia)
      | congruence ]
  end.

Lemma check_more_fuel (fuel fuel' : nat) (e : Env I D) (r : walked I D) :
  check_that_a_value_follows fuel e = r -> r <> WalkDiverges ->
  (fuel <= fuel')%nat ->
  check_that_a_value_follows fuel' e = r.
Proof.
  revert fuel' e. induction fuel as [|f IH]; intros fuel' e Hr Hd Hle;
    [cbn in Hr; congruence|].
  destruct fuel' as [|f']; [lia|].
  cbn [check_that_a_value_follows] in *. same_token f f' Hr; [exact Hr|].
  destruct (Token.value_base_category t =? VBC__FILLER); [|exact Hr].
  apply IH; [exact Hr | exact Hd | lia].
Qed.

Lemma do_list_skip_more_fuel (fuel fuel' : nat) (e : Env I D) (d rem : Z)
    (r : walked I D) :
  do_list_skip fuel e d rem = r -> r <> WalkDiverges ->
  (fuel <= fuel')%nat ->
  do_list_skip fuel' e d rem = r.
Proof.
  revert fuel' e d rem.
  induction fuel as [|f IH]; intros fuel' e d rem Hr Hd Hle;
    [cbn in Hr; congruence|].
  destruct fuel' as [|f']; [lia|].
  cbn [do_list_skip] in *. same_token f f' Hr; [exact Hr|].
  assert (Hcount : forall d',
            (if d' >? 0 then do_list_skip f e1 d' rem
             else if u64 (rem - 1) =? 0 then check_that_a_value_follows f e1
                  else do_list_skip f e1 d' (u64 (rem - 1))) = r ->
            (if d' >? 0 then do_list_skip f' e1 d' rem
             else if u64 (rem - 1) =? 0 then check_that_a_value_follows f' e1
                  else do_list_skip f' e1 d' (u64 (rem - 1))) = r).
  { intros d' H. destruct (d' >? 0); [apply IH; auto; lia|].
    destruct (u64 (rem - 1) =? 0);
      [eapply check_more_fuel; eauto; lia | apply IH; auto; lia]. }
  destruct (Token.continued t || (Token.value_base_category t =? VBC__FILLER));
    [apply IH; auto; lia|].
  destruct (Token.value_base_category t =? VBC__STRUCTURE);
    [|apply Hcount; exact Hr].
  destruct (has_bit (Token.value_base_detail t) VBD__STRUCTURE__PUSH);
    [apply IH; auto; lia|].
  destruct (d =? 0); [exact Hr | apply Hcount; exact Hr].
Qed.

Lemma do_list_more_fuel (fuel fuel' : nat) (e : Env I D) (frag : string)
    (r : walked I D) :
  do_list fuel e frag = r -> r <> WalkDiverges -> (fuel <= fuel')%nat ->
  do_list fuel' e frag = r.
Proof.
  unfold do_list. intros Hr Hd Hle.
  destruct (wuffs_base__parse_number_u64 (list_byte_of_string frag))
    as [st v].
  destruct (negb (is_ok st)); [exact Hr|].
  destruct (v =? 0);
    [eapply check_more_fuel | eapply do_list_skip_more_fuel]; eauto.
Qed.

Lemma do_dict_more_fuel (fuel : nat) :
  (forall fuel' (e : Env I D) str frag r,
     do_dict_key fuel e str frag = r -> r <> WalkDiverges ->
     (fuel <= fuel')%nat -> do_dict_key fuel' e str frag = r)
  /\ (forall fuel' (e : Env I D) d frag r,
        skip_the_next_dict_value fuel e d frag = r -> r <> WalkDiverges ->
        (fuel <= fuel')%nat -> skip_the_next_dict_value fuel' e d frag = r).
Proof.
  induction fuel as [|f [IHk IHs]]; [split; intros; cbn in *; congruence|].
  split.
  - intros fuel' e str frag r Hr Hd Hle. destruct fuel' as [|f']; [lia|].
    cbn [do_dict_key] in *. same_token f f' Hr; [exact Hr|].
    assert (Hafter : forall s,
              (if Token.continued t then do_dict_key f e1 s frag
               else if (s =? frag)%string then Return EmptyString e1
                    else skip_the_next_dict_value f e1 0 frag) = r ->
              (if Token.continued t then do_dict_key f' e1 s frag
               else if (s =? frag)%string then Return EmptyString e1
                    else skip_the_next_dict_value f' e1 0 frag) = r).
    { intros s H. destruct (Token.continued t); [apply IHk; auto; lia|].
      destruct (s =? frag)%string; [exact H | apply IHs; auto; lia]. }
    destruct (Token.value_base_category t =? VBC__FILLER);
      [apply IHk; auto; lia|].
    destruct (Token.value_base_category t =? VBC__STRUCTURE); [exact Hr|].
    destruct (Token.value_base_category t =? VBC__STRING).
    + destruct (assemble_string_token f (io_buf e1)
                  (Token.value_base_detail t) p l str) as [s|m s| |] eqn:Ea;
        try (rewrite (assemble_string_token_more_fuel f f' _ _ _ _ _ _ Ea)
              by (try discriminate; lia));
        [apply Hafter; exact Hr | exact Hr | exact Hr | congruence].
    + destruct (Token.value_base_category t =? VBC__UNICODE_CODE_POINT);
        [apply Hafter; exact Hr | exact Hr].
  - intros fuel' e d frag r Hr Hd Hle. destruct fuel' as [|f']; [lia|].
    cbn [skip_the_next_dict_value] in *. same_token f f' Hr; [exact Hr|].
    assert (Hskipped : forall d',
              (if d' =? 0 then do_dict_key f e1 EmptyString frag
               else skip_the_next_dict_value f e1 d' frag) = r ->
              (if d' =? 0 then do_dict_key f' e1 EmptyString frag
               else skip_the_next_dict_value f' e1 d' frag) = r).
    { intros d' H. destruct (d' =? 0);
        [apply IHk | apply IHs]; auto; lia. }
    destruct (Token.continued t || (Token.value_base_category t =? VBC__FILLER));
      [apply IHs; auto; lia|].
    destruct (Token.value_base_category t =? VBC__STRUCTURE);
      [|apply Hskipped; exact Hr].
    destruct (has_bit (Token.value_base_detail t) VBD__STRUCTURE__PUSH);
      [apply IHs; auto; lia | apply Hskipped; exact Hr].
Qed.

Lemma Walk_more_fuel (fuel fuel' : nat) (e : Env I D) (frag : string)
    (r : walked I D) :
  DecodeJson_WalkJsonPointerFragment fuel e frag = r -> r <> WalkDiverges ->
  (fuel <= fuel')%nat ->
  DecodeJson_WalkJsonPointerFragment fuel' e frag = r.
Proof.
  revert fuel' e. induction fuel as [|f IH]; intros fuel' e Hr Hd Hle;
    [cbn in Hr; congruence|].
  destruct fuel' as [|f']; [lia|].
  cbn [DecodeJson_WalkJsonPointerFragment] in *. same_token f f' Hr;
    [exact Hr|].
  destruct (Token.value_base_category t =? VBC__FILLER);
    [apply IH; auto; lia|].
  destruct (negb (Token.value_base_category t =? VBC__STRUCTURE)
            || negb (has_bit (Token.value_base_detail t)
                       VBD__STRUCTURE__PUSH)); [exact Hr|].
  destruct (has_bit (Token.value_base_detail t) VBD__STRUCTURE__TO_LIST).
  - eapply do_list_more_fuel; eauto; lia.
  - unfold do_dict in *. eapply (proj1 (do_dict_more_fuel f)); eauto; lia.
Qed.

Lemma walk_json_pointer_more_fuel (fuel fuel' : nat) (e : Env I D)
    (json_pointer : string) (i : nat) (r : walked I D) :
  walk_json_pointer fuel e json_pointer i = r -> r <> WalkDiverges ->
  (fuel <= fuel')%nat ->
  walk_json_pointer fuel' e json_pointer i = r.
Proof.
  revert fuel' e i. induction fuel as [|f IH]; intros fuel' e i Hr Hd Hle;
    [cbn in Hr; congruence|].
  destruct fuel' as [|f']; [lia|]. cbn [walk_json_pointer] in *.
  destruct (i <? String.length json_pointer)%nat; [|exact Hr].
  destruct (negb (char_at json_pointer i =? "/")%char); [exact Hr|].
  destruct (snd (DecodeJson_SplitJsonPointer json_pointer (i + 1)) =? 0)%nat;
    [exact Hr|].
  destruct (DecodeJson_WalkJsonPointerFragment f e
              (fst (DecodeJson_SplitJsonPointer json_pointer (i + 1))))
    as [m e1|] eqn:Ew; [|congruence].
  rewrite (Walk_more_fuel f f' _ _ _ Ew) by (try discriminate; lia).
  destruct (negb (empty m)); [exact Hr|]. apply IH; auto; lia.
Qed.

Lemma process_token_more_fuel {C' : Type} {cbs' : DecodeJsonCallbacks C' I}
    (fuel fuel' : nat) (b : wuffs_base__io_buffer) (t : Token.t)
    (p l depth : Z) (str : string) (c : C') (r : processed C') :
  process_token (cbs := cbs') fuel b t p l depth str c = r ->
  r <> process_diverges -> (fuel <= fuel')%nat ->
  process_token (cbs := cbs') fuel' b t p l depth str c = r.
Proof.
  unfold process_token. intros Hr Hd Hle.
  destruct (Token.value_base_category t =? VBC__FILLER); [exact Hr|].
  destruct (Token.value_base_category t =? VBC__STRUCTURE); [exact Hr|].
  destruct (Token.value_base_category t =? VBC__STRING); [|exact Hr].
  destruct (assemble_string_token fuel b (Token.value_base_detail t) p l str)
    as [s|m s| |] eqn:Ea;
    try (rewrite (assemble_string_token_more_fuel fuel fuel' _ _ _ _ _ _ Ea)
          by (try discriminate; lia));
    try exact Hr. congruence.
Qed.

Lemma main_loop_more_fuel {C' : Type} {cbs' : DecodeJsonCallbacks C' I}
    (fuel fuel' : nat) (e : Env I D) (depth : Z) (str : string) (c : C')
    (r : decoded I D C') :
  main_loop (cbs := cbs') fuel e depth str c = r -> r <> DecodeDiverges ->
  (fuel <= fuel')%nat ->
  main_loop (cbs := cbs') fuel' e depth str c = r.
Proof.
  revert fuel' e depth str c.
  induction fuel as [|f IH]; intros fuel' e depth str c Hr Hd Hle;
    [cbn in Hr; congruence|].
  destruct fuel' as [|f']; [lia|]. cbn [main_loop] in *.
  same_token f f' Hr; [exact Hr|].
  destruct (process_token f (io_buf e1) t p l depth str c)
    as [d s c1|m c1|] eqn:Ep; [| |congruence];
    rewrite (process_token_more_fuel f f' _ _ _ _ _ _ _ _ Ep)
      by (try discriminate; lia);
    [apply IH; auto; lia | exact Hr].
Qed.

(** What [DecodeJson] returns with some fuel, it returns with any more. *)
Lemma DecodeJson_more_fuel {C' : Type} {cbs' : DecodeJsonCallbacks C' I}
    (fuel fuel' : nat) (c : C') (input0 : I) (quirks : list Z)
    (json_pointer : string)
    (r : C' * DecodeJsonResult * I * wuffs_base__io_buffer) :
  DecodeJson (cbs := cbs') fuel c input0 quirks json_pointer = Some r ->
  (fuel <= fuel')%nat ->
  DecodeJson (cbs := cbs') fuel' c input0 quirks json_pointer = Some r.
Proof.
  unfold DecodeJson, decode. intros Hr Hle. destruct alloc as [d|];
    [|exact Hr].
  match type of Hr with
  | context [walk_json_pointer fuel ?e0 json_pointer 0] =>
      destruct (walk_json_pointer fuel e0 json_pointer 0) as [m e1|] eqn:Ew;
        [|discriminate];
      rewrite (walk_json_pointer_more_fuel fuel fuel' _ _ _ _ Ew)
        by (try discriminate; lia)
  end.
  destruct (negb (empty m)); [exact Hr|].
  destruct (main_loop fuel e1 0 EmptyString c) as [m2 e2 c2|] eqn:Em;
    [|discriminate].
  rewrite (main_loop_more_fuel fuel fuel' _ _ _ _ _ Em)
    by (try discriminate; lia).
  exact Hr.
Qed.

End MoreFuel.

(** ** The label [done] *)

Section DoneLabel.

Lemma goes_on_not_Done (depth : Z) (evs : list Event) :
  goes_on depth evs -> Forall (fun ev => is_Done ev = false) evs.
Proof.
  revert depth. induction evs as [|ev evs IH]; intros depth Hgo;
    [constructor|].
  cbn [goes_on] in Hgo. destruct Hgo as (H1 & _ & _ & H4).
  constructor; [exact H1 | eapply IH; exact H4].
Qed.

(** The main loop never calls [Done]. *)
Lemma main_loop_not_Done (fuel : nat) (e : Env I D) (depth : Z)
    (str : string) (c : C) (log : list Event) (msg : string) (e' : Env I D)
    (c' : C) (log' : list Event) :
  main_loop (cbs := Recorded cbs) fuel e depth str (c, log)
  = Finished msg e' (c', log') ->
  exists evs, log' = log ++ evs /\ Forall (fun ev => is_Done ev = false) evs.
Proof.
  intros Hrun. apply main_loop_events in Hrun.
  destruct Hrun as (evs & -> & [Hgo | (evs0 & ev & -> & Hgo & Hend)]).
  - exists evs. split; [reflexivity|]. eapply goes_on_not_Done; eauto.
  - exists (evs0 ++ [ev]). split; [reflexivity|]. apply Forall_app. split.
    + eapply goes_on_not_Done; eauto.
    + constructor; [apply Hend | constructor].
Qed.

(** C9: whenever [DecodeJson] returns, it has called [Done] exactly once:
    the calls that a recorder around any callbacks object has seen by then
    are calls other than [Done] followed by one [Done], which was handed
    the result assembled from the message and the cursor that processing
    stopped with.  Every way to the label [done] returns so, whatever the
    message: [DecodeJson] returns whenever its body reaches the label, and
    when the decoder cannot be allocated it does so with "out of memory"
    whatever the fuel.  What it returns does not depend on the fuel: more
    fuel gives the same calls and the same result. *)
Theorem Done_exactly_once (fuel : nat) (c : C) (log0 : list Event)
    (input0 : I) (quirks : list Z) (json_pointer : string) :
  (forall c' log r' i' b',
     DecodeJson (cbs := Recorded cbs) fuel (c, log0) input0 quirks json_pointer
     = Some ((c', log), r', i', b') ->
     exists evs s,
       decode (cbs := Recorded cbs) fuel (c, log0) input0 quirks json_pointer
       = Some s
       /\ log = log0 ++ evs ++ [EvDone (assembled_result s)]
       /\ Forall (fun ev => is_Done ev = false) evs
       /\ List.length (filter is_Done (evs ++ [EvDone (assembled_result s)]))
          = 1%nat)
  /\ (forall s,
        decode (cbs := Recorded cbs) fuel (c, log0) input0 quirks json_pointer
        = Some s ->
        DecodeJson (cbs := Recorded cbs) fuel (c, log0) input0 quirks
          json_pointer
        = Some (Done (stop_callbacks s) (assembled_result s) (stop_input s)
                  (stop_io_buf s)))
  /\ (alloc = None ->
      exists b,
        DecodeJson (cbs := Recorded cbs) fuel (c, log0) input0 quirks
          json_pointer
        = Some (Done (c, log0)
                  (mk_result "wuffs_aux::DecodeJson: out of memory"
                     (wuffs_base__u64__sat_add (pos (meta b)) 0))
                  input0 b))
  /\ (forall r fuel',
        DecodeJson (cbs := Recorded cbs) fuel (c, log0) input0 quirks
          json_pointer = Some r ->
        (fuel <= fuel')%nat ->
        DecodeJson (cbs := Recorded cbs) fuel' (c, log0) input0 quirks
          json_pointer = Some r).
Proof.
  splits.
  - intros c' log r' i' b' Hrun. unfold DecodeJson in Hrun.
    destruct (decode fuel (c, log0) input0 quirks json_pointer) as [s|] eqn:Es;
      [|discriminate].
    assert (Hstop : exists evs,
               snd (stop_callbacks s) = log0 ++ evs
               /\ Forall (fun ev => is_Done ev = false) evs).
    { unfold decode in Es. destruct alloc as [d|].
      - match type of Es with
        | context [walk_json_pointer fuel ?e0 json_pointer 0] =>
            destruct (walk_json_pointer fuel e0 json_pointer 0)
              as [msg e1|]; [|discriminate]
        end.
        destruct (negb (empty msg)).
        + inversion Es; subst. cbn. exists []. rewrite app_nil_r. auto.
        + destruct (main_loop fuel e1 0 EmptyString (c, log0))
            as [m e2 [c2 log2]|] eqn:Eloop; [|discriminate].
          inversion Es; subst. cbn.
          eapply main_loop_not_Done; eauto.
      - inversion Es; subst. cbn. exists []. rewrite app_nil_r. auto. }
    destruct Hstop as (evs & Hlog & Hnot).
    exists evs, s. split; [reflexivity|].
    inversion Hrun as [Hdone]. unfold done in Hdone. cbn [Done Recorded] in Hdone.
    destruct (Done (fst (stop_callbacks s)) (assembled_result s)
                (stop_input s) (stop_io_buf s)) as [[[c1 r1] i1] b1].
    inversion Hdone; subst. rewrite Hlog, <- app_assoc. splits; auto.
    rewrite filter_app, length_app. cbn.
    replace (filter is_Done evs) with (@nil Event); [reflexivity|].
    symmetry. clear - Hnot. induction Hnot as [|ev evs Hev _ IH];
      [reflexivity|]. cbn. rewrite Hev. exact IH.
  - intros s Hs. unfold DecodeJson. rewrite Hs. reflexivity.
  - intros Halloc. eexists. unfold DecodeJson, decode. rewrite Halloc.
    reflexivity.
  - intros r fuel' Hrun Hle. eapply DecodeJson_more_fuel; eauto.
Qed.

(** C10: the result that [DecodeJson] returns is the one [Done] was handed,
    as [Done] left it: what [Done] writes into its error_message or
    cursor_position reaches the caller; and with the [Done] of json.cc,
    which writes nothing, the caller gets the result as it was assembled
    at the label [done]. *)
Theorem Done_result_is_returned (fuel : nat) (c : C) (input0 : I)
    (quirks : list Z) (json_pointer : string) (s : stopped I C) :
  decode fuel c input0 quirks json_pointer = Some s ->
  returned (DecodeJson fuel c input0 quirks json_pointer)
  = Some (result_of (Done (stop_callbacks s) (assembled_result s)
                       (stop_input s) (stop_io_buf s)))
  /\ ((forall c' r' i' b',
         Done c' r' i' b' = DecodeJsonCallbacks__Done c' r' i' b') ->
      returned (DecodeJson fuel c input0 quirks json_pointer)
      = Some (assembled_result s))
  /\ (forall error_message' cursor_position',
        (forall c' r' i' b',
           result_of (Done c' r' i' b')
           = mk_result error_message' cursor_position') ->
        returned (DecodeJson fuel c input0 quirks json_pointer)
        = Some (mk_result error_message' cursor_position')).
Proof.
  intros Hs. unfold DecodeJson, returned, done. rewrite Hs. splits.
  - unfold result_of.
    destruct (Done (stop_callbacks s) (assembled_result s) (stop_input s)
                (stop_io_buf s)) as [[[c1 r1] i1] b1]. reflexivity.
  - intros Hdefault. rewrite Hdefault. reflexivity.
  - intros m p Hwrites. specialize (Hwrites (stop_callbacks s)
                                      (assembled_result s) (stop_input s)
                                      (stop_io_buf s)).
    unfold result_of in Hwrites.
    destruct (Done (stop_callbacks s) (assembled_result s) (stop_input s)
                (stop_io_buf s)) as [[[c1 r1] i1] b1]. congruence.
Qed.

End DoneLabel.

(** ** String runs *)

Section StringRuns.

Lemma eventually_both {A B : Type} (run1 : nat -> A) (r1 : A)
    (run2 : nat -> B) (r2 : B) :
  eventually run1 r1 -> eventually run2 r2 ->
  exists F, forall fuel, (F <= fuel)%nat -> run1 fuel = r1 /\ run2 fuel = r2.
Proof.
  intros [F1 H1] [F2 H2]. exists (Nat.max F1 F2). intros fuel Hf.
  split; [apply H1 | apply H2]; lia.
Qed.

(** What [DecodeJson_DecodeBackslashX] appends does not depend on what
    [str] holds. *)
Lemma DecodeBackslashX_append (fuel : nat) (acc : string)
    (encoded : list byte) (msg out : string) :
  DecodeJson_DecodeBackslashX fuel acc encoded = Some (msg, out) ->
  forall str,
    DecodeJson_DecodeBackslashX fuel (str ++ acc)%string encoded
    = Some (msg, (str ++ out)%string).
Proof.
  revert acc encoded. induction fuel as [|f IH]; intros acc encoded Hrun str.
  - cbn [DecodeJson_DecodeBackslashX] in *.
    destruct (Z.of_nat (List.length encoded) >? 0); [discriminate|].
    inversion Hrun; subst. reflexivity.
  - cbn [DecodeJson_DecodeBackslashX] in *.
    destruct (Z.of_nat (List.length encoded) >? 0).
    2:{ inversion Hrun; subst. reflexivity. }
    destruct (wuffs_base__base_16__decode4 64 encoded true) as [o decoded].
    destruct (is_error (status o)).
    { inversion Hrun; subst. reflexivity. }
    destruct ((num_dst o >? 64)
              || (num_src o >? Z.of_nat (List.length encoded))).
    { inversion Hrun; subst. reflexivity. }
    unfold append in *. rewrite append_assoc. apply IH. exact Hrun.
Qed.

Lemma contributes_string (b : wuffs_base__io_buffer) (t : Token.t)
    (p l : Z) (str str' : string) :
  Token.value_base_category t = VBC__STRING ->
  contributes b t p l str str' ->
  eventually
    (fun fuel => assemble_string_token fuel b (Token.value_base_detail t) p l str)
    (asm_ok str').
Proof.
  intros Hvbc Hc. unfold assemble_string_token.
  destruct Hc as [_ Hd | _ Hd Hcp | decoded _ Hd Hcp Hx [F HF] | Hucp].
  - exists O. intros fuel _. rewrite Hd. reflexivity.
  - exists O. intros fuel _. rewrite Hd, Hcp. reflexivity.
  - exists F. intros fuel Hf. rewrite Hd, Hcp, Hx.
    pose proof (DecodeBackslashX_append _ _ _ _ _ (HF fuel Hf) str) as Happ.
    rewrite append_nil_r in Happ. rewrite Happ. reflexivity.
  - rewrite Hvbc in Hucp. discriminate.
Qed.

Lemma contributes_code_point_only (b : wuffs_base__io_buffer) (t : Token.t)
    (p l : Z) (str str' : string) :
  Token.value_base_category t = VBC__UNICODE_CODE_POINT ->
  contributes b t p l str str' ->
  str' = assemble_code_point (Token.value_base_detail t) str.
Proof.
  intros Hvbc Hc.
  destruct Hc as [Hs _ | Hs _ _ | decoded Hs _ _ _ _ | _];
    try (rewrite Hvbc in Hs; discriminate).
  reflexivity.
Qed.

(** The main loop reads through a run of continued tokens and only grows
    [str]. *)
Lemma main_loop_string_run (e : Env I D) (str : string) (e' : Env I D)
    (str' : string) (depth : Z) (c : C) (res : decoded I D C) :
  string_run e str e' str' ->
  eventually (fun fuel => main_loop fuel e' depth str' c) res ->
  eventually (fun fuel => main_loop fuel e depth str c) res.
Proof.
  intros Hrun. revert res. induction Hrun as
      [e str | e str t p l e1 str1 e' str' Htakes Hcont Hc Hrun IH
       | e str t p l e1 e' str' Htakes Hfill Hrun IH];
    intros res Hres; [exact Hres| |].
  2:{ specialize (IH res Hres). destruct IH as [F1 H1].
      destruct Htakes as [F2 H2].
      exists (S (Nat.max F1 F2)). intros [|fuel] Hf; [lia|].
      cbn [main_loop]. rewrite H2 by lia. unfold process_token.
      rewrite Hfill. cbn [Z.eqb VBC__FILLER]. apply H1. lia. }
  specialize (IH res Hres). destruct IH as [F1 H1]. destruct Htakes as [F2 H2].
  assert (Hcat : Token.value_base_category t = VBC__STRING
                 \/ Token.value_base_category t = VBC__UNICODE_CODE_POINT)
    by (destruct Hc; auto).
  destruct Hcat as [Hvbc | Hvbc].
  - destruct (contributes_string _ _ _ _ _ _ Hvbc Hc) as [F3 H3].
    exists (S (Nat.max F1 (Nat.max F2 F3))). intros [|fuel] Hf; [lia|].
    cbn [main_loop]. rewrite H2 by lia. unfold process_token.
    rewrite Hvbc. cbn [Z.eqb VBC__STRING VBC__FILLER VBC__STRUCTURE Pos.eqb].
    rewrite H3 by lia. rewrite Hcont. apply H1. lia.
  - pose proof (contributes_code_point_only _ _ _ _ _ _ Hvbc Hc) as ->.
    exists (S (Nat.max F1 F2)). intros [|fuel] Hf; [lia|].
    cbn [main_loop]. rewrite H2 by lia. unfold process_token.
    rewrite Hvbc.
    cbn [Z.eqb VBC__UNICODE_CODE_POINT VBC__STRING VBC__FILLER VBC__STRUCTURE
           Pos.eqb].
    rewrite Hcont. apply H1. lia.
Qed.


End StringRuns.

(** Tokens that wait in the token buffer are taken without the decoder. *)
Lemma takes_buffered (e : Env I D) (t : Token.t) (p l : Z) (e' : Env I D) :
  ri (tok_meta (tok_buf e)) < wi (tok_meta (tok_buf e)) ->
  take_token e = Tok t p l e' ->
  takes e t p l e'.
Proof.
  intros Hlt Htake. exists O. intros fuel _.
  rewrite GET_buffered by exact Hlt. exact Htake.
Qed.

(** ** The walker *)

Section Walker.

Lemma contributes_category (b : wuffs_base__io_buffer) (t : Token.t)
    (p l : Z) (str str' : string) :
  contributes b t p l str str' ->
  Token.value_base_category t = VBC__STRING
  \/ Token.value_base_category t = VBC__UNICODE_CODE_POINT.
Proof. intros Hc. destruct Hc; auto. Qed.

Lemma Walk_filler_run (e e1 : Env I D) (frag : string) (res : walked I D) :
  filler_run e e1 ->
  eventually (fun fuel => DecodeJson_WalkJsonPointerFragment fuel e1 frag) res ->
  eventually (fun fuel => DecodeJson_WalkJsonPointerFragment fuel e frag) res.
Proof.
  intros Hrun Hres. induction Hrun as [e | e t p l e1 e' [F2 H2] Hfill Hrun IH];
    [exact Hres|].
  destruct (IH Hres) as [F1 H1].
  exists (S (Nat.max F1 F2)). intros [|fuel] Hf; [lia|].
  cbn [DecodeJson_WalkJsonPointerFragment]. rewrite H2 by lia.
  rewrite Hfill. cbn [Z.eqb VBC__FILLER]. apply H1. lia.
Qed.

(** Reading a key, the walker goes through a run of continued tokens and
    only grows [str]. *)
Lemma do_dict_key_string_run (e : Env I D) (str : string) (e' : Env I D)
    (str' : string) (frag : string) (res : walked I D) :
  string_run e str e' str' ->
  eventually (fun fuel => do_dict_key fuel e' str' frag) res ->
  eventually (fun fuel => do_dict_key fuel e str frag) res.
Proof.
  intros Hrun. revert res. induction Hrun as
      [e str | e str t p l e1 str1 e' str' Htakes Hcont Hc Hrun IH
       | e str t p l e1 e' str' Htakes Hfill Hrun IH];
    intros res Hres; [exact Hres| |].
  2:{ destruct (IH res Hres) as [F1 H1]. destruct Htakes as [F2 H2].
      exists (S (Nat.max F1 F2)). intros [|fuel] Hf; [lia|].
      cbn [do_dict_key]. rewrite H2 by lia.
      rewrite Hfill. cbn [Z.eqb VBC__FILLER]. apply H1. lia. }
  destruct (IH res Hres) as [F1 H1]. destruct Htakes as [F2 H2].
  destruct (contributes_category _ _ _ _ _ _ Hc) as [Hvbc | Hvbc].
  - destruct (contributes_string _ _ _ _ _ _ Hvbc Hc) as [F3 H3].
    exists (S (Nat.max F1 (Nat.max F2 F3))). intros [|fuel] Hf; [lia|].
    cbn [do_dict_key]. rewrite H2 by lia. rewrite Hvbc.
    cbn [Z.eqb VBC__STRING VBC__FILLER VBC__STRUCTURE Pos.eqb].
    rewrite H3 by lia. rewrite Hcont. apply H1. lia.
  - pose proof (contributes_code_point_only _ _ _ _ _ _ Hvbc Hc) as ->.
    exists (S (Nat.max F1 F2)). intros [|fuel] Hf; [lia|].
    cbn [do_dict_key]. rewrite H2 by lia. rewrite Hvbc.
    cbn [Z.eqb VBC__UNICODE_CODE_POINT VBC__STRING VBC__FILLER VBC__STRUCTURE
           Pos.eqb].
    rewrite Hcont. apply H1. lia.
Qed.


End Walker.

(** ** The walker in a list *)

Section WalkerList.

Lemma check_filler_run (e e1 : Env I D) (res : walked I D) :
  filler_run e e1 ->
  eventually (fun fuel => check_that_a_value_follows fuel e1) res ->
  eventually (fun fuel => check_that_a_value_follows fuel e) res.
Proof.
  intros Hrun Hres. induction Hrun as [e | e t p l e1 e' [F2 H2] Hfill Hrun IH];
    [exact Hres|].
  destruct (IH Hres) as [F1 H1].
  exists (S (Nat.max F1 F2)). intros [|fuel] Hf; [lia|].
  cbn [check_that_a_value_follows]. rewrite H2 by lia.
  rewrite Hfill. cbn [Z.eqb VBC__FILLER]. apply H1. lia.
Qed.

Lemma do_list_skip_skippable (e : Env I D) (t : Token.t) (p l : Z)
    (e1 : Env I D) (d r : Z) (res : walked I D) :
  takes e t p l e1 -> skippable t ->
  eventually (fun fuel => do_list_skip fuel e1 d r) res ->
  eventually (fun fuel => do_list_skip fuel e d r) res.
Proof.
  intros [F2 H2] Hskip [F1 H1].
  exists (S (Nat.max F1 F2)). intros [|fuel] Hf; [lia|].
  cbn [do_list_skip]. rewrite H2 by lia.
  assert (E : Token.continued t || (Token.value_base_category t =? VBC__FILLER)
              = true).
  { destruct Hskip as [-> | ->]; [reflexivity | apply orb_true_r]. }
  rewrite E. apply H1. lia.
Qed.

(** The loop of [do_list] passes over one complete value, and over the
    contents of a container, keeping skip_depth. *)
Lemma do_list_skip_value :
  (forall h (e e' : Env I D),
     value h e e' ->
     forall d r res,
       0 <= d -> d + Z.of_nat h <= u32_max ->
       eventually (fun fuel => counted fuel e' d r) res ->
       eventually (fun fuel => do_list_skip fuel e d r) res)
  /\ (forall h (e e' : Env I D),
        items h e e' ->
        forall d r res,
          1 <= d -> d + Z.of_nat h <= u32_max ->
          eventually (fun fuel => do_list_skip fuel e' d r) res ->
          eventually (fun fuel => do_list_skip fuel e d r) res).
Proof.
  apply value_items_mutind.
  - intros h e t p l e' [F2 H2] Hcont Hnf Hns d r res Hd Hh [F1 H1].
    exists (S (Nat.max F1 F2)). intros [|fuel] Hf; [lia|].
    cbn [do_list_skip]. rewrite H2 by lia.
    apply Z.eqb_neq in Hnf, Hns. rewrite Hcont, Hnf, Hns. cbn [orb].
    apply H1. lia.
  - intros h e t p l e1 e2 t' p' l' e' [F2 H2] (Hc & Hs & Hp) _ IH
      [F3 H3] (Hc' & Hs' & Hp') d r res Hd Hh [F1 H1].
    assert (Hin : eventually (fun fuel => do_list_skip fuel e2 (d + 1) r) res).
    { exists (S (Nat.max F1 F3)). intros [|fuel] Hf; [lia|].
      cbn [do_list_skip]. rewrite H3 by lia.
      rewrite Hc', Hs', Hp'. cbn [orb Z.eqb VBC__STRUCTURE VBC__FILLER Pos.eqb].
      assert (E0 : (d + 1 =? 0) = false) by lia. rewrite E0.
      replace (d + 1 - 1) with d by lia. rewrite u32_id by lia.
      apply H1. lia. }
    apply IH in Hin; [|lia|lia]. destruct Hin as [F4 H4].
    exists (S (Nat.max F2 F4)). intros [|fuel] Hf; [lia|].
    cbn [do_list_skip]. rewrite H2 by lia.
    rewrite Hc, Hs, Hp. cbn [orb Z.eqb VBC__STRUCTURE VBC__FILLER Pos.eqb].
    rewrite u32_id by lia. apply H4. lia.
  - intros h e d r res _ _ Hres. exact Hres.
  - intros h e t p l e1 e' Htakes Hskip _ IH d r res Hd Hh Hres.
    eapply do_list_skip_skippable; eauto.
  - intros h e e1 e' _ IHv _ IHi d r res Hd Hh Hres.
    apply IHv; [lia | lia |]. apply IHi in Hres; [|lia|lia].
    destruct Hres as [F1 H1]. exists F1. intros fuel Hf. unfold counted.
    assert (E : (d >? 0) = true) by lia. rewrite E. apply H1. exact Hf.
Qed.

(** The loop of [do_list] at skip_depth 0 counts [n] complete values down
    from [r]. *)
Lemma do_list_skip_values (h n : nat) (e e' : Env I D) :
  values h n e e' ->
  forall r res,
    (1 <= n)%nat -> Z.of_nat n <= r <= u64_max -> Z.of_nat h <= u32_max ->
    eventually
      (fun fuel =>
         if r - Z.of_nat n =? 0 then check_that_a_value_follows fuel e'
         else do_list_skip fuel e' 0 (r - Z.of_nat n)) res ->
    eventually (fun fuel => do_list_skip fuel e 0 r) res.
Proof.
  intros Hv. induction Hv as
      [e | n e t p l e1 e' Htakes Hskip _ IH | n e e1 e' Hval Hv IH];
    intros r res Hn Hr Hh Hres.
  - lia.
  - eapply do_list_skip_skippable; eauto.
  - apply (proj1 do_list_skip_value h e e1 Hval 0 r res); [lia | lia |].
    unfold counted. cbn [Z.gtb Z.compare].
    rewrite (u64_id (r - 1)) by lia.
    destruct n as [|n].
    + inversion Hv; subst.
      replace (r - Z.of_nat 1) with (r - 1) in Hres by lia. exact Hres.
    + assert (E : (r - 1 =? 0) = false) by lia.
      assert (Hgo : eventually (fun fuel => do_list_skip fuel e1 0 (r - 1)) res).
      { apply IH; [lia | lia | lia |].
        replace (r - 1 - Z.of_nat (S n)) with (r - Z.of_nat (S (S n))) by lia.
        exact Hres. }
      destruct Hgo as [F1 H1]. exists F1. intros fuel Hf. rewrite E.
      apply H1. exact Hf.
Qed.

Lemma do_list_skip_skipped (e e' : Env I D) (d r : Z) (res : walked I D) :
  skipped e e' ->
  eventually (fun fuel => do_list_skip fuel e' d r) res ->
  eventually (fun fuel => do_list_skip fuel e d r) res.
Proof.
  intros Hs Hres. induction Hs as [e | e t p l e1 e' Htakes Hskip _ IH];
    [exact Hres|].
  eapply do_list_skip_skippable; eauto.
Qed.

End WalkerList.

Section WalkerListDescent.
Context {wb : WellBehaved inp jd}.

(** C4: at [do_list] the fragment is parsed as an unsigned decimal number
    and the walk returns "no match" when that fails.  With N the parsed
    number, the walk passes over exactly N complete values (with the
    continued and Filler tokens before them), keeping skip_depth for the
    containers among them, and goes on at [check_that_a_value_follows];
    a Structure token without PUSH at skip_depth 0 before N values were
    passed returns "no match".  [check_that_a_value_follows] passes over
    Filler tokens and peeks at the next token: it returns "no match" if
    that is a Structure token with POP and "" otherwise, in the state in
    which the token is not taken: the read index of the token buffer and
    cursor_index are back by one and by token_len, the stream position of
    the cursor is where it was before the token, and the next token taken
    is that same token. *)
Theorem walker_list_descent (frag : string) :
  let parsed := wuffs_base__parse_number_u64 (list_byte_of_string frag) in
  (is_ok (fst parsed) = false ->
   forall fuel (e : Env I D), do_list fuel e frag = Return DecodeJson_NoMatch e)
  /\ (is_ok (fst parsed) = true ->
      (snd parsed = 0 ->
       forall fuel (e : Env I D),
         do_list fuel e frag = check_that_a_value_follows fuel e)
      /\ (forall h n (e e' : Env I D),
            (1 <= n)%nat -> snd parsed = Z.of_nat n ->
            Z.of_nat n <= u64_max -> Z.of_nat h <= u32_max ->
            values h n e e' ->
            forall res,
              eventually (fun fuel => check_that_a_value_follows fuel e') res ->
              eventually (fun fuel => do_list fuel e frag) res)
      /\ (forall h k n (e e1 e2 : Env I D) t p l e3,
            (k < n)%nat -> snd parsed = Z.of_nat n ->
            Z.of_nat n <= u64_max -> Z.of_nat h <= u32_max ->
            values h k e e1 -> skipped e1 e2 ->
            takes e2 t p l e3 -> closes t ->
            eventually (fun fuel => do_list fuel e frag)
              (Return DecodeJson_NoMatch e3)))
  /\ (forall (e e1 : Env I D) t p l e2,
        filler_run e e1 ->
        takes e1 t p l e2 ->
        Token.value_base_category t <> VBC__FILLER ->
        eventually (fun fuel => check_that_a_value_follows fuel e)
          (Return
             (if (Token.value_base_category t =? VBC__STRUCTURE)
                 && has_bit (Token.value_base_detail t) VBD__STRUCTURE__POP
              then DecodeJson_NoMatch else EmptyString)
             (unget e2 l))
        /\ (env_ok e1 ->
            ri (tok_meta (tok_buf (unget e2 l)))
            = ri (tok_meta (tok_buf e2)) - 1
            /\ cursor_index (unget e2 l) = cursor_index e2 - l
            /\ l = Token.length t
            /\ position_of (unget e2 l) = position_of e1
            /\ takes (unget e2 l) t p l e2)).
Proof.
  intros parsed. splits.
  - intros Hfail fuel e. unfold do_list. fold parsed.
    destruct parsed as [st v]. cbn [fst] in Hfail. rewrite Hfail. reflexivity.
  - intros Hok. assert (Hdo : forall fuel (e : Env I D),
                          do_list fuel e frag
                          = if snd parsed =? 0
                            then check_that_a_value_follows fuel e
                            else do_list_skip fuel e 0 (snd parsed)).
    { intros fuel e. unfold do_list. fold parsed.
      destruct parsed as [st v]. cbn [fst snd] in *. rewrite Hok. reflexivity. }
    clearbody parsed. splits.
    + intros H0 fuel e. rewrite Hdo, H0. reflexivity.
    + intros h n e e' Hn HN Hr Hh Hv res [F1 H1].
      assert (Hgo : eventually (fun fuel => do_list_skip fuel e 0 (snd parsed))
                      res).
      { eapply do_list_skip_values; eauto; [lia|].
        exists F1. intros fuel Hf. rewrite HN, Z.sub_diag. cbn [Z.eqb].
        apply H1. exact Hf. }
      destruct Hgo as [F Hgo]. exists F. intros fuel Hf. rewrite Hdo.
      assert (E : (snd parsed =? 0) = false) by lia. rewrite E.
      apply Hgo. exact Hf.
    + intros h k n e e1 e2 t p l e3 Hk HN Hr Hh Hv Hs [F2 H2]
        (Hc & Hst & Hp).
      assert (Hclose : forall r,
                eventually (fun fuel => do_list_skip fuel e1 0 r)
                  (Return DecodeJson_NoMatch e3)).
      { intros r. eapply do_list_skip_skipped; [exact Hs|].
        exists (S F2). intros [|fuel] Hf; [lia|].
        cbn [do_list_skip]. rewrite H2 by lia. rewrite Hc, Hst, Hp.
        reflexivity. }
      assert (Hgo : eventually (fun fuel => do_list_skip fuel e 0 (snd parsed))
                      (Return DecodeJson_NoMatch e3)).
      { destruct k as [|k].
        - inversion Hv; subst. apply Hclose.
        - eapply do_list_skip_values; eauto; [lia | lia|].
          destruct (Hclose (snd parsed - Z.of_nat (S k))) as [F HF].
          exists F. intros fuel Hf.
          assert (Hlt : Z.of_nat (S k) < Z.of_nat n) by lia.
          assert (E : (snd parsed - Z.of_nat (S k) =? 0) = false)
            by (apply Z.eqb_neq; rewrite HN; lia).
          rewrite E. apply HF. exact Hf. }
      destruct Hgo as [F Hgo]. exists F. intros fuel Hf. rewrite Hdo.
      assert (E : (snd parsed =? 0) = false) by lia. rewrite E.
      apply Hgo. exact Hf.
  - intros e e1 t p l e2 Hfill [F2 H2] Hnf. split.
    + eapply check_filler_run; [exact Hfill|].
      exists (S F2). intros [|fuel] Hf; [lia|].
      cbn [check_that_a_value_follows]. rewrite H2 by lia.
      apply Z.eqb_neq in Hnf. rewrite Hnf.
      destruct ((Token.value_base_category t =? VBC__STRUCTURE)
                && has_bit (Token.value_base_detail t) VBD__STRUCTURE__POP);
        reflexivity.
    + intros He1. pose proof (GET_ok F2 e1 He1) as Hok.
      rewrite (H2 F2) in Hok by lia.
      destruct Hok as (He2 & Hl & Hl0 & Hpos & Hun & Hposu & e0 & Hr & Htake
                       & Hu & Hp & Hci & Hri & Hlt).
      splits.
      * rewrite Hu. lia.
      * rewrite Hu. lia.
      * exact Hl.
      * exact Hposu.
      * rewrite Hu. apply takes_buffered; assumption.
Qed.

End WalkerListDescent.

End Properties.

(** * Further properties *)

(** ** Compaction of an io_buffer *)

Lemma take_drop_app {A : Type} (l1 l2 : list A) (k n : nat) :
  (k + n <= List.length l1)%nat ->
  firstn n (skipn k (l1 ++ l2)) = firstn n (skipn k l1).
Proof.
  intros Hle. rewrite skipn_app.
  replace (k - List.length l1)%nat with O by lia. cbn [skipn].
  rewrite firstn_app, length_skipn.
  replace (n - (List.length l1 - k))%nat with O by lia.
  cbn [firstn]. apply app_nil_r.
Qed.

Lemma take_drop_take {A : Type} (l : list A) (k n m : nat) :
  (k + n <= m)%nat ->
  firstn n (skipn k (firstn m l)) = firstn n (skipn k l).
Proof.
  intros Hle. rewrite skipn_firstn_comm, firstn_firstn.
  replace (Nat.min n (m - k)) with n by lia. reflexivity.
Qed.

(** X1: compaction moves the written but unread bytes to the start of the
    buffer and loses none: the [n] bytes that stood [k] past the read index
    stand [k] past the start afterwards; the read index is 0, as many bytes
    remain unread, and the buffer keeps its length, its closed flag and the
    invariants of io-public.h. *)
Theorem compact_keeps_the_unread_bytes (b : wuffs_base__io_buffer) (k n : Z) :
  io_buffer_ok b ->
  0 <= k -> 0 <= n -> k + n <= wi (meta b) - ri (meta b) ->
  let b' := wuffs_base__io_buffer__compact b in
  firstn (Z.to_nat n) (skipn (Z.to_nat k) (data b'))
  = firstn (Z.to_nat n) (skipn (Z.to_nat (ri (meta b) + k)) (data b))
  /\ ri (meta b') = 0
  /\ wi (meta b') = wi (meta b) - ri (meta b)
  /\ data_len b' = data_len b
  /\ closed (meta b') = closed (meta b)
  /\ io_buffer_ok b'.
Proof.
  intros Hok Hk Hn Hkn b'.
  destruct (io_buffer__compact_ok b Hok) as (Hok' & Hri & Hwi & _ & Hcl & Hlen).
  fold b' in Hok', Hri, Hwi, Hcl, Hlen. splits; try assumption.
  pose proof Hok as (Hr & Hw & Hl & Hp). unfold data_len in Hw, Hl.
  subst b'. unfold wuffs_base__io_buffer__compact.
  destruct (ri (meta b) =? 0) eqn:E0.
  - apply Z.eqb_eq in E0. rewrite E0, Z.add_0_l. reflexivity.
  - cbn [data]. rewrite u64_id by lia.
    destruct (wi (meta b) - ri (meta b) =? 0) eqn:En; cbn [negb].
    + apply Z.eqb_eq in En. assert (k = 0) by lia. assert (n = 0) by lia.
      subst k n. reflexivity.
    + unfold memmove. rewrite take_drop_app.
      2:{ rewrite length_firstn, length_skipn. lia. }
      rewrite take_drop_take by lia. rewrite skipn_skipn.
      f_equal. f_equal. lia.
Qed.

(** X2: compacting a buffer that was just compacted changes nothing. *)
Theorem compact_is_idempotent (b : wuffs_base__io_buffer) :
  wuffs_base__io_buffer__compact (wuffs_base__io_buffer__compact b)
  = wuffs_base__io_buffer__compact b.
Proof.
  assert (Hri : ri (meta (wuffs_base__io_buffer__compact b)) = 0).
  { unfold wuffs_base__io_buffer__compact.
    destruct (ri (meta b) =? 0) eqn:E0; [|reflexivity].
    apply Z.eqb_eq. exact E0. }
  generalize dependent (wuffs_base__io_buffer__compact b). intros c Hri.
  unfold wuffs_base__io_buffer__compact. rewrite Hri. reflexivity.
Qed.

Lemma sat_add_le (x y z : Z) :
  y <= z ->
  wuffs_base__u64__sat_add x y <= wuffs_base__u64__sat_add x z.
Proof.
  intros Hle. unfold wuffs_base__u64__sat_add.
  destruct (x + y >? u64_max) eqn:E1; destruct (x + z >? u64_max) eqn:E2; lia.
Qed.

(** X3: compaction does not move the buffer in the stream: the reader's
    and the writer's position in the stream are the same before and after,
    also when pos saturates, and for a null pointer, whose positions are 0;
    and the reader is never ahead of the writer. *)
Theorem compact_keeps_the_io_positions (buf : option wuffs_base__io_buffer) :
  (forall b, buf = Some b -> io_buffer_ok b) ->
  let buf' := wuffs_base__io_buffer__compact__ptr buf in
  wuffs_base__io_buffer__reader_io_position__ptr buf'
  = wuffs_base__io_buffer__reader_io_position__ptr buf
  /\ wuffs_base__io_buffer__writer_io_position__ptr buf'
     = wuffs_base__io_buffer__writer_io_position__ptr buf
  /\ 0 <= wuffs_base__io_buffer__reader_io_position__ptr buf
     <= wuffs_base__io_buffer__writer_io_position__ptr buf
  /\ wuffs_base__io_buffer__writer_io_position__ptr buf <= u64_max.
Proof.
  intros Hok buf'. subst buf'. destruct buf as [b|]; cbn.
  2:{ unfold u64_max. lia. }
  specialize (Hok b eq_refl).
  destruct (io_buffer__compact_ok b Hok) as (_ & Hri & Hwi & Hpos & _ & _).
  destruct Hok as (Hr & Hw & Hl & Hp).
  unfold wuffs_base__io_buffer__reader_io_position,
    wuffs_base__io_buffer__writer_io_position.
  rewrite Hri, Hwi, Hpos. splits.
  - apply sat_add_0_r. apply sat_add_range; lia.
  - rewrite sat_add_assoc by lia. f_equal. lia.
  - pose proof (sat_add_range (pos (meta b)) (ri (meta b))). lia.
  - apply sat_add_le. lia.
  - pose proof (sat_add_range (pos (meta b)) (wi (meta b))). lia.
Qed.

(** ** Escaped fragments *)

Section RoundTrip.
Import PointerSpec.

Lemma drop_app_length (s t : string) :
  drop (String.length s) (s ++ t)%string = t.
Proof. induction s as [|c s IH]; [reflexivity | exact IH]. Qed.

Lemma segment_escape (fragment after : string) :
  after = EmptyString \/ (exists rest, after = String "/" rest) ->
  segment (escape fragment ++ after)%string = escape fragment.
Proof.
  intros Hafter. induction fragment as [|c f IH]; cbn [escape].
  - destruct Hafter as [-> | [rest ->]]; reflexivity.
  - destruct (c =? "~")%char eqn:Et.
    + cbn. rewrite IH. reflexivity.
    + destruct (c =? "/")%char eqn:Es.
      * cbn. rewrite IH. reflexivity.
      * cbn. rewrite Es, IH. reflexivity.
Qed.

Lemma bad_tilde_escape (fragment : string) :
  bad_tilde (escape fragment) = false.
Proof.
  induction fragment as [|c f IH]; [reflexivity|]. cbn [escape].
  destruct (c =? "~")%char eqn:Et; [cbn; exact IH|].
  destruct (c =? "/")%char eqn:Es; [cbn; exact IH|].
  cbn. rewrite Et, IH. reflexivity.
Qed.

Lemma unescape_escape (fragment : string) :
  unescape (escape fragment) = fragment.
Proof.
  induction fragment as [|c f IH]; [reflexivity|]. cbn [escape].
  destruct (c =? "~")%char eqn:Et.
  { apply Ascii.eqb_eq in Et. subst c. cbn. rewrite IH. reflexivity. }
  destruct (c =? "/")%char eqn:Es.
  { apply Ascii.eqb_eq in Es. subst c. cbn. rewrite IH. reflexivity. }
  cbn. rewrite Et, IH. reflexivity.
Qed.

(** X4: [DecodeJson_SplitJsonPointer] undoes the escaping: for any text
    [fragment], splitting at the start of its escaped form, wherever that
    stands in a pointer and provided the pointer ends or goes on with [/]
    after it, returns [fragment] itself and the index just past the escaped
    form.  So every dict key, whatever its bytes, can be named in a JSON
    Pointer. *)
Theorem split_undoes_escape (before fragment after : string) :
  after = EmptyString \/ (exists rest, after = String "/" rest) ->
  DecodeJson_SplitJsonPointer (before ++ escape fragment ++ after)
    (String.length before)
  = (fragment, (String.length before + String.length (escape fragment))%nat).
Proof.
  intros Hafter. rewrite SplitJsonPointer_spec. cbn zeta.
  rewrite drop_app_length, segment_escape by exact Hafter.
  rewrite bad_tilde_escape, unescape_escape. reflexivity.
Qed.

End RoundTrip.

Section PointerRoundTrip.
Context {I D : Type}.
Context {bits : TokenBits} {base : Base}.
Context {inp : Input I} {jd : JsonDecoder D}.
Import PointerSpec.

Lemma pointer_to_starts (fragments : list string) :
  pointer_to fragments = EmptyString
  \/ exists rest, pointer_to fragments = String "/" rest.
Proof. destruct fragments; [left | right; eexists]; reflexivity. Qed.

Lemma split_on_slash_pointer_to (fragment : string) (others : list string) :
  split_on_slash (escape fragment ++ pointer_to others)
  = map escape (fragment :: others).
Proof.
  revert fragment. induction others as [|g others IH]; intros fragment;
    rewrite split_on_slash_segment,
      (segment_escape fragment _ (pointer_to_starts _)), drop_app_length.
  - reflexivity.
  - cbn [pointer_to map]. rewrite IH. reflexivity.
Qed.

Lemma walk_escaped_fragments (fuel : nat) (e : Env I D)
    (fragments : list string) :
  walk_raw_fragments fuel e (map escape fragments)
  = walk_fragments fuel e fragments.
Proof.
  revert e fragments. induction fuel as [|f IH]; intros e fragments;
    [reflexivity|].
  destruct fragments as [|fragment others]; [reflexivity|].
  cbn [map walk_raw_fragments walk_fragments].
  rewrite bad_tilde_escape, unescape_escape.
  destruct (DecodeJson_WalkJsonPointerFragment f e fragment) as [m e'|];
    [|reflexivity].
  destruct (negb (empty m)); [reflexivity | apply IH].
Qed.

(** X17: a JSON Pointer built from fragments, each escaped and put after
    a [/], names exactly those fragments: the loop of [DecodeJson] that
    walks the pointer hands them to the walker one after the other, as
    they were before escaping, and stops at the first message. *)
Theorem pointer_to_is_walked_fragment_by_fragment (fuel : nat) (e : Env I D)
    (fragments : list string) :
  walk_json_pointer fuel e (pointer_to fragments) 0
  = walk_fragments fuel e fragments.
Proof.
  rewrite <- walk_escaped_fragments.
  destruct fragments as [|fragment others].
  - apply (proj1 (walk_json_pointer_from fuel e EmptyString 0)). reflexivity.
  - cbn [pointer_to].
    rewrite (proj2 (walk_json_pointer_from fuel e _ 0) _ eq_refl).
    rewrite split_on_slash_pointer_to. reflexivity.
Qed.

End PointerRoundTrip.

(** ** Base-16 decoding *)

Section BackslashX.
Context {base : Base}.

(** X5: when base-16 decoding makes progress (a call of decode4 that
    reports no error and consistent counts takes at least one of the bytes
    it was given), [DecodeJson_DecodeBackslashX] returns after at most as
    many passes as there are bytes, and what it leaves in [str] is [str]
    with something appended: also when it returns a message, nothing of
    [str] is lost. *)
Theorem DecodeBackslashX_returns (str : string) (encoded : list byte) :
  (forall src : list byte,
     src <> [] ->
     let o := fst (wuffs_base__base_16__decode4 64 src true) in
     is_error (status o) = false ->
     num_dst o <= 64 -> num_src o <= Z.of_nat (List.length src) ->
     1 <= num_src o) ->
  exists msg out,
    forall fuel, (List.length encoded <= fuel)%nat ->
      DecodeJson_DecodeBackslashX fuel str encoded
      = Some (msg, (str ++ out)%string).
Proof.
  intros Hprogress.
  assert (H : forall n encoded str, (List.length encoded <= n)%nat ->
            exists msg out,
              DecodeJson_DecodeBackslashX n str encoded
              = Some (msg, (str ++ out)%string)).
  { clear str encoded. induction n as [|n IH]; intros encoded str Hn.
    - destruct encoded; [|cbn in Hn; lia]. exists EmptyString, EmptyString.
      cbn. rewrite append_nil_r. reflexivity.
    - cbn [DecodeJson_DecodeBackslashX].
      destruct (Z.of_nat (List.length encoded) >? 0) eqn:Elen.
      2:{ exists EmptyString, EmptyString. rewrite append_nil_r. reflexivity. }
      assert (Hne : encoded <> []) by (intros ->; discriminate).
      specialize (Hprogress encoded Hne). cbn zeta in Hprogress.
      destruct (wuffs_base__base_16__decode4 64 encoded true) as [o decoded].
      cbn [fst] in Hprogress.
      destruct (is_error (status o)).
      { exists (status_message (status o)), EmptyString.
        rewrite append_nil_r. reflexivity. }
      destruct ((num_dst o >? 64)
                || (num_src o >? Z.of_nat (List.length encoded))) eqn:Ebad.
      { eexists. exists EmptyString. rewrite append_nil_r. reflexivity. }
      apply orb_false_iff in Ebad. destruct Ebad as [E1 E2].
      assert (Hsrc : 1 <= num_src o)
        by (apply Hprogress; [reflexivity | lia | lia]).
      destruct (IH (skipn (Z.to_nat (num_src o)) encoded)
                  (append str (firstn (Z.to_nat (num_dst o)) decoded)))
        as (msg & out & Hrun).
      { rewrite length_skipn. lia. }
      exists msg. eexists. rewrite Hrun. unfold append.
      rewrite append_assoc. reflexivity. }
  destruct (H (List.length encoded) encoded str (Nat.le_refl _))
    as (msg & out & Hrun).
  exists msg, out. intros fuel Hf.
  eapply DecodeBackslashX_more_fuel; eauto.
Qed.

(** X6: the loop of [DecodeJson_DecodeBackslashX] relies on that progress:
    when decode4, on bytes that are there, reports no error and takes none
    of them, the loop never ends. *)
Theorem DecodeBackslashX_spins (str : string) (encoded : list byte) :
  encoded <> [] ->
  let o := fst (wuffs_base__base_16__decode4 64 encoded true) in
  is_error (status o) = false ->
  num_dst o <= 64 ->
  num_src o = 0 ->
  forall fuel, DecodeJson_DecodeBackslashX fuel str encoded = None.
Proof.
  intros Hne o Herr Hdst Hsrc fuel. revert str.
  assert (Hlen : (Z.of_nat (List.length encoded) >? 0) = true).
  { clear - Hne. destruct encoded; [congruence|]. cbn [List.length].
    apply Z.gtb_lt. lia. }
  induction fuel as [|f IH]; intros str; cbn [DecodeJson_DecodeBackslashX];
    rewrite Hlen; [reflexivity|].
  subst o. destruct (wuffs_base__base_16__decode4 64 encoded true)
    as [o decoded]. cbn [fst] in *.
  rewrite Herr.
  assert (E : (num_dst o >? 64)
              || (num_src o >? Z.of_nat (List.length encoded)) = false).
  { apply orb_false_iff. split; lia. }
  rewrite E, Hsrc. cbn [Z.to_nat skipn]. apply IH.
Qed.

End BackslashX.

(** ** The driver *)

Section DriverProperties.
Context {I D C : Type}.
Context {bits : TokenBits} {base : Base}.
Context {inp : Input I} {jd : JsonDecoder D} {cbs : DecodeJsonCallbacks C I}.

(** ** Tokens and the bytes they stand for *)

Section Bounds.
Context {wb : WellBehaved inp jd}.

(** X7: the bytes of every token that the macro hands out lie in the part
    of io_buf that the decoder has read: from a valid state and with
    well-behaved collaborators, token_ptr and token_len are not negative and
    token_ptr + token_len is the new cursor_index, which is at most
    io_buf's ri, hence at most wi and data.len; so the slice
    (token_ptr, token_len) has token_len bytes. *)
Theorem token_bytes_in_bounds (fuel : nat) (e : Env I D) (t : Token.t)
    (p l : Z) (e' : Env I D) :
  env_ok e ->
  GET_THE_NEXT_TOKEN fuel e = Tok t p l e' ->
  0 <= p /\ 0 <= l /\ l = Token.length t
  /\ p + l = cursor_index e'
  /\ cursor_index e' <= ri (meta (io_buf e'))
  /\ ri (meta (io_buf e')) <= wi (meta (io_buf e'))
  /\ wi (meta (io_buf e')) <= data_len (io_buf e')
  /\ Z.of_nat (List.length (token_bytes (io_buf e') p l)) = l.
Proof.
  intros He Hget. unfold GET_THE_NEXT_TOKEN in Hget.
  pose proof (refill_ok fuel e He) as Hr.
  destruct (refill fuel e) as [[msg e0|e0]|]; try discriminate.
  destruct Hr as (He0 & _ & Hlt).
  pose proof (take_token_ok e0 He0 Hlt) as Ht. rewrite Hget in Ht.
  destruct Ht as (He' & _ & Hp & Hl & Hl0 & Hci & Hle & _).
  destruct He0 as (_ & _ & Hci0).
  destruct He' as ((Hri & Hwi & Hlen & Hpos) & _ & _).
  assert (Hbytes : Z.of_nat (List.length (token_bytes (io_buf e') p l)) = l).
  { unfold token_bytes. rewrite length_firstn, length_skipn.
    unfold data_len in Hwi. lia. }
  splits; try assumption; lia.
Qed.

End Bounds.

(** ** A decoder that has reported an error *)

(** X8: once the decoder's status is neither ok nor a suspension, the
    macro calls neither the decoder nor the input again: what it does is
    then decided by the token buffer alone.  While tokens are left it takes
    the next one, which leaves the status, the decoder, the input and
    io_buf as they were, so that the status is still there afterwards; when
    none is left it leaves for [done] with the message of the status, in
    the state it found. *)
Theorem decoder_is_not_called_after_an_error (fuel : nat) (e : Env I D)
    (err : bool) (m : string) :
  tok_status e = status_other err m ->
  GET_THE_NEXT_TOKEN (S fuel) e
  = (if ri (tok_meta (tok_buf e)) >=? wi (tok_meta (tok_buf e))
     then Stop m e else take_token e)
  /\ (forall t p l e',
        take_token e = Tok t p l e' ->
        tok_status e' = status_other err m
        /\ dec e' = dec e /\ input e' = input e /\ io_buf e' = io_buf e
        /\ io_error_message e' = io_error_message e
        /\ tok_data (tok_buf e') = tok_data (tok_buf e)
        /\ wi (tok_meta (tok_buf e')) = wi (tok_meta (tok_buf e))
        /\ ri (tok_meta (tok_buf e')) = u64 (ri (tok_meta (tok_buf e)) + 1)).
Proof.
  intros Hst. split.
  - destruct (ri (tok_meta (tok_buf e)) >=? wi (tok_meta (tok_buf e))) eqn:E.
    + rewrite GET_unbuffered by lia. unfold refill_body. rewrite Hst.
      reflexivity.
    + apply GET_buffered. lia.
  - intros t p l e' Htake. unfold take_token in Htake.
    match type of Htake with
    | (if ?c then _ else _) = _ => destruct c; [discriminate|]
    end.
    inversion Htake; subst. cbn. auto 10.
Qed.

(** X9: when the first call of the decoder (after the quirks were set)
    leaves no token and returns a status that is neither ok nor a
    suspension, [DecodeJson] with an empty JSON Pointer calls no callback
    but [Done], which gets the message of the status and, as the
    cursor_position, the position of the buffer as the decoder left it. *)
Theorem first_decoder_error_is_the_result (fuel : nat) (c : C) (input0 : I)
    (quirks : list Z) (d d' : D) (err : bool) (m : string)
    (tb : wuffs_base__token_buffer) (ib : wuffs_base__io_buffer) :
  alloc = Some d ->
  decode_tokens (fold_left (fun d q => set_quirk_enabled d q true) quirks d)
    initial_tok_buf
    match BringsItsOwnIOBuffer input0 with
    | Some b => b
    | None => fallback_io_buf
    end
  = (status_other err m, d', tb, ib) ->
  ri (tok_meta tb) >= wi (tok_meta tb) ->
  DecodeJson (3 + fuel) c input0 quirks EmptyString
  = Some (Done c (mk_result m (wuffs_base__u64__sat_add (pos (meta ib)) 0))
            input0 ib).
Proof.
  intros Halloc Hdec Hge. unfold DecodeJson, decode. rewrite Halloc.
  cbn [Nat.add walk_json_pointer String.length Nat.ltb Nat.leb empty
         String.eqb negb main_loop].
  rewrite GET_unbuffered by (cbn; lia).
  unfold refill_body at 1. cbn [tok_status]. unfold redecode.
  cbn [WUFFS_JSON__DECODER_WORKBUF_LEN_MAX_INCL_WORST_CASE Z.eqb negb dec
         tok_buf io_buf].
  rewrite Hdec. rewrite GET_unbuffered by (cbn; exact Hge).
  unfold refill_body. cbn [tok_status status_message]. reflexivity.
Qed.

(** ** A buffer that is full, and one that does not start at its start *)

(** X10: "io_buf is full" means that the buffer is too small for what the
    decoder has yet to read: on short_read with nothing else wrong, the
    macro leaves for [done] with that message, in the state it found,
    exactly when io_buf holds data.len written bytes of which none was
    read; when a byte was read or a byte is free, it compacts the buffer
    and calls [CopyIn], with cursor_index 0. *)
Theorem io_buf_is_full_when_nothing_was_read (e : Env I D) (fuel : nat) :
  io_buffer_ok (io_buf e) ->
  tok_status e = suspension__short_read ->
  ri (tok_meta (tok_buf e)) >= wi (tok_meta (tok_buf e)) ->
  io_error_message e = EmptyString ->
  cursor_index e = ri (meta (io_buf e)) ->
  closed (meta (io_buf e)) = false ->
  (ri (meta (io_buf e)) = 0 /\ wi (meta (io_buf e)) = data_len (io_buf e) ->
   GET_THE_NEXT_TOKEN (S fuel) e
   = Stop "wuffs_aux::DecodeJson: internal error: io_buf is full" e)
  /\ (0 < ri (meta (io_buf e)) \/ wi (meta (io_buf e)) < data_len (io_buf e) ->
      exists msg i' b',
        CopyIn (input e) (wuffs_base__io_buffer__compact (io_buf e))
        = (msg, i', b')
        /\ refill_body e
           = redecode (mk_env (tok_buf e) (tok_status e) (dec e) b' msg 0 i')).
Proof.
  intros Hok Hst Hemp Hmsg Hci Hcl.
  destruct (io_buffer__compact_ok _ Hok) as (_ & Hri' & Hwi' & _ & _ & Hlen').
  pose proof Hok as (Hri & Hwi & _ & _).
  assert (Hbody : refill_body e
                  = let b := wuffs_base__io_buffer__compact (io_buf e) in
                    if wi (meta b) >=? data_len b then
                      goto_done
                        "wuffs_aux::DecodeJson: internal error: io_buf is full"
                        (set_io_buf e b)
                    else
                      let '(msg, i', b') := CopyIn (input e) b in
                      redecode (mk_env (tok_buf e) (tok_status e) (dec e) b'
                                  msg (ri (meta b)) i')).
  { unfold refill_body. rewrite Hst, Hmsg. cbn [empty String.eqb negb].
    assert (E : (cursor_index e =? ri (meta (io_buf e))) = true) by lia.
    rewrite E, Hcl. reflexivity. }
  cbn zeta in Hbody. split.
  - intros [H0 Hfull]. rewrite GET_unbuffered by exact Hemp. rewrite Hbody.
    assert (E : (wi (meta (wuffs_base__io_buffer__compact (io_buf e)))
                 >=? data_len (wuffs_base__io_buffer__compact (io_buf e)))
                = true) by lia.
    rewrite E. f_equal. unfold wuffs_base__io_buffer__compact.
    rewrite H0. cbn [Z.eqb]. destruct e. reflexivity.
  - intros Hroom.
    assert (E : (wi (meta (wuffs_base__io_buffer__compact (io_buf e)))
                 >=? data_len (wuffs_base__io_buffer__compact (io_buf e)))
                = false) by lia.
    rewrite Hbody, E, Hri'.
    destruct (CopyIn (input e) (wuffs_base__io_buffer__compact (io_buf e)))
      as [[msg i'] b'].
    exists msg, i', b'. split; reflexivity.
Qed.

(** X11: [DecodeJson] starts with cursor_index 0 whatever io_buf's read
    index is.  When the first call of the decoder asks for more input
    without leaving a token and io_buf's ri is not 0 then (the input
    brought a buffer that was read in part, or the decoder took bytes for
    which it gave no token), [DecodeJson] does not call [CopyIn]: it hands
    "internal error: bad cursor_index" to [Done]. *)
Theorem own_buffer_must_start_at_ri_0 (fuel : nat) (c : C) (input0 : I)
    (quirks : list Z) (d d' : D) (tb : wuffs_base__token_buffer)
    (ib : wuffs_base__io_buffer) :
  alloc = Some d ->
  decode_tokens (fold_left (fun d q => set_quirk_enabled d q true) quirks d)
    initial_tok_buf
    match BringsItsOwnIOBuffer input0 with
    | Some b => b
    | None => fallback_io_buf
    end
  = (suspension__short_read, d', tb, ib) ->
  ri (tok_meta tb) >= wi (tok_meta tb) ->
  ri (meta ib) <> 0 ->
  DecodeJson (3 + fuel) c input0 quirks EmptyString
  = Some (Done c
            (mk_result "wuffs_aux::DecodeJson: internal error: bad cursor_index"
               (wuffs_base__u64__sat_add (pos (meta ib)) 0))
            input0 ib).
Proof.
  intros Halloc Hdec Hge Hri. unfold DecodeJson, decode. rewrite Halloc.
  cbn [Nat.add walk_json_pointer String.length Nat.ltb Nat.leb empty
         String.eqb negb main_loop].
  rewrite GET_unbuffered by (cbn; lia).
  unfold refill_body at 1. cbn [tok_status]. unfold redecode.
  cbn [WUFFS_JSON__DECODER_WORKBUF_LEN_MAX_INCL_WORST_CASE Z.eqb negb dec
         tok_buf io_buf].
  rewrite Hdec. rewrite GET_unbuffered by (cbn; exact Hge).
  unfold refill_body.
  cbn [tok_status io_error_message empty String.eqb negb cursor_index io_buf].
  assert (E : (0 =? ri (meta ib)) = false) by lia.
  rewrite E. reflexivity.
Qed.

(** ** Fillers, literals and byte strings in the main loop *)

Lemma filler_run_string_run (e e' : Env I D) (str : string) :
  filler_run e e' -> string_run e str e' str.
Proof.
  intros Hrun. induction Hrun as [e | e t p l e1 e' Htakes Hfill _ IH].
  - apply string_run_nil.
  - eapply string_run_filler; eauto.
Qed.

(** X12: a Literal token, after the Filler tokens before it, calls
    [AppendNull] when its detail has the NULL bit and else [AppendBool]
    with whether it has the TRUE bit; the call completes a value: the main
    loop leaves for [done] with the callback's message when there is one or
    [depth] is 0, and else goes on with [str] as it was. *)
Theorem literal_dispatch (e e1 : Env I D) (t : Token.t) (p l : Z)
    (e2 : Env I D) (depth : Z) (str : string) (c : C) :
  filler_run e e1 ->
  takes e1 t p l e2 ->
  Token.value_base_category t = VBC__LITERAL ->
  let r :=
    if has_bit (Token.value_base_detail t) VBD__LITERAL__NULL
    then AppendNull c
    else AppendBool c (has_bit (Token.value_base_detail t) VBD__LITERAL__TRUE)
  in
  (negb (empty (fst r)) || (depth =? 0) = true ->
   eventually (fun fuel => main_loop fuel e depth str c)
     (Finished (fst r) e2 (snd r)))
  /\ (negb (empty (fst r)) || (depth =? 0) = false ->
      forall res,
        eventually (fun fuel => main_loop fuel e2 depth str (snd r)) res ->
        eventually (fun fuel => main_loop fuel e depth str c) res).
Proof.
  intros Hfill [F2 H2] Hvbc r.
  assert (Hstep : forall fuel, (F2 <= fuel)%nat ->
            main_loop (S fuel) e1 depth str c
            = if negb (empty (fst r)) || (depth =? 0)
              then Finished (fst r) e2 (snd r)
              else main_loop fuel e2 depth str (snd r)).
  { intros fuel Hf. cbn [main_loop]. rewrite H2 by lia.
    unfold process_token. rewrite Hvbc.
    cbn [Z.eqb VBC__LITERAL VBC__FILLER VBC__STRUCTURE VBC__STRING
           VBC__UNICODE_CODE_POINT Pos.eqb].
    fold r. unfold parsed_a_value. destruct r as [ret c']. cbn [fst snd].
    destruct (negb (empty ret) || (depth =? 0)); reflexivity. }
  split.
  - intros Hend.
    eapply main_loop_string_run; [apply filler_run_string_run, Hfill|].
    exists (S F2). intros [|fuel] Hf; [lia|].
    rewrite Hstep by lia. rewrite Hend. reflexivity.
  - intros Hgo res [F1 H1].
    eapply main_loop_string_run; [apply filler_run_string_run, Hfill|].
    exists (S (Nat.max F1 F2)). intros [|fuel] Hf; [lia|].
    rewrite Hstep by lia. rewrite Hgo. apply H1. lia.
Qed.

(** X13: with the [AppendByteString] that json.cc gives
    [DecodeJsonCallbacks], a string whose closing token has no
    CHAIN_MUST_BE_UTF_8 ends the main loop, at any depth, with "unexpected
    JSON byte string", in the state right after that token and with the
    callbacks object untouched. *)
Theorem byte_strings_are_refused_by_default (e : Env I D) (str0 : string)
    (e1 : Env I D) (str1 : string) (t : Token.t) (p l : Z) (e2 : Env I D)
    (str2 : string) (depth : Z) (c : C) :
  (forall c' val,
     AppendByteString c' val = DecodeJsonCallbacks__AppendByteString c' val) ->
  string_run e str0 e1 str1 ->
  takes e1 t p l e2 ->
  Token.continued t = false ->
  Token.value_base_category t = VBC__STRING ->
  has_bit (Token.value_base_detail t) VBD__STRING__CHAIN_MUST_BE_UTF_8 = false ->
  contributes (io_buf e2) t p l str1 str2 ->
  eventually (fun fuel => main_loop fuel e depth str0 c)
    (Finished "wuffs_aux::DecodeJson: unexpected JSON byte string" e2 c).
Proof.
  intros Hdefault Hrun [F2 H2] Hcont Hvbc Hbytes Hc.
  destruct (contributes_string _ _ _ _ _ _ Hvbc Hc) as [F3 H3].
  eapply main_loop_string_run; [exact Hrun|].
  exists (S (Nat.max F2 F3)). intros [|fuel] Hf; [lia|].
  cbn [main_loop]. rewrite H2 by lia. unfold process_token. rewrite Hvbc.
  cbn [Z.eqb VBC__STRING VBC__FILLER VBC__STRUCTURE Pos.eqb].
  rewrite H3 by lia. rewrite Hcont, Hbytes, Hdefault. reflexivity.
Qed.

(** ** The walker in a dict *)

Section WalkerDict.

Lemma skip_dict_skippable (e : Env I D) (t : Token.t) (p l : Z)
    (e1 : Env I D) (d : Z) (frag : string) (res : walked I D) :
  takes e t p l e1 -> skippable t ->
  eventually (fun fuel => skip_the_next_dict_value fuel e1 d frag) res ->
  eventually (fun fuel => skip_the_next_dict_value fuel e d frag) res.
Proof.
  intros [F2 H2] Hskip [F1 H1].
  exists (S (Nat.max F1 F2)). intros [|fuel] Hf; [lia|].
  cbn [skip_the_next_dict_value]. rewrite H2 by lia.
  assert (E : Token.continued t || (Token.value_base_category t =? VBC__FILLER)
              = true).
  { destruct Hskip as [-> | ->]; [reflexivity | apply orb_true_r]. }
  rewrite E. apply H1. lia.
Qed.

(** The loop under [skip_the_next_dict_value] passes over one complete
    value, and over the contents of a container, keeping skip_depth. *)
Lemma skip_dict_value (frag : string) :
  (forall h (e e' : Env I D),
     value h e e' ->
     forall d res,
       0 <= d -> d + Z.of_nat h <= u32_max ->
       eventually (fun fuel => skipped_a_value fuel e' d frag) res ->
       eventually (fun fuel => skip_the_next_dict_value fuel e d frag) res)
  /\ (forall h (e e' : Env I D),
        items h e e' ->
        forall d res,
          1 <= d -> d + Z.of_nat h <= u32_max ->
          eventually (fun fuel => skip_the_next_dict_value fuel e' d frag) res ->
          eventually (fun fuel => skip_the_next_dict_value fuel e d frag) res).
Proof.
  apply value_items_mutind.
  - intros h e t p l e' [F2 H2] Hcont Hnf Hns d res Hd Hh [F1 H1].
    exists (S (Nat.max F1 F2)). intros [|fuel] Hf; [lia|].
    cbn [skip_the_next_dict_value]. rewrite H2 by lia.
    apply Z.eqb_neq in Hnf, Hns. rewrite Hcont, Hnf, Hns. cbn [orb].
    apply H1. lia.
  - intros h e t p l e1 e2 t' p' l' e' [F2 H2] (Hc & Hs & Hp) _ IH
      [F3 H3] (Hc' & Hs' & Hp') d res Hd Hh [F1 H1].
    assert (Hin : eventually
                    (fun fuel => skip_the_next_dict_value fuel e2 (d + 1) frag)
                    res).
    { exists (S (Nat.max F1 F3)). intros [|fuel] Hf; [lia|].
      cbn [skip_the_next_dict_value]. rewrite H3 by lia.
      rewrite Hc', Hs', Hp'. cbn [orb Z.eqb VBC__STRUCTURE VBC__FILLER Pos.eqb].
      replace (d + 1 - 1) with d by lia. rewrite u32_id by lia.
      apply H1. lia. }
    apply IH in Hin; [|lia|lia]. destruct Hin as [F4 H4].
    exists (S (Nat.max F2 F4)). intros [|fuel] Hf; [lia|].
    cbn [skip_the_next_dict_value]. rewrite H2 by lia.
    rewrite Hc, Hs, Hp. cbn [orb Z.eqb VBC__STRUCTURE VBC__FILLER Pos.eqb].
    rewrite u32_id by lia. apply H4. lia.
  - intros h e d res _ _ Hres. exact Hres.
  - intros h e t p l e1 e' Htakes Hskip _ IH d res Hd Hh Hres.
    eapply skip_dict_skippable; eauto.
  - intros h e e1 e' _ IHv _ IHi d res Hd Hh Hres.
    apply IHv; [lia | lia |]. apply IHi in Hres; [|lia|lia].
    destruct Hres as [F1 H1]. exists F1. intros fuel Hf.
    unfold skipped_a_value.
    assert (E : (d =? 0) = false) by lia. rewrite E. apply H1. exact Hf.
Qed.

(** After a key that is not the fragment, the walker passes over the
    key's value and reads the next key. *)
Lemma skip_dict_one_value (h n : nat) (e e' : Env I D) (frag : string)
    (res : walked I D) :
  values h n e e' -> n = 1%nat -> Z.of_nat h <= u32_max ->
  eventually (fun fuel => do_dict_key fuel e' EmptyString frag) res ->
  eventually (fun fuel => skip_the_next_dict_value fuel e 0 frag) res.
Proof.
  intros Hv. induction Hv as
      [e | n e t p l e1 e' Htakes Hskip _ IH | n e e1 e' Hval Hv _];
    intros Hn Hh Hres.
  - discriminate.
  - eapply skip_dict_skippable; eauto.
  - assert (n = O) by lia. subst n. inversion Hv; subst.
    apply (proj1 (skip_dict_value frag) h e e' Hval 0 res); [lia | lia |].
    exact Hres.
Qed.

(** Reading a key to its end: the walker returns when the key is the
    fragment and goes on to skip the value when it is not. *)
Lemma do_dict_key_whole (e : Env I D) (str : string) (e' : Env I D)
    (frag : string) :
  dict_key e str e' ->
  (str = frag ->
   eventually (fun fuel => do_dict_key fuel e EmptyString frag)
     (Return EmptyString e'))
  /\ (str <> frag ->
      forall res,
        eventually (fun fuel => skip_the_next_dict_value fuel e' 0 frag) res ->
        eventually (fun fuel => do_dict_key fuel e EmptyString frag) res).
Proof.
  intros Hkey. destruct Hkey as [e e1 str1 t p l e' str Hrun [F2 H2] Hcont Hc].
  assert (Hstep : exists F, forall fuel, (F <= fuel)%nat ->
            do_dict_key (S fuel) e1 str1 frag
            = if (str =? frag)%string then Return EmptyString e'
              else skip_the_next_dict_value fuel e' 0 frag).
  { destruct (contributes_category _ _ _ _ _ _ Hc) as [Hvbc | Hvbc].
    - destruct (contributes_string _ _ _ _ _ _ Hvbc Hc) as [F3 H3].
      exists (Nat.max F2 F3). intros fuel Hf.
      cbn [do_dict_key]. rewrite H2 by lia. rewrite Hvbc.
      cbn [Z.eqb VBC__STRING VBC__FILLER VBC__STRUCTURE Pos.eqb].
      rewrite H3 by lia. rewrite Hcont. reflexivity.
    - pose proof (contributes_code_point_only _ _ _ _ _ _ Hvbc Hc) as ->.
      exists F2. intros fuel Hf.
      cbn [do_dict_key]. rewrite H2 by lia. rewrite Hvbc.
      cbn [Z.eqb VBC__UNICODE_CODE_POINT VBC__STRING VBC__FILLER
             VBC__STRUCTURE Pos.eqb].
      rewrite Hcont. reflexivity. }
  destruct Hstep as [F Hstep]. split.
  - intros Heq. eapply do_dict_key_string_run; [exact Hrun|].
    exists (S F). intros [|fuel] Hf; [lia|]. rewrite Hstep by lia.
    apply String.eqb_eq in Heq. rewrite Heq. reflexivity.
  - intros Hne res [F1 H1]. eapply do_dict_key_string_run; [exact Hrun|].
    exists (S (Nat.max F F1)). intros [|fuel] Hf; [lia|].
    rewrite Hstep by lia.
    apply String.eqb_neq in Hne. rewrite Hne. apply H1. lia.
Qed.

(** The walker reads past the entries whose keys are not the fragment. *)
Lemma do_dict_key_other_entries (h : nat) (frag : string) (e e' : Env I D)
    (res : walked I D) :
  Z.of_nat h <= u32_max ->
  other_entries h frag e e' ->
  eventually (fun fuel => do_dict_key fuel e' EmptyString frag) res ->
  eventually (fun fuel => do_dict_key fuel e EmptyString frag) res.
Proof.
  intros Hh Hent Hres.
  induction Hent as [e | e str e1 e2 e' Hkey Hne Hval _ IH]; [exact Hres|].
  apply (proj2 (do_dict_key_whole e str e1 frag Hkey) Hne).
  eapply skip_dict_one_value; eauto.
Qed.

(** At [do_dict]: past the entries with other keys, the key that is the
    fragment, or the end of the dict. *)
Lemma do_dict_lookup (h : nat) (frag : string) (e e1 : Env I D) :
  Z.of_nat h <= u32_max ->
  other_entries h frag e e1 ->
  (forall e2,
     dict_key e1 frag e2 ->
     eventually (fun fuel => do_dict fuel e frag) (Return EmptyString e2))
  /\ (forall e1' t p l e2,
        filler_run e1 e1' ->
        takes e1' t p l e2 ->
        closes t ->
        eventually (fun fuel => do_dict fuel e frag)
          (Return DecodeJson_NoMatch e2)).
Proof.
  intros Hh Hent. unfold do_dict. split.
  - intros e2 Hkey. eapply do_dict_key_other_entries; eauto.
    apply (proj1 (do_dict_key_whole e1 frag e2 frag Hkey)). reflexivity.
  - intros e1' t p l e2 Hfill [F2 H2] (Hc & Hs & Hp).
    eapply do_dict_key_other_entries; eauto.
    eapply do_dict_key_string_run;
      [apply filler_run_string_run; exact Hfill|].
    exists (S F2). intros [|fuel] Hf; [lia|].
    cbn [do_dict_key]. rewrite H2 by lia. rewrite Hs, Hp. reflexivity.
Qed.

(** X14: in a dict, [DecodeJson_WalkJsonPointerFragment] finds the first
    entry whose key is the fragment.  When the first token that is not a
    Filler opens a container that is not a list, and entries with other
    keys follow, each a key and one complete value (nested less deep than
    2^32), then a key equal to the fragment makes the walk return "" in the
    state right after that key, and the end of the dict, after Filler
    tokens, makes it return "no match". *)
Theorem walker_dict_lookup (h : nat) (frag : string) (e e0 : Env I D)
    (t0 : Token.t) (p0 l0 : Z) (e1 e2 : Env I D) :
  Z.of_nat h <= u32_max ->
  filler_run e e0 ->
  takes e0 t0 p0 l0 e1 ->
  opens t0 ->
  has_bit (Token.value_base_detail t0) VBD__STRUCTURE__TO_LIST = false ->
  other_entries h frag e1 e2 ->
  (forall e3,
     dict_key e2 frag e3 ->
     eventually (fun fuel => DecodeJson_WalkJsonPointerFragment fuel e frag)
       (Return EmptyString e3))
  /\ (forall e2' t p l e3,
        filler_run e2 e2' ->
        takes e2' t p l e3 ->
        closes t ->
        eventually (fun fuel => DecodeJson_WalkJsonPointerFragment fuel e frag)
          (Return DecodeJson_NoMatch e3)).
Proof.
  intros Hh Hfill [F0 H0] (_ & Hs & Hp) Hdict Hent.
  assert (Henter : forall res,
            eventually (fun fuel => do_dict fuel e1 frag) res ->
            eventually
              (fun fuel => DecodeJson_WalkJsonPointerFragment fuel e frag) res).
  { intros res [F1 H1]. eapply Walk_filler_run; [exact Hfill|].
    exists (S (Nat.max F0 F1)). intros [|fuel] Hf; [lia|].
    cbn [DecodeJson_WalkJsonPointerFragment]. rewrite H0 by lia.
    rewrite Hs, Hp, Hdict.
    cbn [Z.eqb VBC__STRUCTURE VBC__FILLER Pos.eqb negb orb].
    apply H1. lia. }
  destruct (do_dict_lookup h frag e1 e2 Hh Hent) as [Hfound Hend]. split.
  - intros e3 Hkey. apply Henter, Hfound, Hkey.
  - intros e2' t p l e3 Hf Ht Hc. apply Henter. eapply Hend; eauto.
Qed.

End WalkerDict.

End DriverProperties.

(** ** What holds all along a run *)

Section EnvKeeps.
Context {J D C : Type}.
Context {bits : TokenBits} {base : Base}.
Context {inpJ : Input J} {jd : JsonDecoder D} {cbs : DecodeJsonCallbacks C J}.
Variable P : Env J D -> Prop.
Hypothesis GET_keeps_P :
  forall fuel (e : Env J D), P e ->
    match GET_THE_NEXT_TOKEN fuel e with
    | Stop _ e' => P e'
    | Tok _ _ l e' => P e' /\ P (unget e' l)
    | Diverges => True
    end.

Ltac branches IH :=
  repeat match goal with
         | |- context [if ?c then _ else _] => destruct c
         end;
  try assumption; try (apply IH; assumption).

Ltac next_token f e HP :=
  let HG := fresh "HG" in
  let HU := fresh "HU" in
  pose proof (GET_keeps_P f e HP) as HG;
  destruct (GET_THE_NEXT_TOKEN f e) as [?m ?e1|?t ?p ?l ?e1|];
  [exact HG | destruct HG as [HG HU] | exact Logic.I].

Lemma check_keeps (fuel : nat) (e : Env J D) :
  P e ->
  match check_that_a_value_follows fuel e with
  | Return _ e' => P e'
  | WalkDiverges => True
  end.
Proof.
  revert e. induction fuel as [|f IH]; intros e HP; [exact Logic.I|].
  cbn [check_that_a_value_follows]. next_token f e HP. branches IH.
Qed.

Lemma do_list_skip_keeps (fuel : nat) (e : Env J D) (d r : Z) :
  P e ->
  match do_list_skip fuel e d r with
  | Return _ e' => P e'
  | WalkDiverges => True
  end.
Proof.
  revert e d r. induction fuel as [|f IH]; intros e d r HP; [exact Logic.I|].
  cbn [do_list_skip]. next_token f e HP.
  branches IH; apply check_keeps; assumption.
Qed.

Lemma do_dict_keeps (fuel : nat) :
  (forall (e : Env J D) str frag,
     P e ->
     match do_dict_key fuel e str frag with
     | Return _ e' => P e'
     | WalkDiverges => True
     end)
  /\ (forall (e : Env J D) d frag,
        P e ->
        match skip_the_next_dict_value fuel e d frag with
        | Return _ e' => P e'
        | WalkDiverges => True
        end).
Proof.
  induction fuel as [|f [IHk IHs]]; [split; intros; exact Logic.I|].
  split.
  - intros e str frag HP. cbn [do_dict_key]. next_token f e HP.
    destruct (Token.value_base_category t =? VBC__FILLER); [apply IHk, HG|].
    destruct (Token.value_base_category t =? VBC__STRUCTURE);
      [destruct (has_bit _ _); exact HG|].
    destruct (Token.value_base_category t =? VBC__STRING).
    + destruct (assemble_string_token f (io_buf e1)
                  (Token.value_base_detail t) p l str);
        try exact HG; try exact Logic.I.
      destruct (Token.continued t); [apply IHk, HG|].
      destruct (_ =? _)%string; [exact HG | apply IHs, HG].
    + destruct (Token.value_base_category t =? VBC__UNICODE_CODE_POINT);
        [|exact HG].
      destruct (Token.continued t); [apply IHk, HG|].
      destruct (_ =? _)%string; [exact HG | apply IHs, HG].
  - intros e d frag HP. cbn [skip_the_next_dict_value]. next_token f e HP.
    repeat match goal with
           | |- context [if ?c then _ else _] => destruct c
           end;
      first [apply IHk, HG | apply IHs, HG].
Qed.

Lemma Walk_keeps (fuel : nat) (e : Env J D) (frag : string) :
  P e ->
  match DecodeJson_WalkJsonPointerFragment fuel e frag with
  | Return _ e' => P e'
  | WalkDiverges => True
  end.
Proof.
  revert e. induction fuel as [|f IH]; intros e HP; [exact Logic.I|].
  cbn [DecodeJson_WalkJsonPointerFragment]. next_token f e HP.
  destruct (Token.value_base_category t =? VBC__FILLER); [apply IH, HG|].
  destruct (negb (Token.value_base_category t =? VBC__STRUCTURE)
            || negb (has_bit (Token.value_base_detail t)
                       VBD__STRUCTURE__PUSH)); [exact HG|].
  destruct (has_bit (Token.value_base_detail t) VBD__STRUCTURE__TO_LIST).
  - unfold do_list.
    destruct (wuffs_base__parse_number_u64 (list_byte_of_string frag))
      as [st v].
    destruct (negb (is_ok st)); [exact HG|].
    destruct (v =? 0); [apply check_keeps | apply do_list_skip_keeps];
      exact HG.
  - unfold do_dict. apply (proj1 (do_dict_keeps f)). exact HG.
Qed.

Lemma walk_json_pointer_keeps (fuel : nat) (e : Env J D) (s : string)
    (i : nat) :
  P e ->
  match walk_json_pointer fuel e s i with
  | Return _ e' => P e'
  | WalkDiverges => True
  end.
Proof.
  revert e i. induction fuel as [|f IH]; intros e i HP; [exact Logic.I|].
  cbn [walk_json_pointer].
  destruct (i <? String.length s)%nat; [|exact HP].
  destruct (negb (char_at s i =? "/")%char); [exact HP|].
  destruct (snd (DecodeJson_SplitJsonPointer s (i + 1)) =? 0)%nat;
    [exact HP|].
  pose proof (Walk_keeps f e (fst (DecodeJson_SplitJsonPointer s (i + 1))) HP)
    as HW.
  destruct (DecodeJson_WalkJsonPointerFragment f e
              (fst (DecodeJson_SplitJsonPointer s (i + 1)))) as [m e1|];
    [|exact Logic.I].
  destruct (negb (empty m)); [exact HW | apply IH, HW].
Qed.

Lemma main_loop_keeps (fuel : nat) (e : Env J D) (depth : Z) (str : string)
    (c : C) :
  P e ->
  match main_loop fuel e depth str c with
  | Finished _ e' _ => P e'
  | DecodeDiverges => True
  end.
Proof.
  revert e depth str c.
  induction fuel as [|f IH]; intros e depth str c HP; [exact Logic.I|].
  cbn [main_loop].
  pose proof (GET_keeps_P f e HP) as HG.
  destruct (GET_THE_NEXT_TOKEN f e) as [m e1|t p l e1|];
    [exact HG | destruct HG as [HG _] | exact Logic.I].
  destruct (process_token f (io_buf e1) t p l depth str c);
    [apply IH, HG | exact HG | exact Logic.I].
Qed.

(** What the state of the macro is known to satisfy when [DecodeJson]
    begins, and every use of the macro keeps, holds of the buffer, the
    cursor and the input at the label [done]. *)
Lemma decode_keeps (R : wuffs_base__io_buffer -> Z -> J -> Prop)
    (fuel : nat) (c : C) (input0 : J) (quirks : list Z)
    (json_pointer : string) (s : stopped J C) :
  (forall e, P e -> R (io_buf e) (cursor_index e) (input e)) ->
  R match BringsItsOwnIOBuffer input0 with
    | Some b => b
    | None => fallback_io_buf
    end 0 input0 ->
  (forall d,
     P (mk_env initial_tok_buf status_ok d
          match BringsItsOwnIOBuffer input0 with
          | Some b => b
          | None => fallback_io_buf
          end EmptyString 0 input0)) ->
  decode fuel c input0 quirks json_pointer = Some s ->
  R (stop_io_buf s) (stop_cursor_index s) (stop_input s).
Proof.
  intros HPR HR0 HP0. unfold decode. destruct alloc as [d|].
  2:{ intros Hs. inversion Hs; subst. exact HR0. }
  match goal with
  | |- context [walk_json_pointer fuel ?e0 json_pointer 0] =>
      pose proof (walk_json_pointer_keeps fuel e0 json_pointer 0 (HP0 _))
        as HW;
      destruct (walk_json_pointer fuel e0 json_pointer 0) as [m e1|];
      [|discriminate]
  end.
  destruct (negb (empty m)).
  { intros Hs. inversion Hs; subst. apply HPR. exact HW. }
  pose proof (main_loop_keeps fuel e1 0 EmptyString c HW) as HM.
  destruct (main_loop fuel e1 0 EmptyString c) as [m2 e2 c2|];
    [|discriminate].
  intros Hs. inversion Hs; subst. apply HPR. exact HM.
Qed.

End EnvKeeps.

(** ** The buffer and the cursor at the label [done] *)

Section ValidAtDone.
Context {I D C : Type}.
Context {bits : TokenBits} {base : Base}.
Context {inp : Input I} {jd : JsonDecoder D} {cbs : DecodeJsonCallbacks C I}.
Context {wb : WellBehaved inp jd}.

Lemma sat_add_ge (x y : Z) :
  0 <= y -> x <= u64_max -> x <= wuffs_base__u64__sat_add x y.
Proof.
  intros Hy Hx. unfold wuffs_base__u64__sat_add.
  destruct (x + y >? u64_max); lia.
Qed.

Lemma initial_tok_buf_ok : token_buffer_ok initial_tok_buf.
Proof.
  unfold token_buffer_ok, initial_tok_buf. cbn [tok_meta tok_data ri wi].
  rewrite repeat_length. unfold u64_max. splits; try lia.
  apply Forall_forall. intros t Ht. apply repeat_spec in Ht. subst t.
  cbn. lia.
Qed.

(** X16: with well-behaved collaborators and a buffer from the input that
    satisfies the invariants of io-public.h, the buffer that [DecodeJson]
    hands to [Done] satisfies them too, and the cursor never went back:
    cursor_index is not negative and the cursor_position of the result
    assembled at [done] is at least the pos that the buffer started
    with. *)
Theorem buffer_is_valid_at_done (fuel : nat) (c : C) (input0 : I)
    (quirks : list Z) (json_pointer : string) (s : stopped I C) :
  let b0 := match BringsItsOwnIOBuffer input0 with
            | Some b => b
            | None => fallback_io_buf
            end in
  io_buffer_ok b0 ->
  decode fuel c input0 quirks json_pointer = Some s ->
  io_buffer_ok (stop_io_buf s)
  /\ 0 <= stop_cursor_index s
  /\ pos (meta b0) <= cursor_position (assembled_result s) <= u64_max.
Proof.
  intros b0 Hb0 Hs.
  refine (decode_keeps
            (fun e => env_ok e /\ pos (meta b0) <= position_of e)
            _
            (fun b ci _ =>
               io_buffer_ok b /\ 0 <= ci
               /\ pos (meta b0) <= wuffs_base__u64__sat_add (pos (meta b)) ci
                  <= u64_max)
            fuel c input0 quirks json_pointer s _ _ _ Hs).
  - intros f e [He Hp]. pose proof (GET_ok f e He) as Hok.
    assert (Hmax : position_of e <= u64_max).
    { destruct He as ((_ & _ & _ & Hpos) & _ & Hci).
      apply sat_add_range; lia. }
    destruct (GET_THE_NEXT_TOKEN f e) as [m e'|t p l e'|];
      [| |exact Logic.I].
    + destruct Hok as [He' Hp']. split; [exact He' | lia].
    + destruct Hok as (He' & _ & Hl & Hp' & Hu & Hpu & _).
      pose proof (sat_add_ge (position_of e) l Hl Hmax). splits; try assumption; lia.
  - intros e [(Hio & _ & Hci) Hp]. pose proof Hio as (_ & _ & _ & Hpos).
    unfold position_of in Hp. splits; try assumption.
    apply sat_add_range; lia.
  - fold b0. pose proof Hb0 as (_ & _ & _ & Hpos).
    rewrite sat_add_0_r by exact Hpos. splits; try assumption; lia.
  - intros d. fold b0. split.
    + unfold env_ok. cbn [io_buf tok_buf cursor_index].
      splits; [exact Hb0 | exact initial_tok_buf_ok | lia].
    + unfold position_of. cbn [io_buf cursor_index].
      pose proof Hb0 as (_ & _ & _ & Hpos).
      rewrite sat_add_0_r by exact Hpos. lia.
Qed.

End ValidAtDone.

(** ** What [CopyIn] is handed *)

Section CopyInContract.
Context {I D C : Type}.
Context {bits : TokenBits} {base : Base}.
Context {inp : Input I} {jd : JsonDecoder D} {cbs : DecodeJsonCallbacks C I}.

(** One pass of the refill loop hands [CopyIn] at most one buffer, and
    one that is ready for it; the watcher changes nothing else. *)
Lemma refill_body_watched (e : Env (I * list wuffs_base__io_buffer) D) :
  match refill_body (inp := Watched inp) e with
  | goto_done _ e' | again e' =>
      snd (input e') = snd (input e)
      \/ exists b, snd (input e') = snd (input e) ++ [b]
                   /\ ready_for_CopyIn b
                   /\ b = wuffs_base__io_buffer__compact (io_buf e)
                   /\ tok_status e = suspension__short_read
  end.
Proof.
  assert (Hre : forall e1 : Env (I * list wuffs_base__io_buffer) D,
            match redecode e1 with
            | goto_done _ e' | again e' => input e' = input e1
            end).
  { intros e1. unfold redecode. cbn.
    destruct (decode_tokens (dec e1) (tok_buf e1) (io_buf e1))
      as [[[st d] tb] ib]. reflexivity. }
  unfold refill_body. destruct (tok_status e) eqn:Est.
  - specialize (Hre e). destruct (redecode e); left; congruence.
  - destruct (negb (empty (io_error_message e))); [left; reflexivity|].
    destruct (negb (cursor_index e =? ri (meta (io_buf e))));
      [left; reflexivity|].
    destruct (closed (meta (io_buf e))) eqn:Ecl; [left; reflexivity|].
    set (b := wuffs_base__io_buffer__compact (io_buf e)).
    destruct (wi (meta b) >=? data_len b) eqn:Efull; [left; reflexivity|].
    cbn [CopyIn Watched].
    destruct (CopyIn (fst (input e)) b) as [[msg i'] b'].
    match goal with
    | |- match redecode ?e1 with _ => _ end =>
        specialize (Hre e1); destruct (redecode e1);
        right; exists b; rewrite Hre; cbn [input snd]
    end.
    all: splits; try reflexivity; unfold ready_for_CopyIn; splits; try lia.
    all: subst b; unfold wuffs_base__io_buffer__compact;
      destruct (ri (meta (io_buf e)) =? 0) eqn:E0; cbn [meta ri closed];
      try reflexivity; try exact Ecl; try (apply Z.eqb_eq; exact E0).
  - match goal with
    | |- match redecode ?e1 with _ => _ end =>
        specialize (Hre e1); destruct (redecode e1); left; rewrite Hre;
        reflexivity
    end.
  - left. reflexivity.
Qed.

Lemma refill_watched (fuel : nat) (e : Env (I * list wuffs_base__io_buffer) D) :
  Forall ready_for_CopyIn (snd (input e)) ->
  match refill (inp := Watched inp) fuel e with
  | Some (goto_done _ e') | Some (again e') =>
      Forall ready_for_CopyIn (snd (input e'))
  | None => True
  end.
Proof.
  revert e. induction fuel as [|f IH]; intros e HQ; cbn [refill];
    destruct (ri (tok_meta (tok_buf e)) >=? wi (tok_meta (tok_buf e)));
    try exact HQ; try exact Logic.I.
  pose proof (refill_body_watched e) as Hb.
  assert (HQ' : match refill_body (inp := Watched inp) e with
                | goto_done _ e' | again e' =>
                    Forall ready_for_CopyIn (snd (input e'))
                end).
  { destruct (refill_body e) as [m e'|e'];
      (destruct Hb as [-> | (b & -> & Hready & _)];
       [exact HQ
       | apply Forall_app; split;
         [exact HQ | constructor; [exact Hready | constructor]]]). }
  destruct (refill_body e) as [m e1|e1]; [exact HQ' | apply IH; exact HQ'].
Qed.

(** The watcher only watches: a pass of the refill loop with it is the
    pass without it. *)
Lemma refill_body_unwatched (e : Env (I * list wuffs_base__io_buffer) D) :
  unwatched_refilled (refill_body (inp := Watched inp) e)
  = refill_body (inp := inp) (unwatched e).
Proof.
  assert (Hre : forall e1 : Env (I * list wuffs_base__io_buffer) D,
            unwatched_refilled (redecode e1) = redecode (unwatched e1)).
  { intros e1. unfold redecode. cbn.
    destruct (decode_tokens (dec e1) (tok_buf e1) (io_buf e1))
      as [[[st d] tb] ib]. reflexivity. }
  unfold refill_body.
  cbn [unwatched tok_status io_error_message cursor_index io_buf input].
  destruct (tok_status e).
  - apply Hre.
  - destruct (negb (empty (io_error_message e))); [reflexivity|].
    destruct (negb (cursor_index e =? ri (meta (io_buf e)))); [reflexivity|].
    destruct (closed (meta (io_buf e))); [reflexivity|].
    destruct (wi (meta (wuffs_base__io_buffer__compact (io_buf e)))
              >=? data_len (wuffs_base__io_buffer__compact (io_buf e)));
      [reflexivity|].
    cbn [CopyIn Watched input].
    destruct (CopyIn (fst (input e))
                (wuffs_base__io_buffer__compact (io_buf e)))
      as [[msg i'] b'].
    rewrite Hre. reflexivity.
  - rewrite Hre. reflexivity.
  - reflexivity.
Qed.

Lemma refill_unwatched (fuel : nat)
    (e : Env (I * list wuffs_base__io_buffer) D) :
  option_map unwatched_refilled (refill (inp := Watched inp) fuel e)
  = refill (inp := inp) fuel (unwatched e).
Proof.
  revert e. induction fuel as [|f IH]; intros e; cbn [refill];
    change (tok_buf (unwatched e)) with (tok_buf e);
    destruct (ri (tok_meta (tok_buf e)) >=? wi (tok_meta (tok_buf e)));
    try reflexivity.
  rewrite <- refill_body_unwatched.
  destruct (refill_body (inp := Watched inp) e) as [m e1|e1];
    [reflexivity | apply IH].
Qed.

Lemma take_token_unwatched (e : Env (I * list wuffs_base__io_buffer) D) :
  unwatched_next (take_token e) = take_token (unwatched e).
Proof.
  unfold take_token. cbn [unwatched tok_buf io_buf cursor_index set_tok_buf].
  match goal with |- context [if ?c then _ else _] => destruct c end;
    reflexivity.
Qed.

Lemma GET_unwatched (fuel : nat)
    (e : Env (I * list wuffs_base__io_buffer) D) :
  unwatched_next (GET_THE_NEXT_TOKEN (inp := Watched inp) fuel e)
  = GET_THE_NEXT_TOKEN (inp := inp) fuel (unwatched e).
Proof.
  unfold GET_THE_NEXT_TOKEN. rewrite <- refill_unwatched.
  destruct (refill (inp := Watched inp) fuel e) as [[m e1|e1]|];
    cbn [option_map unwatched_refilled unwatched_next];
    [reflexivity | apply take_token_unwatched | reflexivity].
Qed.

(** One use of the macro in a loop, with and without the watcher. *)
Ltac same_token f e :=
  rewrite <- (GET_unwatched f e);
  destruct (GET_THE_NEXT_TOKEN (inp := Watched inp) f e)
    as [?m ?e1|?t ?p ?l ?e1|];
  cbn [unwatched_next unwatched_walked unwatched_decoded];
  [reflexivity | | reflexivity].

Lemma check_unwatched (fuel : nat)
    (e : Env (I * list wuffs_base__io_buffer) D) :
  unwatched_walked (check_that_a_value_follows (inp := Watched inp) fuel e)
  = check_that_a_value_follows (inp := inp) fuel (unwatched e).
Proof.
  revert e. induction fuel as [|f IH]; intros e; [reflexivity|].
  cbn [check_that_a_value_follows]. same_token f e.
  destruct (Token.value_base_category t =? VBC__FILLER); [apply IH|].
  destruct ((Token.value_base_category t =? VBC__STRUCTURE)
            && has_bit (Token.value_base_detail t) VBD__STRUCTURE__POP);
    reflexivity.
Qed.

Lemma do_list_skip_unwatched (fuel : nat)
    (e : Env (I * list wuffs_base__io_buffer) D) (d r : Z) :
  unwatched_walked (do_list_skip (inp := Watched inp) fuel e d r)
  = do_list_skip (inp := inp) fuel (unwatched e) d r.
Proof.
  revert e d r. induction fuel as [|f IH]; intros e d r; [reflexivity|].
  cbn [do_list_skip]. same_token f e.
  repeat match goal with
         | |- context [if ?c then _ else _] => destruct c
         end;
    first [apply IH | apply check_unwatched | reflexivity].
Qed.

Lemma do_dict_unwatched (fuel : nat) :
  (forall (e : Env (I * list wuffs_base__io_buffer) D) str frag,
     unwatched_walked (do_dict_key (inp := Watched inp) fuel e str frag)
     = do_dict_key (inp := inp) fuel (unwatched e) str frag)
  /\ (forall (e : Env (I * list wuffs_base__io_buffer) D) d frag,
        unwatched_walked
          (skip_the_next_dict_value (inp := Watched inp) fuel e d frag)
        = skip_the_next_dict_value (inp := inp) fuel (unwatched e) d frag).
Proof.
  induction fuel as [|f [IHk IHs]]; [split; reflexivity|]. split.
  - intros e str frag. cbn [do_dict_key]. same_token f e.
    change (io_buf (unwatched e1)) with (io_buf e1).
    destruct (Token.value_base_category t =? VBC__FILLER); [apply IHk|].
    destruct (Token.value_base_category t =? VBC__STRUCTURE);
      [destruct (has_bit _ _); reflexivity|].
    destruct (Token.value_base_category t =? VBC__STRING).
    + destruct (assemble_string_token f (io_buf e1)
                  (Token.value_base_detail t) p l str); try reflexivity.
      destruct (Token.continued t); [apply IHk|].
      destruct (_ =? _)%string; [reflexivity | apply IHs].
    + destruct (Token.value_base_category t =? VBC__UNICODE_CODE_POINT);
        [|reflexivity].
      destruct (Token.continued t); [apply IHk|].
      destruct (_ =? _)%string; [reflexivity | apply IHs].
  - intros e d frag. cbn [skip_the_next_dict_value]. same_token f e.
    repeat match goal with
           | |- context [if ?c then _ else _] => destruct c
           end;
      first [apply IHk | apply IHs].
Qed.

Lemma Walk_unwatched (fuel : nat)
    (e : Env (I * list wuffs_base__io_buffer) D) (frag : string) :
  unwatched_walked
    (DecodeJson_WalkJsonPointerFragment (inp := Watched inp) fuel e frag)
  = DecodeJson_WalkJsonPointerFragment (inp := inp) fuel (unwatched e) frag.
Proof.
  revert e. induction fuel as [|f IH]; intros e; [reflexivity|].
  cbn [DecodeJson_WalkJsonPointerFragment]. same_token f e.
  destruct (Token.value_base_category t =? VBC__FILLER); [apply IH|].
  destruct (negb (Token.value_base_category t =? VBC__STRUCTURE)
            || negb (has_bit (Token.value_base_detail t)
                       VBD__STRUCTURE__PUSH)); [reflexivity|].
  destruct (has_bit (Token.value_base_detail t) VBD__STRUCTURE__TO_LIST).
  - unfold do_list.
    destruct (wuffs_base__parse_number_u64 (list_byte_of_string frag))
      as [st v].
    destruct (negb (is_ok st)); [reflexivity|].
    destruct (v =? 0); [apply check_unwatched | apply do_list_skip_unwatched].
  - unfold do_dict. apply (proj1 (do_dict_unwatched f)).
Qed.

Lemma walk_json_pointer_unwatched (fuel : nat)
    (e : Env (I * list wuffs_base__io_buffer) D) (s : string) (i : nat) :
  unwatched_walked (walk_json_pointer (inp := Watched inp) fuel e s i)
  = walk_json_pointer (inp := inp) fuel (unwatched e) s i.
Proof.
  revert e i. induction fuel as [|f IH]; intros e i; [reflexivity|].
  cbn [walk_json_pointer].
  destruct (i <? String.length s)%nat; [|reflexivity].
  destruct (negb (char_at s i =? "/")%char); [reflexivity|].
  destruct (snd (DecodeJson_SplitJsonPointer s (i + 1)) =? 0)%nat;
    [reflexivity|].
  rewrite <- Walk_unwatched.
  destruct (DecodeJson_WalkJsonPointerFragment (inp := Watched inp) f e
              (fst (DecodeJson_SplitJsonPointer s (i + 1)))) as [m e1|];
    [|reflexivity].
  cbn [unwatched_walked]. destruct (negb (empty m)); [reflexivity | apply IH].
Qed.

Lemma main_loop_unwatched (fuel : nat)
    (e : Env (I * list wuffs_base__io_buffer) D) (depth : Z) (str : string)
    (c : C) :
  unwatched_decoded
    (main_loop (inp := Watched inp) (cbs := Watching cbs) fuel e depth str c)
  = main_loop (inp := inp) (cbs := cbs) fuel (unwatched e) depth str c.
Proof.
  revert e depth str c. induction fuel as [|f IH]; intros e depth str c;
    [reflexivity|].
  cbn [main_loop]. same_token f e.
  change (io_buf (unwatched e1)) with (io_buf e1).
  change (process_token (cbs := Watching cbs) f (io_buf e1) t p l depth str c)
    with (process_token (cbs := cbs) f (io_buf e1) t p l depth str c).
  destruct (process_token f (io_buf e1) t p l depth str c);
    [apply IH | reflexivity | reflexivity].
Qed.

(** The watcher only watches: [DecodeJson] arrives at the label [done] as
    it does without it. *)
Lemma decode_unwatched (fuel : nat) (c : C) (input0 : I)
    (log : list wuffs_base__io_buffer) (quirks : list Z)
    (json_pointer : string) :
  option_map unwatched_stopped
    (decode (inp := Watched inp) (cbs := Watching cbs) fuel c (input0, log)
       quirks json_pointer)
  = decode (inp := inp) (cbs := cbs) fuel c input0 quirks json_pointer.
Proof.
  unfold decode. cbn [BringsItsOwnIOBuffer Watched fst].
  destruct alloc as [d|]; [|reflexivity].
  match goal with
  | |- context [walk_json_pointer (inp := Watched inp) fuel ?e0 _ _] =>
      rewrite <- (walk_json_pointer_unwatched fuel e0);
      destruct (walk_json_pointer (inp := Watched inp) fuel e0 json_pointer 0)
        as [m e1|]; [|reflexivity]
  end.
  cbn [unwatched_walked]. destruct (negb (empty m)); [reflexivity|].
  rewrite <- main_loop_unwatched.
  destruct (main_loop (inp := Watched inp) (cbs := Watching cbs) fuel e1 0
              EmptyString c) as [m2 e2 c2|]; reflexivity.
Qed.

(** X15: whenever [DecodeJson] calls [CopyIn], the buffer it hands over
    is compacted (ri is 0), has room (wi < data.len) and is not closed.
    For any run that reaches [done]: the same run with a watcher around the
    input reaches [done] in the same state, and the buffers that the
    watcher has seen handed to [CopyIn] are all so. *)
Theorem CopyIn_gets_a_ready_buffer (fuel : nat) (c : C) (input0 : I)
    (quirks : list Z) (json_pointer : string) (s : stopped I C) :
  decode fuel c input0 quirks json_pointer = Some s ->
  exists bufs : list wuffs_base__io_buffer,
    decode (inp := Watched inp) (cbs := Watching cbs) fuel c (input0, [])
      quirks json_pointer
    = Some (mk_stopped (stop_message s) (stop_io_buf s) (stop_cursor_index s)
              (stop_callbacks s) (stop_input s, bufs))
    /\ Forall ready_for_CopyIn bufs.
Proof.
  intros Hs. rewrite <- (decode_unwatched fuel c input0 []) in Hs.
  destruct (decode (inp := Watched inp) (cbs := Watching cbs) fuel c
              (input0, []) quirks json_pointer) as [sW|] eqn:HW;
    [|discriminate].
  cbn [option_map] in Hs. inversion Hs; subst s; clear Hs.
  destruct sW as [m b ci c' [i bufs]]. exists bufs. split; [reflexivity|].
  change bufs
    with (snd (stop_input
                 (mk_stopped (I := I * list wuffs_base__io_buffer)
                    m b ci c' (i, bufs)))).
  refine (decode_keeps (inpJ := Watched inp) (cbs := Watching cbs)
            (fun e => Forall ready_for_CopyIn (snd (input e)))
            _
            (fun _ _ i => Forall ready_for_CopyIn (snd i))
            fuel c (input0, []) quirks json_pointer _ _ _ _ HW).
  - intros f e HQ. unfold GET_THE_NEXT_TOKEN.
    pose proof (refill_watched f e HQ) as Hr.
    destruct (refill f e) as [[m1 e1|e1]|]; try exact Hr.
    unfold take_token.
    match goal with |- context [if ?c then _ else _] => destruct c end;
      [exact Hr | split; exact Hr].
  - intros e HQ. exact HQ.
  - constructor.
  - intros d. constructor.
Qed.

End CopyInContract.

(** * The collaborators of [Double] are well-behaved *)

Import Double.

Lemma write_at_length {A : Type} (cells new : list A) (at_ : Z) :
  0 <= at_ ->
  at_ + Z.of_nat (List.length new) <= Z.of_nat (List.length cells) ->
  List.length (Double.write_at cells at_ new) = List.length cells.
Proof.
  intros H0 Hle. unfold Double.write_at.
  rewrite !length_app, length_firstn, length_skipn. lia.
Qed.

Lemma write_at_Forall {A : Type} (P : A -> Prop) (cells new : list A)
    (at_ : Z) :
  Forall P cells -> Forall P new -> Forall P (Double.write_at cells at_ new).
Proof.
  intros Hc Hn. unfold Double.write_at.
  apply Forall_app. split; [apply Forall_take, Hc|].
  apply Forall_app. split; [exact Hn | apply Forall_drop, Hc].
Qed.

Lemma Double_well_behaved (script : list Double.Reply) :
  WellBehaved Double.source (Double.scripted script).
Proof.
  constructor.
  - intros d tb ib st d' tb' ib' Hplay (Hri & Hwi & Hlen & Hpos)
      (Htri & Htwi & Htlen & Hall).
    simpl in Hplay. unfold Double.play in Hplay.
    destruct d as [|r d0].
    + inversion Hplay; subst.
      unfold io_buffer_ok, token_buffer_ok. auto 10.
    + inversion Hplay; subst; clear Hplay.
      set (room := Z.of_nat (List.length (tok_data tb)) - wi (tok_meta tb)).
      set (toks := map Double.natural
                     (firstn (Z.to_nat room) (Double.emits r))).
      assert (Hroom : Z.of_nat (List.length toks) <= room).
      { unfold toks. rewrite length_map, length_firstn. lia. }
      assert (Hnat : Forall (fun t => 0 <= Token.length t) toks).
      { unfold toks. apply Forall_forall. intros t Ht.
        apply in_map_iff in Ht. destruct Ht as (t0 & <- & _). simpl. lia. }
      unfold io_buffer_ok, token_buffer_ok, data_len in *. simpl.
      rewrite write_at_length by lia.
      splits; try lia. apply write_at_Forall; assumption.
  - intros i b msg i' b' Hcopy (Hri & Hwi & Hlen & Hpos).
    simpl in Hcopy. unfold Double.copy_in in Hcopy.
    destruct (Double.chunks i) as [|[[bytes cl] m] rest].
    + inversion Hcopy; subst. unfold io_buffer_ok, data_len in *. simpl.
      auto 10.
    + inversion Hcopy; subst; clear Hcopy.
      set (room := data_len b - wi (meta b)).
      assert (Hroom : Z.of_nat (List.length (firstn (Z.to_nat room) bytes))
                      <= room).
      { rewrite length_firstn. unfold room. lia. }
      unfold io_buffer_ok, data_len in *. simpl.
      rewrite write_at_length by (fold room; lia).
      fold room. splits; lia.
Qed.

(** * The theorems at work *)

Import Run.

Lemma short_read_handling_witness :
  GET_THE_NEXT_TOKEN (jd := Double.scripted []) 1 Run.after_disk_error
  = Stop "disk error"
      (set_io_error_message Run.after_disk_error EmptyString).
Proof.
  apply (short_read_handling (jd := Double.scripted [])
           Run.after_disk_error 0);
    [reflexivity | simpl; lia | discriminate].
Defined.

Lemma null_buffered_ok : env_ok Run.null_buffered.
Proof.
  unfold env_ok, io_buffer_ok, token_buffer_ok, data_len, u64_max. simpl.
  splits; try lia. repeat constructor. simpl. lia.
Qed.

Lemma cursor_bookkeeping_witness :
  exists e0 : Env Double.Source (list Double.Reply),
    refill (jd := Double.scripted []) 1 Run.null_buffered = Some (again e0)
    /\ 0 = cursor_index e0 /\ 4 = Token.length Run.null_token
    /\ cursor_index Run.null_taken
       = cursor_index e0 + Token.length Run.null_token
    /\ position_of Run.null_taken
       = wuffs_base__u64__sat_add (position_of Run.null_buffered)
           (Token.length Run.null_token).
Proof.
  apply (proj1 (cursor_bookkeeping (cbs := Double.accepting)
                  (wb := Double_well_behaved [])
                  Run.null_buffered 1 null_buffered_ok)
           Run.null_token 0 4 Run.null_taken).
  reflexivity.
Defined.

(** C1 as stated fails twice.  With io_buf at the end of the 64-bit
    positions, compaction does not increase pos by the old ri; and when
    [Done] writes into the result, the cursor_position that [DecodeJson]
    returns is not the sum of pos and cursor_index where processing
    stopped. *)
Lemma cursor_bookkeeping_counterexample :
  pos (meta (wuffs_base__io_buffer__compact Run.at_the_end))
  <> pos (meta Run.at_the_end) + ri (meta Run.at_the_end)
  /\ exists s r,
       decode (cbs := Double.overwriting)
         (jd := Double.scripted Run.null_script)
         3 tt (Double.memory "null") [] EmptyString = Some s
       /\ returned
            (DecodeJson (cbs := Double.overwriting)
               (jd := Double.scripted Run.null_script)
               3 tt (Double.memory "null") [] EmptyString) = Some r
       /\ wuffs_base__u64__sat_add (pos (meta (stop_io_buf s)))
            (stop_cursor_index s) = 4
       /\ cursor_position r = 999.
Proof.
  split.
  - vm_compute. discriminate.
  - eexists. eexists. splits.
    + vm_compute. reflexivity.
    + vm_compute. reflexivity.
    + vm_compute. reflexivity.
    + reflexivity.
Qed.

(** The two bytes of [42], which both parsers of [Double] accept, in a token
    that allows both. *)
Lemma number_dispatch_witness :
  number_token (cbs := Recorded accepting) (tt, [])
    (mk_io_buffer (list_byte_of_string "42") (mk_io_meta 2 2 0 true))
    0x403 0 2
  = Some (EmptyString, (tt, [EvAppendI64 42 EmptyString])).
Proof.
  exact (proj1 (number_dispatch (cbs := Recorded accepting)
                  (jd := scripted []) (tt, [])
                  (mk_io_buffer (list_byte_of_string "42")
                     (mk_io_meta 2 2 0 true))
                  0x403 0 2)
           eq_refl eq_refl eq_refl).
Defined.

Lemma json_pointer_syntax_witness :
  DecodeJson_SplitJsonPointer "/foo/bar/baz/qux" 5 = ("bar", 8%nat)
  /\ DecodeJson_SplitJsonPointer "/~1/~0" 1 = ("/", 3%nat)
  /\ DecodeJson_SplitJsonPointer "/a~" 1 = (EmptyString, O).
Proof.
  splits.
  - apply (json_pointer_syntax (cbs := accepting) (jd := scripted [])
             "/foo/bar/baz/qux" 5). reflexivity.
  - apply (json_pointer_syntax (cbs := accepting) (jd := scripted [])
             "/~1/~0" 1). reflexivity.
  - apply (json_pointer_syntax (cbs := accepting) (jd := scripted [])
             "/a~" 1). reflexivity.
Defined.

(** C7 as stated fails twice.  The second fragment of [/a/~2] has a [~]
    followed by [2], yet on the input [1] [DecodeJson] returns "no match":
    walking the first fragment fails before the second is looked at.  And
    from index 0 of [/a], [DecodeJson_SplitJsonPointer] returns the index 0
    for a fragment (the empty one) that has no [~] at all. *)
Lemma json_pointer_syntax_counterexample :
  (PointerSpec.raw_fragments "/a/~2" = Some ["a"; "~2"]
   /\ PointerSpec.bad_tilde "~2" = true
   /\ returned
        (DecodeJson (cbs := accepting) (jd := scripted one_script)
           5 tt (memory "1") [] "/a/~2")
      = Some (mk_result DecodeJson_NoMatch 1))
  /\ (DecodeJson_SplitJsonPointer "/a" 0 = (EmptyString, O)
      /\ PointerSpec.bad_tilde
           (PointerSpec.segment (PointerSpec.drop 0 "/a")) = false).
Proof. vm_compute. auto. Qed.

(** The calls seen when [DecodeJson] decodes [null] with the callbacks
    that keep the defaults of json.cc. *)
Lemma Done_exactly_once_witness :
  exists evs s,
    decode (cbs := Recorded defaults) (jd := scripted Run.null_script)
      3 (tt, []) (memory "null") [] EmptyString = Some s
    /\ [EvAppendNull EmptyString; EvDone (mk_result EmptyString 4)]
       = [] ++ evs ++ [EvDone (assembled_result s)]
    /\ Forall (fun ev => is_Done ev = false) evs
    /\ List.length (filter is_Done (evs ++ [EvDone (assembled_result s)]))
       = 1%nat.
Proof.
  eapply (proj1 (Done_exactly_once (cbs := defaults)
                   (jd := scripted Run.null_script)
                   3 tt [] (memory "null") [] EmptyString)).
  vm_compute. reflexivity.
Defined.

(** The calls seen on four of the ways to an error: no decoder, a JSON
    Pointer without its slash, a JSON Pointer into a [null], and a decoder
    that reports an error.  Each time [Done] is the one call. *)
Example one_Done_on_errors :
  let calls r := option_map (fun x : unit * list Event * DecodeJsonResult
                                     * Source * wuffs_base__io_buffer =>
                               snd (fst (fst (fst x)))) r in
  calls (DecodeJson (cbs := Recorded defaults) (jd := out_of_memory)
           0 (tt, []) (memory "null") [] EmptyString)
  = Some [EvDone (mk_result "wuffs_aux::DecodeJson: out of memory" 0)]
  /\ calls (DecodeJson (cbs := Recorded defaults)
              (jd := scripted Run.null_script)
              1 (tt, []) (memory "null") [] "a")
     = Some [EvDone (mk_result DecodeJson_BadJsonPointer 0)]
  /\ calls (DecodeJson (cbs := Recorded defaults)
              (jd := scripted Run.null_script)
              3 (tt, []) (memory "null") [] "/a")
     = Some [EvDone (mk_result DecodeJson_NoMatch 4)]
  /\ calls (DecodeJson (cbs := Recorded defaults)
              (jd := scripted
                       [mk_reply [] 0 (status_other true "#json: bad input")])
              3 (tt, []) (memory "x") [] EmptyString)
     = Some [EvDone (mk_result "#json: bad input" 0)].
Proof. vm_compute. auto. Qed.

Lemma null_stops_overwriting :
  decode (cbs := overwriting) (jd := scripted Run.null_script)
    3 tt (memory "null") [] EmptyString = Some null_stopped.
Proof. vm_compute. reflexivity. Qed.

Lemma null_stops_defaults :
  decode (cbs := defaults) (jd := scripted Run.null_script)
    3 tt (memory "null") [] EmptyString = Some null_stopped.
Proof. vm_compute. reflexivity. Qed.

Lemma Done_result_is_returned_witness :
  returned
    (DecodeJson (cbs := overwriting) (jd := scripted Run.null_script)
       3 tt (memory "null") [] EmptyString)
  = Some (mk_result "Done was here" 999)
  /\ returned
       (DecodeJson (cbs := defaults) (jd := scripted Run.null_script)
          3 tt (memory "null") [] EmptyString)
     = Some (mk_result EmptyString 4).
Proof.
  split.
  - exact (proj1 (Done_result_is_returned (cbs := overwriting)
                    (jd := scripted Run.null_script)
                    3 tt (memory "null") [] EmptyString null_stopped
                    null_stops_overwriting)).
  - exact (proj1 (proj2 (Done_result_is_returned (cbs := defaults)
                           (jd := scripted Run.null_script)
                           3 tt (memory "null") [] EmptyString null_stopped
                           null_stops_defaults))
             (fun _ _ _ _ => eq_refl)).
Defined.






Lemma list_tf_ok : env_ok (list_tf 3 6).
Proof.
  unfold env_ok, io_buffer_ok, token_buffer_ok, data_len, u64_max. simpl.
  splits; try lia. repeat constructor; simpl; lia.
Qed.

(** The fragment [1] passes over [true] in [[true,false]] and stops before
    [false]. *)
Lemma walker_list_descent_witness :
  eventually
    (fun fuel => do_list (jd := scripted []) fuel (list_tf 1 1) "1")
    (Return EmptyString (list_tf 3 6))
  /\ (ri (tok_meta (tok_buf (unget (list_tf 4 11) 5)))
      = ri (tok_meta (tok_buf (list_tf 4 11))) - 1
      /\ cursor_index (unget (list_tf 4 11) 5)
         = cursor_index (list_tf 4 11) - 5
      /\ 5 = Token.length (tok VBC__LITERAL 0x4 false 5)
      /\ position_of (unget (list_tf 4 11) 5) = position_of (list_tf 3 6)
      /\ takes (jd := scripted []) (unget (list_tf 4 11) 5)
           (tok VBC__LITERAL 0x4 false 5) 6 5 (list_tf 4 11)).
Proof.
  pose proof (walker_list_descent (jd := scripted [])
                (wb := Double_well_behaved []) "1") as (_ & Hlist & Hcheck).
  assert (Htake : takes (jd := scripted []) (list_tf 3 6)
                    (tok VBC__LITERAL 0x4 false 5) 6 5 (list_tf 4 11))
    by (apply takes_buffered; [simpl; lia | reflexivity]).
  assert (Hfill : filler_run (jd := scripted []) (list_tf 2 5) (list_tf 3 6)).
  { eapply filler_run_cons with (token := tok VBC__FILLER 0x1 false 1);
      [|reflexivity|apply filler_run_nil].
    apply takes_buffered; [simpl; lia | reflexivity]. }
  split.
  - refine (proj1 (proj2 (Hlist eq_refl)) O 1%nat (list_tf 1 1) (list_tf 2 5)
              (le_n 1) eq_refl _ _ _ _ _).
    + unfold u64_max. simpl. lia.
    + unfold u32_max. simpl. lia.
    + eapply values_cons; [|apply values_nil].
      eapply value_atom with (token := tok VBC__LITERAL 0x8 false 4);
        [apply takes_buffered; [simpl; lia | reflexivity]
        | reflexivity | discriminate | discriminate].
    + exact (proj1 (Hcheck (list_tf 2 5) (list_tf 3 6)
                      (tok VBC__LITERAL 0x4 false 5) 6 5 (list_tf 4 11)
                      Hfill Htake ltac:(discriminate))).
  - exact (proj2 (Hcheck (list_tf 2 5) (list_tf 3 6)
                    (tok VBC__LITERAL 0x4 false 5) 6 5 (list_tf 4 11)
                    Hfill Htake ltac:(discriminate))
             list_tf_ok).
Defined.


(** * The further properties at work *)

Lemma unread_ok : io_buffer_ok Run.unread.
Proof. unfold io_buffer_ok, data_len, u64_max. simpl. lia. Qed.

Lemma compact_keeps_the_unread_bytes_witness :
  firstn 2 (skipn 1 (data (wuffs_base__io_buffer__compact Run.unread)))
  = list_byte_of_string "de".
Proof.
  refine (proj1 (compact_keeps_the_unread_bytes Run.unread 1 2 unread_ok
                   _ _ _)); simpl; lia.
Defined.

Lemma at_the_end_ok : io_buffer_ok Run.at_the_end.
Proof. unfold io_buffer_ok, data_len. simpl. unfold u64_max. lia. Qed.

Lemma compact_keeps_the_io_positions_witness :
  wuffs_base__io_buffer__reader_io_position__ptr
    (wuffs_base__io_buffer__compact__ptr (Some Run.at_the_end))
  = u64_max.
Proof.
  refine (proj1 (compact_keeps_the_io_positions (Some Run.at_the_end) _)).
  intros b Hb. inversion Hb; subst. exact at_the_end_ok.
Defined.

Lemma split_undoes_escape_witness :
  DecodeJson_SplitJsonPointer "/foo/a~1b~0c/x" 5 = ("a/b~c", 12%nat).
Proof.
  apply (split_undoes_escape "/foo/" "a/b~c" "/x").
  right. exists "x". reflexivity.
Defined.

(** The base-16 decoder of [Double] takes four bytes for every byte it
    writes, or reports an error. *)
Lemma Double_decode4_progress (src : list byte) :
  src <> [] ->
  let o := fst (wuffs_base__base_16__decode4 64 src true) in
  is_error (status o) = false ->
  num_dst o <= 64 -> num_src o <= Z.of_nat (List.length src) ->
  1 <= num_src o.
Proof.
  intros Hne.
  assert (Hlen : 0 < Z.of_nat (List.length src)).
  { destruct src; [congruence|]. cbn [List.length]. lia. }
  unfold wuffs_base__base_16__decode4, base, base_16__decode4.
  cbn [fst status num_dst num_src negb].
  set (n := Z.of_nat (List.length src)) in *. clearbody n.
  pose proof (Z.div_mod n 4 ltac:(lia)) as Hdm.
  pose proof (Z.mod_pos_bound n 4 ltac:(lia)) as Hm.
  destruct (64 <? n / 4) eqn:E1; [lia|].
  destruct (n mod 4 =? 0) eqn:E2; cbn [negb is_error]; [lia | discriminate].
Qed.

Lemma DecodeBackslashX_returns_witness :
  exists msg out,
    forall fuel, (8 <= fuel)%nat ->
      DecodeJson_DecodeBackslashX fuel "a" (list_byte_of_string "\x41\x4a")
      = Some (msg, ("a" ++ out)%string).
Proof.
  exact (DecodeBackslashX_returns "a" (list_byte_of_string "\x41\x4a")
           Double_decode4_progress).
Defined.

Lemma DecodeBackslashX_spins_witness :
  DecodeJson_DecodeBackslashX (base := stalling) 1000 "a"
    (list_byte_of_string "\x41") = None.
Proof.
  apply (DecodeBackslashX_spins (base := stalling) "a"
           (list_byte_of_string "\x41"));
    [discriminate | reflexivity | cbn; lia | reflexivity].
Defined.

Lemma token_bytes_in_bounds_witness :
  0 <= 0 /\ 0 <= 4 /\ 4 = Token.length Run.null_token
  /\ 0 + 4 = cursor_index Run.null_taken
  /\ cursor_index Run.null_taken <= ri (meta (io_buf Run.null_taken))
  /\ ri (meta (io_buf Run.null_taken)) <= wi (meta (io_buf Run.null_taken))
  /\ wi (meta (io_buf Run.null_taken)) <= data_len (io_buf Run.null_taken)
  /\ Z.of_nat (List.length (token_bytes (io_buf Run.null_taken) 0 4)) = 4.
Proof.
  apply (token_bytes_in_bounds (wb := Double_well_behaved [])
           1 Run.null_buffered Run.null_token 0 4 Run.null_taken
           null_buffered_ok).
  reflexivity.
Defined.

Lemma decoder_is_not_called_after_an_error_witness :
  GET_THE_NEXT_TOKEN (jd := scripted Run.null_script) 1
    Run.after_decoder_error
  = Stop "json: bad input" Run.after_decoder_error.
Proof.
  exact (proj1 (decoder_is_not_called_after_an_error
                  (jd := scripted Run.null_script) 0 Run.after_decoder_error
                  true "json: bad input" eq_refl)).
Defined.

Lemma first_decoder_error_is_the_result_witness :
  DecodeJson (cbs := Recorded defaults) (jd := scripted Run.bad_input_script)
    3 (tt, []) (memory "nul") [] EmptyString
  = Some (tt, [EvDone (mk_result "json: bad input" 0)],
          mk_result "json: bad input" 0, memory "nul",
          mk_io_buffer (list_byte_of_string "nul") (mk_io_meta 3 0 0 true)).
Proof.
  refine (first_decoder_error_is_the_result
            (cbs := Recorded defaults) (jd := scripted Run.bad_input_script)
            0 (tt, []) (memory "nul") [] Run.bad_input_script []
            true "json: bad input" initial_tok_buf
            (mk_io_buffer (list_byte_of_string "nul") (mk_io_meta 3 0 0 true))
            eq_refl eq_refl _).
  simpl. lia.
Defined.

Lemma literal_dispatch_witness :
  eventually
    (fun fuel =>
       main_loop (cbs := Recorded accepting) (jd := scripted []) fuel
         Run.null_buffered 0 EmptyString (tt, []))
    (Finished EmptyString Run.null_taken (tt, [EvAppendNull EmptyString])).
Proof.
  refine (proj1 (literal_dispatch (cbs := Recorded accepting)
                   (jd := scripted [])
                   Run.null_buffered Run.null_buffered Run.null_token 0 4
                   Run.null_taken 0 EmptyString (tt, [])
                   (filler_run_nil _) _ eq_refl) eq_refl).
  apply takes_buffered; [simpl; lia | reflexivity].
Defined.

Lemma byte_string_a_run :
  string_run (jd := scripted []) (byte_string_a 0 0) EmptyString
    (byte_string_a 2 2) "a".
Proof.
  eapply string_run_cons with (e1 := byte_string_a 1 1) (str1 := EmptyString).
  - apply takes_buffered; [simpl; lia | reflexivity].
  - reflexivity.
  - apply contributes_drop; reflexivity.
  - eapply string_run_cons with (e1 := byte_string_a 2 2) (str1 := "a").
    + apply takes_buffered; [simpl; lia | reflexivity].
    + reflexivity.
    + apply (contributes_copy (io_buf (byte_string_a 2 2)) letter_a 1 1
               EmptyString); reflexivity.
    + apply string_run_nil.
Qed.

Lemma byte_strings_are_refused_by_default_witness :
  eventually
    (fun fuel =>
       main_loop (cbs := defaults) (jd := scripted []) fuel
         (byte_string_a 0 0) 1 EmptyString tt)
    (Finished "wuffs_aux::DecodeJson: unexpected JSON byte string"
       (byte_string_a 3 3) tt).
Proof.
  refine (byte_strings_are_refused_by_default (cbs := defaults)
            (jd := scripted [])
            (byte_string_a 0 0) EmptyString (byte_string_a 2 2) "a"
            bytes_close 2 1 (byte_string_a 3 3) "a" 1 tt
            (fun _ _ => eq_refl) byte_string_a_run _ eq_refl eq_refl eq_refl _).
  - apply takes_buffered; [simpl; lia | reflexivity].
  - apply contributes_drop; reflexivity.
Defined.

Lemma dict_ab_key_a :
  dict_key (jd := scripted []) (dict_ab 1 1) "a" (dict_ab 4 4).
Proof.
  apply dict_key_intro with (e1 := dict_ab 3 3) (str1 := "a")
    (token := quote_close) (token_ptr := 3) (token_len := 1).
  - eapply string_run_cons with (e1 := dict_ab 2 2) (str1 := EmptyString).
    + apply takes_buffered; [simpl; lia | reflexivity].
    + reflexivity.
    + apply contributes_drop; reflexivity.
    + eapply string_run_cons with (e1 := dict_ab 3 3) (str1 := "a").
      * apply takes_buffered; [simpl; lia | reflexivity].
      * reflexivity.
      * apply (contributes_copy (io_buf (dict_ab 3 3)) letter_a 2 1
                 EmptyString); reflexivity.
      * apply string_run_nil.
  - apply takes_buffered; [simpl; lia | reflexivity].
  - reflexivity.
  - apply contributes_drop; reflexivity.
Qed.

Lemma dict_ab_value_1 :
  values (jd := scripted []) 0 1 (dict_ab 4 4) (dict_ab 6 6).
Proof.
  eapply values_skip with (token := tok VBC__FILLER 0x1 false 1)
    (e1 := dict_ab 5 5).
  - apply takes_buffered; [simpl; lia | reflexivity].
  - right. reflexivity.
  - eapply values_cons with (e1 := dict_ab 6 6); [|apply values_nil].
    eapply value_atom with (token := tok VBC__NUMBER 0x402 false 1).
    + apply takes_buffered; [simpl; lia | reflexivity].
    + reflexivity.
    + discriminate.
    + discriminate.
Qed.

Lemma dict_ab_key_b :
  dict_key (jd := scripted []) (dict_ab 6 6) "b" (dict_ab 10 10).
Proof.
  apply dict_key_intro with (e1 := dict_ab 9 9) (str1 := "b")
    (token := quote_close) (token_ptr := 9) (token_len := 1).
  - eapply string_run_filler with (token := tok VBC__FILLER 0x1 false 1)
      (e1 := dict_ab 7 7).
    + apply takes_buffered; [simpl; lia | reflexivity].
    + reflexivity.
    + eapply string_run_cons with (e1 := dict_ab 8 8) (str1 := EmptyString).
      * apply takes_buffered; [simpl; lia | reflexivity].
      * reflexivity.
      * apply contributes_drop; reflexivity.
      * eapply string_run_cons with (e1 := dict_ab 9 9) (str1 := "b").
        -- apply takes_buffered; [simpl; lia | reflexivity].
        -- reflexivity.
        -- apply (contributes_copy (io_buf (dict_ab 9 9)) letter_a 8 1
                    EmptyString); reflexivity.
        -- apply string_run_nil.
  - apply takes_buffered; [simpl; lia | reflexivity].
  - reflexivity.
  - apply contributes_drop; reflexivity.
Qed.

Lemma walker_dict_lookup_witness :
  eventually
    (fun fuel =>
       DecodeJson_WalkJsonPointerFragment (jd := scripted []) fuel
         (dict_ab 0 0) "b")
    (Return EmptyString (dict_ab 10 10)).
Proof.
  refine (proj1 (walker_dict_lookup (jd := scripted []) 0 "b"
                   (dict_ab 0 0) (dict_ab 0 0)
                   (tok VBC__STRUCTURE 0x4011 false 1) 0 1
                   (dict_ab 1 1) (dict_ab 6 6) _ (filler_run_nil _) _ _
                   eq_refl _)
            (dict_ab 10 10) dict_ab_key_b).
  - unfold u32_max. simpl. lia.
  - apply takes_buffered; [simpl; lia | reflexivity].
  - repeat split.
  - eapply other_entries_cons with (str := "a") (e1 := dict_ab 4 4)
      (e2 := dict_ab 6 6).
    + exact dict_ab_key_a.
    + discriminate.
    + exact dict_ab_value_1.
    + apply other_entries_nil.
Defined.

Lemma null_after_refill_stops :
  decode (cbs := accepts Source) (jd := scripted Run.null_after_refill)
    5 tt Run.null_to_come [] EmptyString
  = Some (mk_stopped EmptyString
            (mk_io_buffer
               (list_byte_of_string "null" ++ repeat x00 4092)
               (mk_io_meta 4 4 0 true))
            4 tt (mk_source None [])).
Proof. vm_compute. reflexivity. Qed.

Lemma CopyIn_gets_a_ready_buffer_witness :
  exists bufs : list wuffs_base__io_buffer,
    decode (inp := Watched source) (cbs := Watching (accepts Source))
      (jd := scripted Run.null_after_refill)
      5 tt (Run.null_to_come, []) [] EmptyString
    = Some (mk_stopped EmptyString
              (mk_io_buffer
                 (list_byte_of_string "null" ++ repeat x00 4092)
                 (mk_io_meta 4 4 0 true))
              4 tt (mk_source None [], bufs))
    /\ Forall ready_for_CopyIn bufs.
Proof.
  exact (CopyIn_gets_a_ready_buffer (cbs := accepts Source)
           (jd := scripted Run.null_after_refill)
           5 tt Run.null_to_come [] EmptyString _ null_after_refill_stops).
Defined.

Lemma io_buf_is_full_when_nothing_was_read_witness :
  GET_THE_NEXT_TOKEN (jd := scripted []) 1 Run.full_buffer
  = Stop "wuffs_aux::DecodeJson: internal error: io_buf is full"
      Run.full_buffer.
Proof.
  refine (proj1 (io_buf_is_full_when_nothing_was_read (jd := scripted [])
                   Run.full_buffer 0 _ eq_refl _ eq_refl eq_refl eq_refl) _).
  - unfold io_buffer_ok, data_len, u64_max. simpl. lia.
  - simpl. lia.
  - split; reflexivity.
Defined.

Lemma own_buffer_must_start_at_ri_0_witness :
  returned
    (DecodeJson (cbs := defaults) (jd := scripted Run.wants_more)
       3 tt Run.read_in_part [] EmptyString)
  = Some (mk_result
            "wuffs_aux::DecodeJson: internal error: bad cursor_index" 0).
Proof.
  refine (f_equal returned
            (own_buffer_must_start_at_ri_0 (cbs := defaults)
               (jd := scripted Run.wants_more)
               0 tt Run.read_in_part [] Run.wants_more []
               initial_tok_buf
               (mk_io_buffer (list_byte_of_string " null")
                  (mk_io_meta 5 1 0 false))
               eq_refl eq_refl _ _)).
  - simpl. lia.
  - simpl. lia.
Defined.

Lemma buffer_is_valid_at_done_witness :
  io_buffer_ok (stop_io_buf Run.null_stopped)
  /\ 0 <= stop_cursor_index Run.null_stopped
  /\ 0 <= cursor_position (assembled_result Run.null_stopped) <= u64_max.
Proof.
  refine (buffer_is_valid_at_done (cbs := defaults)
            (wb := Double_well_behaved Run.null_script)
            3 tt (memory "null") [] EmptyString Run.null_stopped _
            null_stops_defaults).
  unfold io_buffer_ok, data_len. simpl. unfold u64_max. lia.
Defined.
